(** * Modular exponentiation tasks of prst (src/exp.cpp)

    A shallow embedding of the exponentiation tasks [FastExp], [SlowExp],
    [MultipointExp] and [GerbiczCheckMultipointExp], and the properties of
    their residues, parameters and state handling.

    Conventions.  C++ [int] values are unbounded [Z]: signed overflow is
    undefined in C++, and the iteration counts and exponent lengths of a run
    stay far below 2^30.  The exceptions are [Gerbicz_params] and [cost],
    whose products and sums leave the range of [int] for iteration counts
    that an [int] holds: there the 32-bit two's complement result is written
    out with [int_wrap].  [/] and [%] on [int] are [Z.quot] and [Z.rem].  A
    pointer that may be null is an [option].  A failed [GWASSERT] (fatal, as
    the spec has it) and a thrown [TaskRestartException] are results of type
    [outcome]. *)

From Stdlib Require Import ZArith Bool Lia Sorted PrimFloat Uint63.
From stdpp Require Import base list.

#[local] Open Scope Z_scope.

(** ** Giant: arbitrary-precision exponents *)

Module Giant.

(** Modelled from the spec: [Giant::bitlen], [Giant::bit] and
    [Giant::power] (arithmetic/giant.h is not among the sources); the
    exponent is a non-negative integer. *)
Definition bitlen (e : Z) : Z := if e =? 0 then 0 else Z.log2 e + 1.

Definition bit (e i : Z) : bool := Z.testbit e i.

Definition power (b k : Z) : Z := b ^ k.

End Giant.

(** ** Results of a task *)

Inductive outcome (A : Type) : Type :=
| Ok (a : A)
| AssertionFailed
| TaskRestart (a : A).

Arguments Ok {A} a.
Arguments AssertionFailed {A}.
Arguments TaskRestart {A} a.

(** [State { iteration, X }]: a residue committed at an iteration. *)
Record State : Type := mkState { iteration : Z; State_X : Z }.

(** One call of the arithmetic provider, with the options that matter to
    the caller. *)
Inductive gwop : Type :=
| gw_square_op (mulbyconst startnextfft : bool)
| gw_mul_op (startnextfft : bool).

Section Arithmetic.

(** The modulus described by the input number. *)
Variable N : Z.

(** Modelled from the spec: the arithmetic provider (gwnum.h and
    arithmetic.h are not among the sources).  A residue [GWNum] is a large
    integer modulo the input; [square(a, res, options)] and
    [mul(a, b, res, options)] write their result to the last residue
    argument, [GWMUL_MULBYCONST] fuses the multiplication by the constant
    of [setmulbyconst] into the operation, and [GWMUL_STARTNEXTFFT] is a
    hint without effect on the value. *)
Definition GWNum_of (v : Z) : Z := v mod N.

Definition gw_square (mulbyconst : option Z) (a : Z) : Z :=
  match mulbyconst with
  | Some c => (a * a * c) mod N
  | None => (a * a) mod N
  end.

Definition gw_mul (a b : Z) : Z := (a * b) mod N.

Definition gw_sub (a b : Z) : Z := (a - b) mod N.

(** Modelled from the spec: the checkpoint cadence of the task framework
    (task.h is not among the sources).  [due i] tells whether the commit
    after iteration [i] writes a checkpoint, and [is_last i] holds at the
    last of the [iterations] steps. *)
Variable due : Z -> bool.

Definition is_last (iterations i : Z) : bool := iterations <=? i + 1.

Definition commit_execute (i X : Z) (st : option State) : option State :=
  if due i then Some (mkState i X) else st.

(** ** FastExp *)

Record FastExp : Type := mkFastExp {
  FastExp_exp : Z;
  FastExp_x0 : Z;
  FastExp_state : option State;
  FastExp_iterations : Z
}.

(** The result of [execute]: the residue [X] at [done()], the state left
    by the commits and the provider calls made, in order. *)
Record run : Type := mkRun {
  run_X : Z;
  run_state : option State;
  run_ops : list gwop
}.

Definition FastExp_init (maxmulbyconst : Z) (file : option State)
    (exp x0 : Z) : outcome FastExp :=
  if x0 <=? maxmulbyconst
  then Ok (mkFastExp exp x0 file (Giant.bitlen exp - 1))
  else AssertionFailed.

(** The loop of [FastExp::execute]; [n] counts the remaining iterations
    [len - i]. *)
Fixpoint FastExp_loop (exp x0 len : Z) (n : nat) (i : Z) (r : run) : run :=
  match n with
  | O => r
  | S n' =>
      let b := Giant.bit exp (len - i - 1) in
      let X' := gw_square (if b then Some x0 else None) (run_X r) in
      FastExp_loop exp x0 len n' (i + 1)
        (mkRun X' (commit_execute (i + 1) X' (run_state r))
               (run_ops r ++ [gw_square_op b (negb (is_last len i))]))
  end.

Definition FastExp_execute (t : FastExp) : run :=
  let '(i, X) :=
    match FastExp_state t with
    | None => (0, GWNum_of (FastExp_x0 t))
    | Some s => (iteration s, GWNum_of (State_X s))
    end in
  let len := FastExp_iterations t in
  FastExp_loop (FastExp_exp t) (FastExp_x0 t) len (Z.to_nat (len - i)) i
    (mkRun X (FastExp_state t) []).

(** ** SlowExp *)

Record SlowExp : Type := mkSlowExp {
  SlowExp_exp : Z;
  SlowExp_X0 : Z;
  SlowExp_state : option State;
  SlowExp_iterations : Z
}.

Definition SlowExp_init (file : option State) (exp X0 : Z) : SlowExp :=
  mkSlowExp exp X0 file (Giant.bitlen exp - 1).

Fixpoint SlowExp_loop (exp X0 len : Z) (n : nat) (i : Z) (r : run) : run :=
  match n with
  | O => r
  | S n' =>
      let b := Giant.bit exp (len - i - 1) in
      let X1 := gw_square None (run_X r) in
      let sq := gw_square_op false (negb (is_last len i) || b) in
      let '(X', ops) :=
        if b
        then (gw_mul X1 X0, [sq; gw_mul_op (negb (is_last len i))])
        else (X1, [sq]) in
      SlowExp_loop exp X0 len n' (i + 1)
        (mkRun X' (commit_execute (i + 1) X' (run_state r))
               (run_ops r ++ ops))
  end.

Definition SlowExp_execute (t : SlowExp) : run :=
  let X0 := GWNum_of (SlowExp_X0 t) in
  let '(i, X) :=
    match SlowExp_state t with
    | None => (0, X0)
    | Some s => (iteration s, GWNum_of (State_X s))
    end in
  let len := SlowExp_iterations t in
  SlowExp_loop (SlowExp_exp t) X0 len (Z.to_nat (len - i)) i
    (mkRun X (SlowExp_state t) []).

(** ** MultipointExp *)

(** The conversion of an [int] to [double], exact on the range of [int]. *)
Definition double_of_int (z : Z) : float :=
  if z <? 0
  then PrimFloat.opp (PrimFloat.of_uint63 (Uint63.of_Z (- z)))
  else PrimFloat.of_uint63 (Uint63.of_Z z).

(** [(int)x == k] for a double [x >= 0]: [k <= x < k + 1]. *)
Definition double_floor_is (x : float) (k : Z) : bool :=
  PrimFloat.leb (double_of_int k) x && PrimFloat.ltb x (double_of_int (k + 1)).

(** The comparison of the two window costs in [sliding_window],
    [(1 << (W - 1)) + len*(1 + 1/(W + 1.0)) >
     (1 << (W - 0)) + len*(1 + 1/(W + 2.0))],
    evaluated as the source does, in IEEE double precision with every
    operation rounded to nearest. *)
Definition window_cost_drops (W len : Z) : bool :=
  PrimFloat.ltb
    (double_of_int (Z.shiftl 1 (W - 0))
     + double_of_int len * (1 + 1 / (double_of_int W + 2)))%float
    (double_of_int (Z.shiftl 1 (W - 1))
     + double_of_int len * (1 + 1 / (double_of_int W + 1)))%float.

Definition window_continue (W_ max_size len W : Z) : bool :=
  ((W <? W_) || (W_ =? -1))
  && ((Z.shiftl 1 (W + 1) <=? max_size) || (max_size =? -1))
  && window_cost_drops W len.

(** [for (W = 2; ...; W++);] run for at most [fuel] increments. *)
Fixpoint window_loop (fuel : nat) (W_ max_size len W : Z) : Z :=
  match fuel with
  | O => W
  | S fuel' =>
      if window_continue W_ max_size len W
      then window_loop fuel' W_ max_size len (W + 1)
      else W
  end.

(** The loop is followed while [1 << (W + 1)] is an [int], that is up to
    [W = 29]: 28 increments from [W = 2]. *)
Definition window_width (W_ max_size len : Z) : Z :=
  window_loop 28 W_ max_size len 2.

(** [if (_U.size() <= i) _U.emplace_back(gw());] *)
Definition U_emplace (U : list Z) (i : nat) : list Z :=
  if (length U <=? i)%nat then U ++ [0] else U.

Definition U_at (U : list Z) (i : nat) : Z := default 0 (U !! i).

(** The loop filling [_U[i]] for [i = 1 .. 2^(W-1) - 1]; [X2] is the
    square held by [X()]. *)
Fixpoint table_loop (n i : nat) (X2 : Z) (U : list Z) : list Z :=
  match n with
  | O => U
  | S n' =>
      let U1 := U_emplace U i in
      table_loop n' (S i) X2 (<[i := gw_mul X2 (U_at U1 (i - 1))]> U1)
  end.

(** The table of odd powers: returns [_U] and [X()]. *)
Definition window_table (W : Z) (U : list Z) (X : Z) : list Z * Z :=
  let U0 := U_emplace U 0 in
  let U1 := <[0%nat := X]> U0 in
  let X2 := gw_square None (U_at U1 0) in
  (table_loop (Z.to_nat (Z.shiftl 1 (W - 1) - 1)) 1 X2 U1, X2).

(** [for (; exp.bit(j) == 0; j++);] with [n] positions left below the set
    bit [i]. *)
Fixpoint window_low (exp : Z) (n : nat) (j : Z) : Z :=
  match n with
  | O => j
  | S n' => if Giant.bit exp j then j else window_low exp n' (j + 1)
  end.

(** [while (i >= j)] collecting the bits of the window into [ui], with a
    squaring per bit when [squaring] is set; [n] counts [i - j + 1]. *)
Fixpoint window_bits (squaring : bool) (exp : Z) (n : nat) (i ui X : Z)
    : Z * Z * Z :=
  match n with
  | O => (i, ui, X)
  | S n' =>
      window_bits squaring exp n' (i - 1)
        (Z.shiftl ui 1 + (if Giant.bit exp i then 1 else 0))
        (if squaring then gw_square None X else X)
  end.

(** [while (i >= 0)]: every turn lowers [i], so [i + 1] turns suffice. *)
Fixpoint window_walk (fuel : nat) (exp len W : Z) (U : list Z) (i X : Z) : Z :=
  match fuel with
  | O => X
  | S fuel' =>
      if i <? 0 then X
      else if negb (Giant.bit exp i)
      then window_walk fuel' exp len W U (i - 1) (gw_square None X)
      else
        let j0 := if i - W + 1 <? 0 then 0 else i - W + 1 in
        let j := window_low exp (Z.to_nat (i - j0)) j0 in
        if i =? len
        then
          let '(i', ui, _) :=
            window_bits false exp (Z.to_nat (i - j + 1)) i 0 X in
          window_walk fuel' exp len W U i' (U_at U (Z.to_nat (Z.quot ui 2)))
        else
          let '(i', ui, X') :=
            window_bits true exp (Z.to_nat (i - j + 1)) i 0 X in
          window_walk fuel' exp len W U i'
            (gw_mul (U_at U (Z.to_nat (Z.quot ui 2))) X')
  end.

(** [MultipointExp::sliding_window]: returns [_U] and [X()]. *)
Definition sliding_window (W_ max_size : Z) (exp : Z) (U : list Z) (X : Z)
    : list Z * Z :=
  let len := Giant.bitlen exp - 1 in
  let W := window_width W_ max_size len in
  let '(U', X2) := window_table W U X in
  (U', window_walk (Z.to_nat (len + 1)) exp len W U' len X2).

Record MultipointExp : Type := mkMultipointExp {
  _b : Z;
  _points : list Z;
  _W : Z;
  _max_size : Z;
  _on_point : bool;
  _state : option State;
  _U : list Z
}.

(** The variables of [MultipointExp::execute] while it runs; [mp_called]
    lists the calls [_on_point(i)] with the residue held at the call. *)
Record mp_run : Type := mkMpRun {
  mp_i : Z;
  mp_X : Z;
  mp_U : list Z;
  mp_state : option State;
  mp_last_power : Z;
  mp_exp : Z;
  mp_called : list State
}.

Definition MultipointExp_init_state (t : MultipointExp) (state : State)
    : MultipointExp :=
  mkMultipointExp (_b t) (_points t) (_W t) (_max_size t) (_on_point t)
    (Some state) (_U t).

Definition MultipointExp_init (t : MultipointExp) (file : option State)
    : MultipointExp :=
  let t0 := mkMultipointExp (_b t) (_points t) (_W t) (_max_size t)
              (_on_point t) None (_U t) in
  match file with
  | Some state => MultipointExp_init_state t0 state
  | None => t0
  end.

(** [for (; i < _points[next_point]; i++, commit_execute<State>(i, X()))] *)
Fixpoint squarings (n : nat) (i X : Z) (st : option State)
    : Z * Z * option State :=
  match n with
  | O => (i, X, st)
  | S n' =>
      let X' := gw_square None X in
      squarings n' (i + 1) X' (commit_execute (i + 1) X' st)
  end.

Definition state_at (st : option State) (i : Z) : bool :=
  match st with
  | Some s => iteration s =? i
  | None => false
  end.

(** The body of the loop over [next_point], at the point [p]. *)
Definition MultipointExp_point (t : MultipointExp) (p : Z) (r : mp_run)
    : mp_run :=
  let r1 :=
    if _b t =? 2
    then
      let '(i, X, st) :=
        squarings (Z.to_nat (p - mp_i r)) (mp_i r) (mp_X r) (mp_state r) in
      mkMpRun i X (mp_U r) st (mp_last_power r) (mp_exp r) (mp_called r)
    else
      let '(last_power, exp) :=
        if negb (mp_last_power r =? p - mp_i r)
        then (p - mp_i r, Giant.power (_b t) (p - mp_i r))
        else (mp_last_power r, mp_exp r) in
      let '(U, X) :=
        sliding_window (_W t) (_max_size t) exp (mp_U r) (mp_X r) in
      mkMpRun p X U (mp_state r) last_power exp (mp_called r) in
  let st :=
    if state_at (mp_state r1) (mp_i r1)
    then mp_state r1
    else Some (mkState (mp_i r1) (mp_X r1)) in
  mkMpRun (mp_i r1) (mp_X r1) (mp_U r1) st (mp_last_power r1) (mp_exp r1)
    (if _on_point t
     then mp_called r1 ++ [mkState (mp_i r1) (mp_X r1)]
     else mp_called r1).

(** [for (next_point = 0; next_point < _points.size() &&
    i >= _points[next_point]; next_point++);] leaves the points still to
    reach. *)
Fixpoint points_after (i : Z) (points : list Z) : list Z :=
  match points with
  | [] => []
  | p :: rest => if p <=? i then points_after i rest else points
  end.

Definition MultipointExp_execute (t : MultipointExp) : outcome mp_run :=
  match _state t with
  | None => AssertionFailed
  | Some s =>
      let r0 := mkMpRun (iteration s) (GWNum_of (State_X s)) (_U t)
                  (_state t) (-1) 0 [] in
      Ok (foldl (fun r p => MultipointExp_point t p r) r0
            (points_after (iteration s) (_points t)))
  end.

(** ** GerbiczCheckMultipointExp *)

(** The working state [_state]: a [TaskState] holding the iteration only,
    or a [GerbiczCheckState { iteration, X, D }]. *)
Inductive TaskState : Type :=
| TaskState_at (iteration : Z)
| GerbiczCheckState (iteration X D : Z).

Definition TaskState_iteration (s : TaskState) : Z :=
  match s with
  | TaskState_at i => i
  | GerbiczCheckState i _ _ => i
  end.

(** The [int] that an operation on [int]s leaves when its exact result is
    [z]: the low 32 bits, read in two's complement. *)
Definition int_wrap (z : Z) : Z :=
  (z + 2147483648) mod 4294967296 - 2147483648.

(** [Gerbicz_params(iters, log2b, L, L2)].  [log2b] is overwritten by 1, so
    the square root and the bound [2*iters/log2b] are taken of integers
    that a double holds exactly, and [(int)sqrt(iters/log2b)] is the integer
    square root (example [double_sqrt_floor] checks the rounding at perfect
    squares and their predecessors).  [i*i], [2*iters] and [i++] are
    operations on [int].  [n] bounds the number of times the condition of
    the loop is evaluated; the result is [None] when it is evaluated more
    often, and where [iters%i] or [iters%L] divides by zero. *)
Fixpoint Gerbicz_params_loop (n : nat) (iters i L L2 : Z) : option (Z * Z) :=
  match n with
  | O => None
  | S n' =>
      if int_wrap (i * i) <? int_wrap (2 * iters)
      then
        if i =? 0 then None
        else if L2 <? iters - Z.rem iters i
        then Gerbicz_params_loop n' iters (int_wrap (i + 1)) i
               (iters - Z.rem iters i)
        else Gerbicz_params_loop n' iters (int_wrap (i + 1)) L L2
      else Some (L, L2)
  end.

Definition Gerbicz_params (fuel : nat) (iters : Z) : option (Z * Z) :=
  let L := Z.sqrt iters in
  if L =? 0 then None
  else
    let L2 := iters - Z.rem iters L in
    Gerbicz_params_loop fuel iters (int_wrap (L + 1)) L L2.

(** The largest [iters] for which no product of [Gerbicz_params] leaves the
    range of [int]: [2*iters = 46340*46340], and [46341*46341 > 2^31 - 1]. *)
Definition Gerbicz_params_max : Z := 1073697800.

(** The loop of [Gerbicz_params] on 63-bit machine integers, for the
    non-negative values of [int]; it serves to evaluate long scans. *)
Fixpoint Gerbicz_params_scan (n : nat) (iters i L L2 : int)
    : option (int * int) :=
  match n with
  | O => None
  | S n' =>
      if ((i * i + 2147483648) mod 4294967296
          <? (2 * iters + 2147483648) mod 4294967296)%uint63
      then
        if (L2 <? iters - iters mod i)%uint63
        then Gerbicz_params_scan n' iters (i + 1)%uint63 i
               (iters - iters mod i)%uint63
        else Gerbicz_params_scan n' iters (i + 1)%uint63 L L2
      else Some (L, L2)
  end.

(** The members of the task.  [G_R] is the residue [_R], null until
    [setup]; [G_called] lists the iterations passed to [_on_point].  The
    task framework advances [_restart_op] on its own; that is outside this
    file. *)
Record GerbiczCheckMultipointExp : Type := mkGerbicz {
  G_b : Z;
  G_points : list Z;
  G_W : Z;
  G_max_size : Z;
  G_on_point : bool;
  G_L : Z;
  G_L2 : Z;
  G_state : option TaskState;
  G_state_recovery : option State;
  G_R : option Z;
  G_U : list Z;
  G_recovery_op : Z;
  G_restart_op : Z;
  G_restart_count : Z;
  G_called : list Z
}.

Definition G_with_state (t : GerbiczCheckMultipointExp)
    (st : option TaskState) (rec : option State)
    : GerbiczCheckMultipointExp :=
  mkGerbicz (G_b t) (G_points t) (G_W t) (G_max_size t) (G_on_point t)
    (G_L t) (G_L2 t) st rec (G_R t) (G_U t) (G_recovery_op t)
    (G_restart_op t) (G_restart_count t) (G_called t).

Definition Gerbicz_init_state (t : GerbiczCheckMultipointExp)
    (state : State) : GerbiczCheckMultipointExp :=
  let discard :=
    match G_state t with
    | None => true
    | Some w =>
        (TaskState_iteration w <? iteration state)
        || (iteration state + G_L2 t <=? TaskState_iteration w)
    end in
  G_with_state t
    (if discard then Some (TaskState_at (iteration state)) else G_state t)
    (Some state).

(** [file] is the [GerbiczCheckState] read from the working file,
    [file_recovery] the [State] read from the recovery file. *)
Definition Gerbicz_init (t : GerbiczCheckMultipointExp)
    (file : option TaskState) (file_recovery : option State)
    : GerbiczCheckMultipointExp :=
  let t0 := G_with_state t file (G_state_recovery t) in
  match file_recovery with
  | Some state_recovery => Gerbicz_init_state t0 state_recovery
  | None => t0
  end.

(** [state()] of this task is the recovery state. *)
Definition Gerbicz_setup (t : GerbiczCheckMultipointExp)
    : outcome GerbiczCheckMultipointExp :=
  match G_R t with
  | Some _ => Ok t
  | None =>
      match G_state_recovery t with
      | None => AssertionFailed
      | Some s =>
          Ok (mkGerbicz (G_b t) (G_points t) (G_W t) (G_max_size t)
                (G_on_point t) (G_L t) (G_L2 t) (G_state t)
                (G_state_recovery t) (Some (GWNum_of (State_X s))) (G_U t)
                (G_recovery_op t) (G_restart_op t) (G_restart_count t)
                (G_called t))
      end
  end.

(** The variables of [GerbiczCheckMultipointExp::execute] while it runs:
    the locals [i], [next_point], [last_power], [exp], the residues and the
    members that change. *)
Record grun : Type := mkGrun {
  g_i : Z;
  g_next_point : Z;
  g_last_power : Z;
  g_exp : Z;
  g_X : Z;
  g_D : Z;
  g_R : Z;
  g_U : list Z;
  g_state : TaskState;
  g_state_recovery : State;
  g_recovery_op : Z;
  g_restart_op : Z;
  g_restart_count : Z;
  g_called : list Z
}.

Definition point_at (points : list Z) (k : Z) : Z :=
  default 0 (points !! Z.to_nat k).

(** [while ((_points[next_point] - state()->iteration()) < L2 && L > 1)]:
    [L] is halved, so [L] turns suffice. *)
Fixpoint block_size (fuel : nat) (dist L L2 last_power : Z) : Z * Z * Z :=
  match fuel with
  | O => (L, L2, last_power)
  | S fuel' =>
      if (dist <? L2) && (1 <? L)
      then block_size fuel' dist (Z.quot L 2)
             (Z.quot L 2 * Z.quot L 2) (-1)
      else (L, L2, last_power)
  end.

Definition call_on_point (on_point : bool) (called : list Z) (i : Z)
    : list Z :=
  if on_point then called ++ [i] else called.

Definition commit_execute_check (i X D : Z) (st : TaskState) : TaskState :=
  if due i then GerbiczCheckState i X D else st.

(** The block for [_b == 2]:
    [for (j = i - state()->iteration(); j < L2; j++, i++, commit_execute)];
    [n] counts [L2 - j]. *)
Fixpoint block_squarings (t : GerbiczCheckMultipointExp) (L L2 : Z)
    (n : nat) (j : Z) (r : grun) : grun :=
  match n with
  | O => r
  | S n' =>
      let i := g_i r in
      let X := gw_square None (g_X r) in
      let at_point :=
        negb (j + 1 =? L2)
        && (i + 1 =? point_at (G_points t) (g_next_point r)) in
      let st :=
        if at_point then GerbiczCheckState (i + 1) X (g_D r)
        else g_state r in
      let called :=
        if at_point then call_on_point (G_on_point t) (g_called r) (i + 1)
        else g_called r in
      let next_point :=
        if at_point then g_next_point r + 1 else g_next_point r in
      let D :=
        if negb (j + 1 =? L2) && (Z.rem (j + 1) L =? 0)
        then gw_mul X (g_D r) else g_D r in
      block_squarings t L L2 n' (j + 1)
        (mkGrun (i + 1) next_point (g_last_power r) (g_exp r) X D (g_R r)
           (g_U r) (commit_execute_check (i + 1) X D st)
           (g_state_recovery r) (g_recovery_op r) (g_restart_op r)
           (g_restart_count r) called)
  end.

(** [if (last_power != L) { last_power = L; exp = _b; exp.power(L); }] *)
Definition power_cache (b L last_power exp : Z) : Z * Z :=
  if negb (last_power =? L) then (L, Giant.power b L) else (last_power, exp).

(** The block for [_b != 2]:
    [for (j = i - state()->iteration(); j < L2; j += L, i += L,
    commit_execute)]; [j] grows, so [L2 - j] turns suffice. *)
Fixpoint block_windows (t : GerbiczCheckMultipointExp) (L L2 : Z)
    (fuel : nat) (j : Z) (r : grun) : grun :=
  match fuel with
  | O => r
  | S fuel' =>
      if j <? L2
      then
        let i := g_i r in
        let '(last_power, exp) :=
          power_cache (G_b t) L (g_last_power r) (g_exp r) in
        let '(U, X) :=
          sliding_window (G_W t) (G_max_size t) exp (g_U r) (g_X r) in
        let at_point :=
          negb (j + L =? L2)
          && (i + L =? point_at (G_points t) (g_next_point r)) in
        let st :=
          if at_point then GerbiczCheckState (i + L) X (g_D r)
          else g_state r in
        let called :=
          if at_point then call_on_point (G_on_point t) (g_called r) (i + L)
          else g_called r in
        let next_point :=
          if at_point then g_next_point r + 1 else g_next_point r in
        let D := if negb (j + L =? L2) then gw_mul X (g_D r) else g_D r in
        block_windows t L L2 fuel' (j + L)
          (mkGrun (i + L) next_point last_power exp X D (g_R r) U
             (commit_execute_check (i + L) X D st)
             (g_state_recovery r) (g_recovery_op r) (g_restart_op r)
             (g_restart_count r) called)
      else r
  end.

(** [for (j = 0; j < L; j++) gw().carefully().square(X(), X(), 0);] *)
Fixpoint careful_squarings (n : nat) (X : Z) : Z :=
  match n with
  | O => X
  | S n' => careful_squarings n' (gw_square None X)
  end.

(** The Gerbicz check at the end of a block, from [GWNum T(D())] to the
    end of the loop body.  [Ok] carries the run at the next turn of the
    loop over [next_point]. *)
Definition Gerbicz_check (t : GerbiczCheckMultipointExp) (L : Z) (r : grun)
    : outcome grun :=
  let i := g_i r in
  let T := g_D r in
  let D := gw_mul (g_X r) (g_D r) in
  let '(T, X) := (g_X r, T) in
  let '(X, U, last_power, exp) :=
    if G_b t =? 2
    then (careful_squarings (Z.to_nat L) X, g_U r, g_last_power r, g_exp r)
    else
      let '(last_power, exp) :=
        power_cache (G_b t) L (g_last_power r) (g_exp r) in
      let '(U, X) :=
        sliding_window (G_W t) (G_max_size t) exp (g_U r) X in
      (X, U, last_power, exp) in
  let X := gw_mul (g_R r) X in
  let X := gw_sub X D in
  let '(T, X) := (X, T) in
  if negb (T =? 0) || (D =? 0)
  then
    TaskRestart
      (mkGrun i (g_next_point r) last_power exp X D (g_R r) U
         (TaskState_at (iteration (g_state_recovery r)))
         (g_state_recovery r) (g_recovery_op r) (g_recovery_op r)
         (g_restart_count r) (g_called r))
  else
    let at_point := i =? point_at (G_points t) (g_next_point r) in
    Ok (mkGrun i
          (if at_point then g_next_point r + 1 else g_next_point r)
          last_power exp X X X U (TaskState_at i) (mkState i X)
          (g_restart_op r) (g_restart_op r) 0
          (if at_point then call_on_point (G_on_point t) (g_called r) i
           else g_called r)).

(** One turn of the loop over [next_point]: a Gerbicz block and its
    check. *)
Definition Gerbicz_block (t : GerbiczCheckMultipointExp) (r : grun)
    : outcome grun :=
  let rec := iteration (g_state_recovery r) in
  let '(L, L2, last_power) :=
    block_size (Z.to_nat (G_L t))
      (point_at (G_points t) (g_next_point r) - rec) (G_L t) (G_L2 t)
      (g_last_power r) in
  let r0 :=
    mkGrun (g_i r) (g_next_point r) last_power (g_exp r) (g_X r) (g_D r)
      (g_R r) (g_U r) (g_state r) (g_state_recovery r) (g_recovery_op r)
      (g_restart_op r) (g_restart_count r) (g_called r) in
  if negb (g_i r - rec <=? L2) then AssertionFailed
  else if G_b t =? 2
  then
    Gerbicz_check t L
      (block_squarings t L L2 (Z.to_nat (L2 - (g_i r - rec)))
         (g_i r - rec) r0)
  else if negb (Z.rem (g_i r - rec) L =? 0) then AssertionFailed
  else
    Gerbicz_check t L
      (block_windows t L L2 (Z.to_nat (L2 - (g_i r - rec)))
         (g_i r - rec) r0).

(** [for (; next_point < _points.size(); next_point++)], for at most
    [blocks] turns; [None] when they do not suffice. *)
Fixpoint Gerbicz_blocks (blocks : nat) (t : GerbiczCheckMultipointExp)
    (r : grun) : option (outcome grun) :=
  if g_next_point r <? Z.of_nat (length (G_points t))
  then
    match blocks with
    | O => None
    | S blocks' =>
        match Gerbicz_block t r with
        | Ok r' => Gerbicz_blocks blocks' t r'
        | o => Some o
        end
    end
  else Some (Ok r).

(** The number of points [i] has passed:
    [for (next_point = 0; next_point < _points.size() &&
    i >= _points[next_point]; next_point++);] *)
Fixpoint points_passed (i : Z) (points : list Z) : Z :=
  match points with
  | [] => 0
  | p :: rest => if p <=? i then 1 + points_passed i rest else 0
  end.

(** The start of [execute], up to the loop over [next_point].  [execute]
    runs after [setup], with [_R] and the recovery state in place, and
    [init_state] has set [_state] with the recovery state. *)
Definition Gerbicz_enter (t : GerbiczCheckMultipointExp) : option grun :=
  match G_R t, G_state_recovery t, G_state t with
  | Some R, Some rec, Some st =>
      let '(i, X, D) :=
        match st with
        | TaskState_at _ => (iteration rec, R, R)
        | GerbiczCheckState i X D => (i, GWNum_of X, GWNum_of D)
        end in
      Some (mkGrun i (points_passed i (G_points t)) (-1) 0 X D R (G_U t)
              st rec (G_recovery_op t) (G_restart_op t)
              (G_restart_count t) (G_called t))
  | _, _, _ => None
  end.

(** The members of the task as a run leaves them. *)
Definition Gerbicz_leave (t : GerbiczCheckMultipointExp) (r : grun)
    : GerbiczCheckMultipointExp :=
  mkGerbicz (G_b t) (G_points t) (G_W t) (G_max_size t) (G_on_point t)
    (G_L t) (G_L2 t) (Some (g_state r)) (Some (g_state_recovery r))
    (Some (g_R r)) (g_U r) (g_recovery_op r) (g_restart_op r)
    (g_restart_count r) (g_called r).

Definition Gerbicz_execute (blocks : nat) (t : GerbiczCheckMultipointExp)
    : option (outcome GerbiczCheckMultipointExp) :=
  match Gerbicz_enter t with
  | None => None
  | Some r =>
      match Gerbicz_blocks blocks t r with
      | None => None
      | Some (Ok r') => Some (Ok (Gerbicz_leave t r'))
      | Some (TaskRestart r') => Some (TaskRestart (Gerbicz_leave t r'))
      | Some AssertionFailed => Some AssertionFailed
      end
  end.

(** The residues of a run are reduced modulo [N] and the cached power
    [exp], when there is one, is [_b^last_power]: what every run started by
    [Gerbicz_enter] after [setup] keeps (lemmas [Gerbicz_enter_residues] and
    [Gerbicz_block_residues]). *)
Definition grun_residues (t : GerbiczCheckMultipointExp) (r : grun) : Prop :=
  g_X r mod N = g_X r
  /\ g_D r mod N = g_D r
  /\ g_R r mod N = g_R r
  /\ (g_last_power r = -1 \/ g_exp r = G_b t ^ g_last_power r).

(** The exponent of [R] in the check accumulator [D] after [m] snapshots
    taken [q = b^L] apart: [1 + q + ... + q^(m-1)]. *)
Fixpoint snapshots (q : Z) (m : nat) : Z :=
  match m with
  | O => 0
  | S m' => 1 + q * snapshots q m'
  end.

End Arithmetic.

(** ** Members outside [execute] *)

(** [MultipointExp::release]: [_X.reset(); _U.clear();].  The residue [_X]
    lives during [execute] only. *)
Definition MultipointExp_release (t : MultipointExp) : MultipointExp :=
  mkMultipointExp (_b t) (_points t) (_W t) (_max_size t) (_on_point t)
    (_state t) [].

(** [GerbiczCheckMultipointExp::release]:
    [_recovery_op = 0; _R.reset(); _D.reset(); MultipointExp::release();] *)
Definition Gerbicz_release (t : GerbiczCheckMultipointExp)
    : GerbiczCheckMultipointExp :=
  mkGerbicz (G_b t) (G_points t) (G_W t) (G_max_size t) (G_on_point t)
    (G_L t) (G_L2 t) (G_state t) (G_state_recovery t) None [] 0
    (G_restart_op t) (G_restart_count t) (G_called t).

(** The comparison of the two window costs in [cost()], with [log2b*_L] in
    the place of the exponent length. *)
Definition cost_window_drops (log2b : float) (L W : Z) : bool :=
  PrimFloat.ltb
    (double_of_int (Z.shiftl 1 (W - 0))
     + log2b * double_of_int L * (1 + 1 / (double_of_int W + 2)))%float
    (double_of_int (Z.shiftl 1 (W - 1))
     + log2b * double_of_int L * (1 + 1 / (double_of_int W + 1)))%float.

Fixpoint cost_window_loop (fuel : nat) (log2b : float) (W_ max_size L W : Z)
    : Z :=
  match fuel with
  | O => W
  | S fuel' =>
      if ((W <? W_) || (W_ =? -1))
         && ((Z.shiftl 1 (W + 1) <=? max_size) || (max_size =? -1))
         && cost_window_drops log2b L W
      then cost_window_loop fuel' log2b W_ max_size L (W + 1)
      else W
  end.

(** [GerbiczCheckMultipointExp::cost].  [log2b] is the double that
    [log2(_b)] of <cmath> returns, which is not among Rocq's primitive
    floats.  The sums and the product of [int]s are taken with [int_wrap].
    The result is [None] where the source reads past the points, divides
    an [int] by zero, or divides the least [int] by -1. *)
Definition Gerbicz_cost (log2b : float) (t : GerbiczCheckMultipointExp)
    : option float :=
  match last (G_points t) with
  | None => None
  | Some n =>
      if (G_L t =? 0) || (G_L2 t =? 0) then None
      else if (n =? -2147483648) && ((G_L t =? -1) || (G_L2 t =? -1))
      then None
      else if G_b t =? 2
      then
        Some (double_of_int
                (int_wrap (int_wrap (n + Z.quot n (G_L t))
                           + int_wrap (Z.quot n (G_L2 t) * G_L t))))
      else
        let W := cost_window_loop 28 log2b (G_W t) (G_max_size t) (G_L t) 2 in
        Some (double_of_int (Z.quot n (G_L t))
              + double_of_int
                  (int_wrap (Z.quot n (G_L t) + Z.quot n (G_L2 t)))
                * (double_of_int (Z.shiftl 1 (W - 1))
                   + log2b * double_of_int (G_L t)
                     * (1 + 1 / (double_of_int W + 1))))%float
  end.

(** The calls of [_on_point] still to come when the cursor over the
    points is at [next_point]. *)
Definition points_pending (t : GerbiczCheckMultipointExp) (next_point : Z)
    : list Z :=
  if G_on_point t then drop (Z.to_nat next_point) (G_points t) else [].

Section Verified.

Variable N : Z.

(** A run that stands at its recovery state, [g_i r - i0] iterations after
    the residue [R0]: the residues [X], [D] and [R] are
    [R0^(b^(i - i0)) mod N], the recovery state holds that residue, the
    cursor is behind the points passed, and the calls made and still to
    come add up to [calls]. *)
Definition grun_verified (t : GerbiczCheckMultipointExp) (R0 i0 : Z)
    (calls : list Z) (r : grun) : Prop :=
  g_i r = iteration (g_state_recovery r)
  /\ i0 <= g_i r
  /\ g_R r = R0 ^ (G_b t ^ (g_i r - i0)) mod N
  /\ g_X r = g_R r
  /\ g_D r = g_R r
  /\ State_X (g_state_recovery r) mod N = g_R r
  /\ (g_last_power r = -1 \/ g_exp r = G_b t ^ g_last_power r)
  /\ g_next_point r = points_passed (g_i r) (G_points t)
  /\ g_called r ++ points_pending t (g_next_point r) = calls.

End Verified.

(** * Properties *)

(** Linear arithmetic on the counters of a loop, with the equations on
    residues set aside. *)
Ltac counters :=
  repeat match goal with
         | H : context [Z.modulo] |- _ => clear H
         end;
  lia.

(** ** Exponents read from the top bit down *)

Lemma bitlen_pos (e : Z) : 1 <= e -> Giant.bitlen e - 1 = Z.log2 e.
Proof.
  intros He. unfold Giant.bitlen.
  destruct (Z.eqb_spec e 0); lia.
Qed.

Lemma shiftr_log2 (e : Z) : 1 <= e -> Z.shiftr e (Z.log2 e) = 1.
Proof.
  intros He. rewrite Z.shiftr_div_pow2 by apply Z.log2_nonneg.
  destruct (Z.log2_spec e) as [Hlo Hhi]; [lia|].
  rewrite Z.pow_succ_r in Hhi by apply Z.log2_nonneg.
  symmetry. apply Z.div_unique with (r := e - 2 ^ Z.log2 e); lia.
Qed.

(** The bits above position [k] are twice the bits above [k + 1], plus
    bit [k]. *)
Lemma shiftr_bit (e k : Z) :
  0 <= k -> Z.shiftr e k = 2 * Z.shiftr e (k + 1) + Z.b2z (Z.testbit e k).
Proof.
  intros Hk.
  rewrite <- (Z.shiftr_shiftr e k 1) by lia.
  rewrite <- Z.div2_spec, Z.testbit_odd.
  apply Z.div2_odd.
Qed.

Lemma shiftr_nonneg (e k : Z) : 0 <= e -> 0 <= Z.shiftr e k.
Proof. intros. now apply Z.shiftr_nonneg. Qed.

Section Residues.

Variable N : Z.

Lemma pow_mod_base (a q : Z) : (a mod N) ^ q mod N = a ^ q mod N.
Proof.
  destruct (Z.le_gt_cases 0 q) as [Hq|Hq].
  - pattern q. apply natlike_ind; [reflexivity| |exact Hq].
    intros x Hx IH. rewrite !Z.pow_succ_r by exact Hx.
    rewrite Zmult_mod, IH, Zmod_mod, <- Zmult_mod. reflexivity.
  - now rewrite !Z.pow_neg_r by lia.
Qed.

(** A squaring, with or without the fused constant, doubles the exponent
    and adds the bit. *)
Lemma gw_square_pow (a p : Z) (b : bool) :
  0 <= p ->
  gw_square N (if b then Some a else None) (a ^ p mod N)
  = a ^ (2 * p + Z.b2z b) mod N.
Proof.
  intros Hp. unfold gw_square.
  destruct b; cbn [Z.b2z].
  - rewrite Z.pow_add_r, Z.pow_1_r by lia.
    replace (2 * p) with (p + p) by lia. rewrite Z.pow_add_r by lia.
    rewrite (Zmult_mod (_ * _) a), <- (Zmult_mod (a ^ p)), <- Zmult_mod.
    reflexivity.
  - rewrite Z.add_0_r. replace (2 * p) with (p + p) by lia.
    rewrite Z.pow_add_r by lia. now rewrite <- Zmult_mod.
Qed.

Lemma gw_mul_mod (a b : Z) : gw_mul N (a mod N) (b mod N) = (a * b) mod N.
Proof. unfold gw_mul. now rewrite <- Zmult_mod. Qed.

End Residues.

(** ** FastExp and SlowExp *)

Section BinaryExp.

Variable N : Z.
Variable due : Z -> bool.

Lemma FastExp_loop_spec (e x0 len : Z) (n : nat) :
  forall (i : Z) (r : run),
    0 <= e -> 0 <= i -> i + Z.of_nat n = len ->
    run_X r = x0 ^ Z.shiftr e (len - i) mod N ->
    run_X (FastExp_loop N due e x0 len n i r) = x0 ^ e mod N
    /\ run_ops (FastExp_loop N due e x0 len n i r)
       = run_ops r
         ++ map (fun k => gw_square_op (Giant.bit e (len - k - 1))
                            (negb (is_last len k)))
              (seqZ i (Z.of_nat n)).
Proof.
  induction n as [|n IH]; intros i r He Hi Hlen HX.
  - cbn. replace (len - i) with 0 in HX by lia.
    rewrite Z.shiftr_0_r in HX. split; [exact HX|].
    now rewrite app_nil_r.
  - cbn [FastExp_loop].
    rewrite seqZ_cons by lia. cbn [map].
    replace (Z.pred (Z.of_nat (S n))) with (Z.of_nat n) by lia.
    specialize (IH (i + 1)
      (mkRun
         (gw_square N
            (if Giant.bit e (len - i - 1) then Some x0 else None) (run_X r))
         (commit_execute due (i + 1)
            (gw_square N
               (if Giant.bit e (len - i - 1) then Some x0 else None)
               (run_X r)) (run_state r))
         (run_ops r
          ++ [gw_square_op (Giant.bit e (len - i - 1))
                (negb (is_last len i))]))).
    destruct IH as [IHX IHops]; [exact He|lia|lia| |].
    + cbn [run_X]. rewrite HX.
      rewrite gw_square_pow by (apply shiftr_nonneg; exact He).
      unfold Giant.bit.
      replace (len - (i + 1)) with (len - i - 1) by lia.
      rewrite (shiftr_bit e (len - i - 1)) by lia.
      replace (len - i - 1 + 1) with (len - i) by lia.
      reflexivity.
    + split; [exact IHX|].
      rewrite IHops. cbn [run_ops]. rewrite <- app_assoc. reflexivity.
Qed.

Lemma SlowExp_loop_spec (e X0 len : Z) (n : nat) :
  forall (i : Z) (r : run),
    0 <= e -> 0 <= i -> i + Z.of_nat n = len ->
    run_X r = X0 ^ Z.shiftr e (len - i) mod N ->
    run_X (SlowExp_loop N due e (X0 mod N) len n i r) = X0 ^ e mod N
    /\ run_ops (SlowExp_loop N due e (X0 mod N) len n i r)
       = run_ops r
         ++ concat
              (map (fun k =>
                      gw_square_op false
                        (negb (is_last len k) || Giant.bit e (len - k - 1))
                      :: (if Giant.bit e (len - k - 1)
                          then [gw_mul_op (negb (is_last len k))]
                          else []))
                 (seqZ i (Z.of_nat n))).
Proof.
  induction n as [|n IH]; intros i r He Hi Hlen HX.
  - cbn. replace (len - i) with 0 in HX by lia.
    rewrite Z.shiftr_0_r in HX. split; [exact HX|].
    now rewrite app_nil_r.
  - cbn [SlowExp_loop].
    rewrite seqZ_cons by lia. cbn [map concat].
    replace (Z.pred (Z.of_nat (S n))) with (Z.of_nat n) by lia.
    assert (Hp : 0 <= Z.shiftr e (len - i)) by (apply shiftr_nonneg; exact He).
    assert (Hstep : Z.shiftr e (len - (i + 1))
                    = 2 * Z.shiftr e (len - i)
                      + Z.b2z (Z.testbit e (len - i - 1))).
    { rewrite (shiftr_bit e (len - (i + 1))) by lia.
      do 3 f_equal; lia. }
    unfold Giant.bit in *.
    destruct (Z.testbit e (len - i - 1)) eqn:Hb.
    + match goal with
      | |- context [SlowExp_loop _ _ _ _ _ n (i + 1) ?r'] =>
          specialize (IH (i + 1) r')
      end.
      destruct IH as [IHX IHops]; [exact He|lia|lia| |].
      * cbn [run_X]. rewrite HX, Hstep.
        rewrite (gw_square_pow N X0 _ false) by exact Hp.
        rewrite gw_mul_mod. cbn [Z.b2z].
        rewrite Z.add_0_r, (Z.pow_add_r _ _ 1), Z.pow_1_r by lia.
        reflexivity.
      * split; [exact IHX|].
        rewrite IHops. cbn [run_ops]. rewrite <- app_assoc. reflexivity.
    + match goal with
      | |- context [SlowExp_loop _ _ _ _ _ n (i + 1) ?r'] =>
          specialize (IH (i + 1) r')
      end.
      destruct IH as [IHX IHops]; [exact He|lia|lia| |].
      * cbn [run_X]. rewrite HX, Hstep.
        rewrite (gw_square_pow N X0 _ false) by exact Hp.
        reflexivity.
      * split; [exact IHX|].
        rewrite IHops. cbn [run_ops]. rewrite <- app_assoc. reflexivity.
Qed.

End BinaryExp.

(** C1, as amended: for every modulus [N], every base [x0] with
    [x0 <= maxmulbyconst] and every exponent [e >= 1], a fresh [FastExp] has
    [iterations() = e.bitlen() - 1], performs exactly that many squarings,
    the squaring of step [i] fusing the multiplication by [x0] when bit
    [len - i - 1] of [e] is set, and ends with the residue [x0^e mod N]. *)
Theorem FastExp_residue (N : Z) (due : Z -> bool) (maxmulbyconst x0 e : Z) :
  x0 <= maxmulbyconst -> 1 <= e ->
  exists t : FastExp,
    FastExp_init maxmulbyconst None e x0 = Ok t
    /\ FastExp_iterations t = Giant.bitlen e - 1
    /\ run_ops (FastExp_execute N due t)
       = map (fun i => gw_square_op
                         (Giant.bit e (FastExp_iterations t - i - 1))
                         (negb (is_last (FastExp_iterations t) i)))
           (seqZ 0 (FastExp_iterations t))
    /\ Z.of_nat (length (run_ops (FastExp_execute N due t)))
       = Giant.bitlen e - 1
    /\ run_X (FastExp_execute N due t) = x0 ^ e mod N.
Proof.
  intros Hx0 He. unfold FastExp_init.
  destruct (Z.leb_spec x0 maxmulbyconst) as [_|]; [|lia].
  eexists; split; [reflexivity|]. cbn [FastExp_iterations].
  split; [reflexivity|].
  unfold FastExp_execute.
  cbn [FastExp_state FastExp_iterations FastExp_exp FastExp_x0].
  rewrite bitlen_pos by exact He. rewrite Z.sub_0_r.
  pose proof (Z.log2_nonneg e) as Hlog.
  destruct (FastExp_loop_spec N due e x0 (Z.log2 e) (Z.to_nat (Z.log2 e)) 0
              (mkRun (GWNum_of N x0) None [])) as [HX Hops].
  - lia.
  - lia.
  - lia.
  - cbn [run_X]. rewrite Z.sub_0_r, shiftr_log2 by exact He.
    now rewrite Z.pow_1_r.
  - rewrite Hops. cbn [run_ops app]. rewrite Z2Nat.id by exact Hlog.
    split; [reflexivity|]. split; [|exact HX].
    rewrite length_map, length_seqZ. lia.
Qed.

Lemma FastExp_residue_witness :
  exists t : FastExp,
    FastExp_init 255 None 17 3 = Ok t
    /\ FastExp_iterations t = 4
    /\ run_X (FastExp_execute 1009 (fun _ => false) t) = 3 ^ 17 mod 1009.
Proof.
  destruct (FastExp_residue 1009 (fun _ => false) 255 3 17)
    as (t & Hinit & Hit & _ & _ & HX); [lia|lia|].
  exists t. split; [exact Hinit|]. split; [exact Hit|exact HX].
Defined.

(** C1 fails for the exponent 0: [bitlen] is 0, no step is performed and
    the residue stays [x0], while [x0^0 = 1]. *)
Lemma FastExp_exponent_zero :
  exists t : FastExp,
    FastExp_init 255 None 0 3 = Ok t
    /\ FastExp_iterations t = -1
    /\ run_ops (FastExp_execute 1009 (fun _ => false) t) = []
    /\ run_X (FastExp_execute 1009 (fun _ => false) t) = 3
    /\ 3 ^ 0 mod 1009 = 1.
Proof. eexists. repeat split. Qed.

(** C9, as amended: with [N = 1009], [x0 = 3] and [e = 17] the final
    residue of [FastExp] is [3^17 mod 1009 = 129140163 mod 1009 = 271]. *)
Theorem FastExp_scenario (due : Z -> bool) (maxmulbyconst : Z) :
  3 <= maxmulbyconst ->
  exists t : FastExp,
    FastExp_init maxmulbyconst None 17 3 = Ok t
    /\ run_X (FastExp_execute 1009 due t) = 271
    /\ 3 ^ 17 = 129140163
    /\ 129140163 mod 1009 = 271.
Proof.
  intros Hmax.
  destruct (FastExp_residue 1009 due maxmulbyconst 3 17)
    as (t & Hinit & _ & _ & _ & HX); [lia|lia|].
  exists t. split; [exact Hinit|]. split; [|split; reflexivity].
  rewrite HX. reflexivity.
Qed.

Lemma FastExp_scenario_witness :
  exists t : FastExp,
    FastExp_init 255 None 17 3 = Ok t
    /\ run_X (FastExp_execute 1009 (fun _ => false) t) = 271.
Proof.
  destruct (FastExp_scenario (fun _ => false) 255)
    as (t & Hinit & HX & _); [lia|].
  exists t. split; [exact Hinit|exact HX].
Defined.

(** C9 as stated fails: the residue is not 466. *)
Lemma FastExp_scenario_not_466 :
  exists t : FastExp,
    FastExp_init 255 None 17 3 = Ok t
    /\ run_X (FastExp_execute 1009 (fun _ => false) t) <> 466.
Proof. eexists. split; [reflexivity|]. vm_compute. discriminate. Qed.

(** C7, as amended: for every modulus [N], base [X0] and exponent [e >= 1],
    a fresh [SlowExp] runs [e.bitlen() - 1] steps, each a squaring followed,
    when bit [len - i - 1] of [e] is set, by the multiplication
    [X <- X * X0], and ends with the residue [X0^e mod N]. *)
Theorem SlowExp_residue (N : Z) (due : Z -> bool) (X0 e : Z) :
  1 <= e ->
  let t := SlowExp_init None e X0 in
  let len := SlowExp_iterations t in
  len = Giant.bitlen e - 1
  /\ run_ops (SlowExp_execute N due t)
     = concat
         (map (fun i =>
                 gw_square_op false
                   (negb (is_last len i) || Giant.bit e (len - i - 1))
                 :: (if Giant.bit e (len - i - 1)
                     then [gw_mul_op (negb (is_last len i))]
                     else []))
            (seqZ 0 len))
  /\ run_X (SlowExp_execute N due t) = X0 ^ e mod N.
Proof.
  intros He t len. subst t len. unfold SlowExp_init, SlowExp_execute.
  cbn [SlowExp_state SlowExp_iterations SlowExp_exp SlowExp_X0].
  split; [reflexivity|].
  rewrite bitlen_pos by exact He. rewrite Z.sub_0_r.
  pose proof (Z.log2_nonneg e) as Hlog.
  destruct (SlowExp_loop_spec N due e X0 (Z.log2 e) (Z.to_nat (Z.log2 e)) 0
              (mkRun (GWNum_of N X0) None [])) as [HX Hops].
  - lia.
  - lia.
  - lia.
  - cbn [run_X]. rewrite Z.sub_0_r, shiftr_log2 by exact He.
    now rewrite Z.pow_1_r.
  - unfold GWNum_of in *. rewrite Hops. cbn [run_ops app].
    rewrite Z2Nat.id by exact Hlog. split; [reflexivity|exact HX].
Qed.

Lemma SlowExp_residue_witness :
  run_X (SlowExp_execute 1009 (fun _ => false) (SlowExp_init None 23 17))
  = 17 ^ 23 mod 1009.
Proof.
  destruct (SlowExp_residue 1009 (fun _ => false) 17 23) as (_ & _ & HX);
    [lia|exact HX].
Defined.

(** C7 fails for the exponent 0: the residue stays [X0]. *)
Lemma SlowExp_exponent_zero :
  SlowExp_iterations (SlowExp_init None 0 17) = -1
  /\ run_X (SlowExp_execute 1009 (fun _ => false) (SlowExp_init None 0 17))
     = 17
  /\ 17 ^ 0 mod 1009 = 1.
Proof. repeat split. Qed.

(** ** The width of the sliding window *)

Lemma window_loop_spec (W_ max_size len : Z) (fuel : nat) :
  forall W0 : Z,
    W0 <= window_loop fuel W_ max_size len W0 <= W0 + Z.of_nat fuel
    /\ (forall W', W0 <= W' < window_loop fuel W_ max_size len W0 ->
          window_continue W_ max_size len W' = true)
    /\ (window_loop fuel W_ max_size len W0 < W0 + Z.of_nat fuel ->
        window_continue W_ max_size len
          (window_loop fuel W_ max_size len W0) = false).
Proof.
  induction fuel as [|fuel IH]; intros W0.
  - cbn [window_loop]. repeat split; intros; lia.
  - cbn [window_loop].
    destruct (window_continue W_ max_size len W0) eqn:Hc.
    + destruct (IH (W0 + 1)) as (Hrange & Hbelow & Hexit).
      split; [lia|]. split.
      * intros W' HW'. destruct (Z.eq_dec W' W0) as [->|Hne];
          [exact Hc|apply Hbelow; lia].
      * intros Hlt. apply Hexit. lia.
    + split; [lia|]. split; [intros; lia|intros _; exact Hc].
Qed.

Lemma window_continue_true (W_ max_size len W : Z) :
  window_continue W_ max_size len W = true ->
  (W < W_ \/ W_ = -1)
  /\ (Z.shiftl 1 (W + 1) <= max_size \/ max_size = -1)
  /\ window_cost_drops W len = true.
Proof.
  unfold window_continue. intros H.
  apply andb_prop in H as [H Hcost]. apply andb_prop in H as [HW Hmax].
  apply orb_prop in HW. apply orb_prop in Hmax.
  repeat split; [| |exact Hcost].
  - destruct HW as [HW|HW]; [left|right]; lia.
  - destruct Hmax as [Hmax|Hmax]; [left|right]; lia.
Qed.

Lemma window_continue_false (W_ max_size len W : Z) :
  window_continue W_ max_size len W = false ->
  (W_ <> -1 /\ W_ <= W)
  \/ (max_size <> -1 /\ max_size < Z.shiftl 1 (W + 1))
  \/ window_cost_drops W len = false.
Proof.
  unfold window_continue. intros H.
  apply andb_false_elim in H as [H|H]; [|right; right; exact H].
  apply andb_false_elim in H as [H|H]; apply orb_false_elim in H as [H1 H2].
  - left. lia.
  - right; left. lia.
Qed.

Lemma window_width_range (W_ max_size len : Z) :
  2 <= window_width W_ max_size len <= 30.
Proof.
  unfold window_width.
  destruct (window_loop_spec W_ max_size len 28 2) as (H & _). lia.
Qed.

(** C8, as amended: [sliding_window] starts from [W = 2] and increases [W]
    while [W < _W] (or [_W] is unset), [2^(W+1) <= _max_size] (or
    [_max_size] is unset) and the cost [2^(W-1) + len(1 + 1/(W+1))],
    evaluated in double precision, exceeds [2^W + len(1 + 1/(W+2))].  So the
    chosen [W] is at least 2, the cost dropped at every smaller width, [W]
    is the first width at which one of the three conditions fails, and
    [W <= max(2, _W)] when [_W] is set and [2^W <= _max_size] when
    [_max_size] is set and [W > 2]. *)
Theorem window_width_chosen (W_ max_size len : Z) :
  let W := window_width W_ max_size len in
  2 <= W
  /\ (forall W', 2 <= W' < W -> window_cost_drops W' len = true)
  /\ (W < 30 ->
      (W_ <> -1 /\ W_ <= W)
      \/ (max_size <> -1 /\ max_size < 2 ^ (W + 1))
      \/ window_cost_drops W len = false)
  /\ (W_ <> -1 -> W <= Z.max 2 W_)
  /\ (max_size <> -1 -> 2 < W -> 2 ^ W <= max_size).
Proof.
  intros W. subst W. unfold window_width.
  destruct (window_loop_spec W_ max_size len 28 2) as (Hrange & Hbelow & Hexit).
  set (W := window_loop 28 W_ max_size len 2) in *.
  split; [lia|]. split; [|split; [|split]].
  - intros W' HW'.
    now destruct (window_continue_true _ _ _ _ (Hbelow W' HW')) as (_ & _ & H).
  - intros HW. rewrite <- Z.shiftl_1_l.
    apply window_continue_false, Hexit. lia.
  - intros HW_. destruct (Z.eq_dec W 2) as [->|Hne]; [lia|].
    destruct (window_continue_true _ _ _ _ (Hbelow (W - 1) ltac:(lia)))
      as ([H|H] & _); lia.
  - intros Hmax HW.
    destruct (window_continue_true _ _ _ _ (Hbelow (W - 1) ltac:(lia)))
      as (_ & [H|H] & _); [|lia].
    rewrite Z.shiftl_1_l in H.
    replace (W - 1 + 1) with W in H by lia. exact H.
Qed.

(** C8 as stated fails: with [_max_size = 8] and an exponent of 1001 bits
    the chosen width is 3, and [2^(3+1) = 16] exceeds [_max_size]; with
    [_W = 1] the chosen width is 2. *)
Lemma window_width_exceeds_max_size :
  window_width (-1) 8 1000 = 3
  /\ ~ 2 ^ (window_width (-1) 8 1000 + 1) <= 8
  /\ window_width 1 (-1) 1000 = 2
  /\ ~ window_width 1 (-1) 1000 <= 1.
Proof.
  assert (H8 : window_width (-1) 8 1000 = 3) by (vm_compute; reflexivity).
  assert (H1 : window_width 1 (-1) 1000 = 2) by (vm_compute; reflexivity).
  rewrite H8, H1. repeat split; lia.
Qed.

(** With a window of [len = 28160] bits the costs at [W = 9] and [W = 10]
    are equal as rationals ([2^8 * 10 * 11 = 28160]), and the comparison in
    double precision still finds a drop: the loop goes on to [W = 10]. *)
Example window_width_rounding :
  (2 ^ 9 - 2 ^ 8) * (10 * 11) = 28160 * (11 - 10)
  /\ window_cost_drops 9 28160 = true
  /\ window_width (-1) (-1) 28160 = 10.
Proof. repeat split; vm_compute; reflexivity. Qed.

(** ** Sliding-window exponentiation *)

Section SlidingWindow.

Variable N : Z.

Lemma U_at_emplace (U : list Z) (i k : nat) :
  (k < length U)%nat -> U_at (U_emplace U i) k = U_at U k.
Proof.
  intros Hk. unfold U_at, U_emplace.
  destruct (length U <=? i)%nat; [|reflexivity].
  now rewrite lookup_app_l.
Qed.

Lemma length_U_emplace (U : list Z) (i : nat) :
  (i <= length U)%nat -> (i < length (U_emplace U i))%nat.
Proof.
  intros Hi. unfold U_emplace.
  destruct (Nat.leb_spec (length U) i); [rewrite length_app; cbn|]; lia.
Qed.

Lemma U_at_insert_eq (U : list Z) (i : nat) (v : Z) :
  (i < length U)%nat -> U_at (<[i := v]> U) i = v.
Proof. intros Hi. unfold U_at. now rewrite list_lookup_insert_eq. Qed.

Lemma U_at_insert_ne (U : list Z) (i k : nat) (v : Z) :
  i <> k -> U_at (<[i := v]> U) k = U_at U k.
Proof. intros Hi. unfold U_at. now rewrite list_lookup_insert_ne. Qed.

(** The table loop stores the odd powers: [_U[k] = a^(2k+1)]. *)
Lemma table_loop_spec (a : Z) (n : nat) :
  forall (i : nat) (U : list Z),
    (1 <= i <= length U)%nat ->
    (forall k, (k < i)%nat -> U_at U k = a ^ (2 * Z.of_nat k + 1) mod N) ->
    forall k, (k < i + n)%nat ->
      U_at (table_loop N n i (gw_square N None a) U) k
      = a ^ (2 * Z.of_nat k + 1) mod N.
Proof.
  induction n as [|n IH]; intros i U Hi HU k Hk.
  - cbn. apply HU. lia.
  - cbn [table_loop].
    pose proof (length_U_emplace U i ltac:(lia)) as Hlen.
    apply IH.
    + rewrite length_insert. lia.
    + intros k' Hk'. destruct (Nat.eq_dec k' i) as [->|Hne].
      * rewrite U_at_insert_eq by exact Hlen.
        rewrite U_at_emplace by lia. rewrite HU by lia.
        unfold gw_square. rewrite gw_mul_mod.
        replace (2 * Z.of_nat (i - 1) + 1) with (2 * Z.of_nat i - 1) by lia.
        replace (2 * Z.of_nat i + 1) with (1 + 1 + (2 * Z.of_nat i - 1)) by lia.
        rewrite !Z.pow_add_r, Z.pow_1_r by lia. reflexivity.
      * rewrite U_at_insert_ne by lia.
        rewrite U_at_emplace by lia. apply HU. lia.
    + lia.
Qed.

Lemma window_table_spec (W : Z) (U : list Z) (a : Z) :
  1 <= W -> a mod N = a ->
  snd (window_table N W U a) = gw_square N None a
  /\ forall k, 0 <= k < 2 ^ (W - 1) ->
       U_at (fst (window_table N W U a)) (Z.to_nat k) = a ^ (2 * k + 1) mod N.
Proof.
  intros HW Ha. unfold window_table. cbn [fst snd].
  pose proof (length_U_emplace U 0 ltac:(lia)) as Hlen.
  rewrite U_at_insert_eq by exact Hlen.
  split; [reflexivity|]. intros k Hk.
  rewrite Z.shiftl_1_l.
  replace (2 * k + 1) with (2 * Z.of_nat (Z.to_nat k) + 1) by lia.
  apply table_loop_spec.
  - rewrite length_insert. lia.
  - intros k' Hk'. replace k' with 0%nat by lia.
    rewrite U_at_insert_eq by exact Hlen.
    cbn. now rewrite Z.pow_1_r.
  - lia.
Qed.

Variable e : Z.

Lemma window_low_spec (n : nat) :
  forall j : Z,
    Z.testbit e (j + Z.of_nat n) = true ->
    j <= window_low e n j <= j + Z.of_nat n
    /\ Z.testbit e (window_low e n j) = true.
Proof.
  induction n as [|n IH]; intros j Hbit.
  - cbn. rewrite Z.add_0_r in Hbit. split; [lia|exact Hbit].
  - cbn [window_low]. unfold Giant.bit.
    destruct (Z.testbit e j) eqn:Hj; [split; [lia|exact Hj]|].
    destruct (IH (j + 1)) as [Hr Hb].
    + rewrite <- Hbit. f_equal. lia.
    + split; [lia|exact Hb].
Qed.

(** A window of [n] bits below and including bit [i]: [ui] collects the
    bits, the residue is squared [n] times. *)
Lemma window_bits_spec (squaring : bool) (a : Z) (n : nat) :
  forall (i ui X p : Z),
    0 <= i + 1 - Z.of_nat n -> 0 <= p ->
    (squaring = true -> X = a ^ p mod N) ->
    window_bits N squaring e n i ui X
    = (i - Z.of_nat n,
       ui * 2 ^ Z.of_nat n
       + (Z.shiftr e (i + 1 - Z.of_nat n)
          - Z.shiftr e (i + 1) * 2 ^ Z.of_nat n),
       if squaring then a ^ (p * 2 ^ Z.of_nat n) mod N else X).
Proof.
  induction n as [|n IH]; intros i ui X p Hi Hp HX.
  - cbn [window_bits]. change (Z.of_nat 0) with 0.
    rewrite Z.pow_0_r, !Z.sub_0_r, !Z.mul_1_r.
    f_equal; [f_equal; lia|]. destruct squaring; [|reflexivity].
    now apply HX.
  - cbn [window_bits].
    rewrite (IH (i - 1) _ _ (if squaring then 2 * p else p)).
    + rewrite Z.shiftl_mul_pow2, Z.pow_1_r by lia.
      replace (i - 1 + 1) with i by lia.
      rewrite (shiftr_bit e i) by lia.
      replace (Z.of_nat (S n)) with (Z.of_nat n + 1) by lia.
      rewrite Z.pow_add_r, Z.pow_1_r by lia.
      unfold Giant.bit.
      replace (i + 1 - (Z.of_nat n + 1)) with (i - Z.of_nat n) by lia.
      f_equal; [f_equal; [lia|]|].
      * destruct (Z.testbit e i); cbn [Z.b2z]; ring.
      * destruct squaring; [|reflexivity]. f_equal. f_equal. ring.
    + lia.
    + destruct squaring; lia.
    + intros ->. rewrite HX, (gw_square_pow N a p false) by easy.
      cbn [Z.b2z]. now rewrite Z.add_0_r.
Qed.

Variable a : Z.
Variable W : Z.
Variable U : list Z.

Hypothesis e_pos : 1 <= e.
Hypothesis W_pos : 1 <= W.
Hypothesis U_powers :
  forall k, 0 <= k < 2 ^ (W - 1) ->
    U_at U (Z.to_nat k) = a ^ (2 * k + 1) mod N.

(** The bits of [e] taken by a window from bit [i] down to a set bit [j]
    form an odd number below [2^W]. *)
Lemma window_value (i j : Z) :
  0 <= j <= i -> i - j + 1 <= W -> Z.testbit e j = true ->
  let m := i - j + 1 in
  let ui := Z.shiftr e j - Z.shiftr e (i + 1) * 2 ^ m in
  0 <= ui / 2 < 2 ^ (W - 1) /\ 2 * (ui / 2) + 1 = ui.
Proof.
  intros Hj HW Hbit m ui. subst m ui.
  set (m := i - j + 1). assert (Hm : 1 <= m) by lia.
  assert (Hshift : Z.shiftr e (i + 1) = Z.shiftr e j / 2 ^ m).
  { rewrite <- Z.shiftr_div_pow2 by lia.
    rewrite Z.shiftr_shiftr by lia. f_equal. lia. }
  assert (Hpow : 0 < 2 ^ m) by (apply Z.pow_pos_nonneg; lia).
  assert (Hmod : Z.shiftr e j - Z.shiftr e (i + 1) * 2 ^ m
                 = Z.shiftr e j mod 2 ^ m).
  { rewrite Hshift. rewrite (Z.mod_eq _ (2 ^ m)) by lia. lia. }
  rewrite Hmod.
  pose proof (Z.mod_pos_bound (Z.shiftr e j) (2 ^ m) Hpow) as Hbound.
  assert (HmW : 2 ^ m <= 2 ^ W) by (apply Z.pow_le_mono_r; lia).
  assert (HW2 : 2 ^ W = 2 * 2 ^ (W - 1)).
  { replace W with (1 + (W - 1)) at 1 by lia.
    rewrite Z.pow_add_r, Z.pow_1_r by lia. reflexivity. }
  assert (Hodd : (Z.shiftr e j mod 2 ^ m) mod 2 = 1).
  { rewrite Z.mod_mod_divide.
    - rewrite Z.testbit_odd in Hbit. rewrite Zmod_odd, Hbit. reflexivity.
    - exists (2 ^ (m - 1)). replace m with (m - 1 + 1) at 1 by lia.
      rewrite Z.pow_add_r, Z.pow_1_r by lia. reflexivity. }
  pose proof (Z.div_mod (Z.shiftr e j mod 2 ^ m) 2 ltac:(lia)) as Hdm.
  split; [|lia].
  split; [apply Z.div_pos; lia|].
  apply Z.div_lt_upper_bound; lia.
Qed.

Lemma window_walk_spec (fuel : nat) :
  forall i X : Z,
    -1 <= i <= Z.log2 e -> i + 1 <= Z.of_nat fuel ->
    (i < Z.log2 e -> X = a ^ Z.shiftr e (i + 1) mod N) ->
    window_walk N fuel e (Z.log2 e) W U i X = a ^ e mod N.
Proof.
  pose proof (Z.log2_nonneg e) as Hlog.
  induction fuel as [|fuel IH]; intros i X Hi Hfuel HX.
  - cbn. rewrite HX by lia. replace (i + 1) with 0 by lia.
    now rewrite Z.shiftr_0_r.
  - cbn [window_walk].
    destruct (Z.ltb_spec i 0) as [Hneg|Hnonneg].
    { rewrite HX by lia. replace (i + 1) with 0 by lia.
      now rewrite Z.shiftr_0_r. }
    unfold Giant.bit at 1.
    destruct (Z.testbit e i) eqn:Hbit; cbn [negb].
    + set (j0 := if i - W + 1 <? 0 then 0 else i - W + 1).
      assert (Hj0 : 0 <= j0 <= i /\ i - j0 + 1 <= W).
      { subst j0. destruct (Z.ltb_spec (i - W + 1) 0); lia. }
      destruct (window_low_spec (Z.to_nat (i - j0)) j0) as [Hj Hjbit].
      { rewrite <- Hbit. f_equal. lia. }
      set (j := window_low e (Z.to_nat (i - j0)) j0) in *.
      destruct (window_value i j ltac:(lia) ltac:(lia) Hjbit) as [Hrange Hodd].
      assert (Hn : Z.of_nat (Z.to_nat (i - j + 1)) = i - j + 1) by lia.
      assert (Hj' : i + 1 - Z.of_nat (Z.to_nat (i - j + 1)) = j) by lia.
      set (ui := Z.shiftr e j - Z.shiftr e (i + 1) * 2 ^ (i - j + 1)) in *.
      assert (HU : U_at U (Z.to_nat (Z.quot ui 2)) = a ^ ui mod N).
      { rewrite Z.quot_div_nonneg by lia.
        rewrite U_powers by exact Hrange. now rewrite Hodd. }
      destruct (Z.eqb_spec i (Z.log2 e)) as [Htop|Hlow].
      * rewrite (window_bits_spec false a _ i 0 X 0); [|lia|lia|discriminate].
        rewrite Hj', Hn, Z.mul_0_l, Z.add_0_l. fold ui. rewrite HU.
        apply IH; [lia|lia|]. intros _.
        replace (i - (i - j + 1) + 1) with j by lia.
        subst ui. rewrite Htop, (Z.shiftr_eq_0 e (Z.log2 e + 1)) by lia.
        now rewrite Z.mul_0_l, Z.sub_0_r.
      * assert (Hp : 0 <= Z.shiftr e (i + 1)) by (apply shiftr_nonneg; lia).
        rewrite (window_bits_spec true a _ i 0 X (Z.shiftr e (i + 1)));
          [|lia|exact Hp|intros _; apply HX; lia].
        rewrite Hj', Hn, Z.mul_0_l, Z.add_0_l. fold ui. rewrite HU.
        apply IH; [lia|lia|]. intros _.
        replace (i - (i - j + 1) + 1) with j by lia.
        rewrite gw_mul_mod, <- Z.pow_add_r.
        -- f_equal. f_equal. subst ui. lia.
        -- lia.
        -- apply Z.mul_nonneg_nonneg; [exact Hp|]. apply Z.pow_nonneg. lia.
    + assert (Hlt : i < Z.log2 e).
      { destruct (Z.eq_dec i (Z.log2 e)) as [->|]; [|lia].
        rewrite Z.bit_log2 in Hbit by lia. discriminate. }
      apply IH; [lia|lia|]. intros _.
      rewrite HX by exact Hlt.
      rewrite (gw_square_pow N a _ false) by (apply shiftr_nonneg; lia).
      replace (i - 1 + 1) with i by lia.
      rewrite (shiftr_bit e i) by lia. rewrite Hbit. reflexivity.
Qed.

End SlidingWindow.

(** [sliding_window(exp)] raises the residue to the power [exp]. *)
Lemma sliding_window_spec (N W_ max_size e : Z) (U : list Z) (X : Z) :
  1 <= e -> X mod N = X ->
  snd (sliding_window N W_ max_size e U X) = X ^ e mod N.
Proof.
  intros He HX. unfold sliding_window.
  rewrite bitlen_pos by exact He.
  pose proof (window_width_range W_ max_size (Z.log2 e)) as HW.
  pose proof (Z.log2_nonneg e) as Hlog.
  set (W := window_width W_ max_size (Z.log2 e)) in *.
  destruct (window_table_spec N W U X ltac:(lia) HX) as [HX2 HU].
  destruct (window_table N W U X) as [U' X2]. cbn [fst snd] in *.
  apply window_walk_spec; [exact He|lia|exact HU|lia|lia|lia].
Qed.

(** ** MultipointExp *)

Lemma points_after_sorted (i : Z) (points : list Z) :
  Sorted Z.lt points -> Sorted Z.lt (i :: points_after i points).
Proof.
  induction points as [|p rest IH]; intros Hs; cbn [points_after].
  - repeat constructor.
  - destruct (Z.leb_spec p i) as [Hle|Hlt].
    + apply IH. now inversion Hs.
    + constructor; [exact Hs|]. constructor. exact Hlt.
Qed.

Lemma points_after_last (i n : Z) (points : list Z) :
  last points = Some n ->
  (points_after i points = [] /\ n <= i)
  \/ last (points_after i points) = Some n.
Proof.
  induction points as [|p rest IH]; intros Hlast; [discriminate|].
  cbn [points_after].
  destruct (Z.leb_spec p i) as [Hle|Hlt]; [|right; exact Hlast].
  destruct rest as [|q rest'].
  - left. cbn in Hlast. injection Hlast as <-. split; [reflexivity|exact Hle].
  - apply IH. rewrite last_cons_cons in Hlast. exact Hlast.
Qed.

Section Multipoint.

Variable N : Z.
Variable due : Z -> bool.

Lemma squarings_spec (a : Z) (n : nat) :
  forall (i X p : Z) (st : option State),
    0 <= p -> X = a ^ p mod N ->
    (forall s, st = Some s -> iteration s <= i) ->
    exists st' : option State,
      squarings N due n i X st
      = (i + Z.of_nat n, a ^ (p * 2 ^ Z.of_nat n) mod N, st')
      /\ (forall s, st' = Some s ->
            iteration s <= i + Z.of_nat n
            /\ ((0 < n)%nat -> iteration s = i + Z.of_nat n ->
                State_X s = a ^ (p * 2 ^ Z.of_nat n) mod N)).
Proof.
  induction n as [|n IH]; intros i X p st Hp HX Hst.
  - exists st. cbn [squarings]. change (Z.of_nat 0) with 0.
    rewrite Z.add_0_r, Z.pow_0_r, Z.mul_1_r, <- HX.
    split; [reflexivity|]. intros s Hs. split; [now apply Hst|lia].
  - cbn [squarings].
    destruct (IH (i + 1) (gw_square N None X) (2 * p)
                (commit_execute due (i + 1) (gw_square N None X) st))
      as (st' & Heq & Hst').
    + lia.
    + rewrite HX, (gw_square_pow N a p false) by exact Hp.
      cbn [Z.b2z]. now rewrite Z.add_0_r.
    + intros s. unfold commit_execute. destruct (due (i + 1)).
      * intros [= <-]. cbn. lia.
      * intros Hs. apply Hst in Hs. lia.
    + assert (Hpow : 2 * p * 2 ^ Z.of_nat n = p * 2 ^ Z.of_nat (S n)).
      { replace (Z.of_nat (S n)) with (Z.of_nat n + 1) by lia.
        rewrite Z.pow_add_r, Z.pow_1_r by lia. ring. }
      exists st'. rewrite Heq, Hpow.
      replace (i + 1 + Z.of_nat n) with (i + Z.of_nat (S n)) by lia.
      split; [reflexivity|]. intros s Hs.
      destruct (Hst' s Hs) as [Hle Hx].
      replace (i + 1 + Z.of_nat n) with (i + Z.of_nat (S n)) in * by lia.
      split; [exact Hle|]. intros _ Hit.
      destruct n as [|n'].
      * (* the last squaring: the state is the one just committed *)
        cbn [squarings] in Heq. injection Heq as HX' <-.
        unfold commit_execute in Hs. destruct (due (i + 1)).
        -- injection Hs as <-. cbn [State_X]. rewrite <- Hpow. exact HX'.
        -- apply Hst in Hs. lia.
      * rewrite <- Hpow. apply Hx; lia.
Qed.

Variable t : MultipointExp.
Variable A i0 : Z.

Hypothesis b_pos : 1 <= _b t.

(** One turn of the loop over [next_point]: from iteration [i] to the
    point [p], the residue is raised to [b^(p - i)]. *)
Lemma MultipointExp_point_spec (p : Z) (r : mp_run) :
  mp_i r < p -> i0 <= mp_i r ->
  mp_X r = A ^ (_b t ^ (mp_i r - i0)) mod N ->
  (mp_last_power r = -1 \/ mp_exp r = _b t ^ mp_last_power r) ->
  (forall s, mp_state r = Some s -> iteration s <= mp_i r) ->
  let r' := MultipointExp_point N due t p r in
  mp_i r' = p
  /\ mp_X r' = A ^ (_b t ^ (p - i0)) mod N
  /\ (mp_last_power r' = -1 \/ mp_exp r' = _b t ^ mp_last_power r')
  /\ mp_state r' = Some (mkState p (mp_X r'))
  /\ mp_called r'
     = mp_called r ++ (if _on_point t then [mkState p (mp_X r')] else []).
Proof.
  intros Hp Hi0 HX Hcache Hst r'. subst r'. unfold MultipointExp_point.
  assert (Hpow : _b t ^ (mp_i r - i0) * _b t ^ (p - mp_i r) = _b t ^ (p - i0)).
  { rewrite <- Z.pow_add_r by lia. f_equal. lia. }
  assert (Hbpos : 0 <= _b t ^ (mp_i r - i0)) by (apply Z.pow_nonneg; lia).
  destruct (Z.eqb_spec (_b t) 2) as [Hb2|Hb2].
  - destruct (squarings_spec A (Z.to_nat (p - mp_i r)) (mp_i r) (mp_X r)
                (_b t ^ (mp_i r - i0)) (mp_state r) Hbpos HX Hst)
      as (st' & Heq & Hst').
    rewrite Heq. cbn [mp_i mp_X mp_U mp_state mp_last_power mp_exp mp_called].
    rewrite Z2Nat.id in * by lia.
    replace (mp_i r + (p - mp_i r)) with p in * by lia.
    assert (H2 : 2 ^ (p - mp_i r) = _b t ^ (p - mp_i r)) by now rewrite Hb2.
    rewrite H2, Hpow in *. clear H2.
    split; [reflexivity|]. split; [reflexivity|]. split; [exact Hcache|].
    split; [|destruct (_on_point t); [reflexivity|now rewrite app_nil_r]].
    unfold state_at. destruct st' as [[it x]|]; [|reflexivity].
    destruct (Z.eqb_spec (iteration (mkState it x)) p) as [Hit|Hit];
      [|reflexivity].
    destruct (Hst' _ eq_refl) as [_ Hx]. cbn in Hit, Hx.
    rewrite Hx by lia. now rewrite Hit.
  - set (cache := if negb (mp_last_power r =? p - mp_i r)
                  then (p - mp_i r, Giant.power (_b t) (p - mp_i r))
                  else (mp_last_power r, mp_exp r)).
    assert (Hc : cache = (p - mp_i r, _b t ^ (p - mp_i r))).
    { subst cache. unfold Giant.power.
      destruct (Z.eqb_spec (mp_last_power r) (p - mp_i r)) as [Heq|Hne];
        [|reflexivity].
      cbn [negb]. destruct Hcache as [Hc|Hc]; [lia|].
      now rewrite Hc, Heq. }
    rewrite Hc.
    assert (He : 1 <= _b t ^ (p - mp_i r)).
    { assert (0 < _b t ^ (p - mp_i r)) by (apply Z.pow_pos_nonneg; lia).
      lia. }
    pose proof (sliding_window_spec N (_W t) (_max_size t) _ (mp_U r) (mp_X r)
                  He) as Hsw.
    destruct (sliding_window N (_W t) (_max_size t) (_b t ^ (p - mp_i r))
                (mp_U r) (mp_X r)) as [U' X'].
    cbn [snd] in Hsw.
    cbn [mp_i mp_X mp_U mp_state mp_last_power mp_exp mp_called].
    rewrite Hsw by (rewrite HX; apply Zmod_mod).
    rewrite HX, pow_mod_base, <- Z.pow_mul_r, Hpow by (apply Z.pow_nonneg; lia).
    split; [reflexivity|]. split; [reflexivity|]. split; [now right|].
    split; [|destruct (_on_point t); [reflexivity|now rewrite app_nil_r]].
    unfold state_at. destruct (mp_state r) as [s|] eqn:Hs; [|reflexivity].
    specialize (Hst s eq_refl).
    destruct (Z.eqb_spec (iteration s) p); [lia|reflexivity].
Qed.

(** The loop over the points that remain. *)
Lemma MultipointExp_points_spec (rest : list Z) :
  forall r : mp_run,
    Sorted Z.lt (mp_i r :: rest) -> i0 <= mp_i r ->
    mp_X r = A ^ (_b t ^ (mp_i r - i0)) mod N ->
    (mp_last_power r = -1 \/ mp_exp r = _b t ^ mp_last_power r) ->
    (forall s, mp_state r = Some s -> iteration s <= mp_i r) ->
    let r' := foldl (fun r p => MultipointExp_point N due t p r) r rest in
    mp_i r' = default (mp_i r) (last rest)
    /\ mp_X r' = A ^ (_b t ^ (mp_i r' - i0)) mod N
    /\ (rest <> [] -> mp_state r' = Some (mkState (mp_i r') (mp_X r')))
    /\ mp_called r'
       = mp_called r
         ++ (if _on_point t
             then map (fun p => mkState p (A ^ (_b t ^ (p - i0)) mod N)) rest
             else []).
Proof.
  induction rest as [|p rest IH]; intros r Hs Hi0 HX Hcache Hst.
  - cbn. repeat split; [exact HX|congruence|].
    destruct (_on_point t); now rewrite app_nil_r.
  - cbn [foldl].
    apply Sorted_inv in Hs as [Hs Hhd]. apply HdRel_inv in Hhd.
    destruct (MultipointExp_point_spec p r Hhd Hi0 HX Hcache Hst)
      as (Hi & HX' & Hcache' & Hst' & Hcalled).
    set (r1 := MultipointExp_point N due t p r) in *.
    destruct (IH r1) as (IHi & IHX & IHst & IHcalled).
    + now rewrite Hi.
    + lia.
    + now rewrite Hi.
    + exact Hcache'.
    + intros s. rewrite Hst'. intros [= <-]. cbn [iteration]. lia.
    + split; [|split; [exact IHX|split]].
      * rewrite IHi, Hi. destruct rest as [|q rest']; [reflexivity|].
        rewrite !last_cons. now destruct (last rest').
      * intros _. destruct rest as [|q rest']; [|now apply IHst].
        cbn [foldl]. rewrite Hi. exact Hst'.
      * rewrite IHcalled, Hcalled, <- app_assoc. f_equal.
        destruct (_on_point t); [|reflexivity].
        cbn [map app]. now rewrite HX'.
Qed.

End Multipoint.

(** A run of [MultipointExp] from the saved state [State{0, X}]. *)
Lemma MultipointExp_run (N : Z) (due : Z -> bool) (b W_ max_size : Z)
    (on_point : bool) (U : list Z) (X n : Z) (points : list Z) :
  1 <= b -> Sorted Z.lt points -> Forall (Z.le 0) points ->
  last points = Some n ->
  exists r : mp_run,
    MultipointExp_execute N due
      (MultipointExp_init
         (mkMultipointExp b points W_ max_size on_point None U)
         (Some (mkState 0 X)))
    = Ok r
    /\ mp_i r = n
    /\ mp_X r = X ^ (b ^ n) mod N
    /\ (0 < n -> mp_state r = Some (mkState n (X ^ (b ^ n) mod N)))
    /\ mp_called r
       = if on_point
         then map (fun p => mkState p (X ^ (b ^ p) mod N))
                (points_after 0 points)
         else [].
Proof.
  intros Hb Hsorted Hnonneg Hlast.
  unfold MultipointExp_init, MultipointExp_init_state, MultipointExp_execute.
  cbn [_state _b _points _W _max_size _on_point _U iteration State_X].
  eexists. split; [reflexivity|].
  set (t := mkMultipointExp b points W_ max_size on_point
              (Some (mkState 0 X)) U).
  set (r0 := mkMpRun 0 (GWNum_of N X) U (Some (mkState 0 X)) (-1) 0 []).
  destruct (MultipointExp_points_spec N due t X 0 Hb (points_after 0 points) r0)
    as (Hi & HX & Hst & Hcalled).
  - apply points_after_sorted. exact Hsorted.
  - cbn. lia.
  - cbn. now rewrite Z.pow_1_r.
  - left. reflexivity.
  - intros s [= <-]. cbn. lia.
  - cbn [mp_i mp_called _b _on_point t r0 app] in *.
    assert (Hn : default 0 (last (points_after 0 points)) = n).
    { destruct (points_after_last 0 n points Hlast) as [[Hnil Hle]|Hl].
      - rewrite Hnil. cbn.
        apply last_Some_elem_of in Hlast.
        rewrite Forall_forall in Hnonneg. specialize (Hnonneg n Hlast). lia.
      - now rewrite Hl. }
    rewrite Hn in Hi. rewrite Hi, Z.sub_0_r in HX.
    split; [exact Hi|]. split; [exact HX|]. split.
    + intros Hpos. rewrite Hst, Hi, HX; [reflexivity|].
      intros Hnil. rewrite Hnil in Hn. cbn in Hn. lia.
    + rewrite Hcalled. destruct on_point; [|reflexivity].
      apply map_ext. intros p. now rewrite Z.sub_0_r.
Qed.

(** C2: for every base [b >= 1], every strictly increasing schedule of
    non-negative points, every starting residue [X] and modulus [N],
    [MultipointExp] ends with the residue [X^(b^points.last()) mod N]; the
    residue held at each point [p] reached is [X^(b^p) mod N]; and a second
    schedule with the same last point ends with the same residue. *)
Theorem MultipointExp_residue (N : Z) (due : Z -> bool) (b W_ max_size : Z)
    (on_point : bool) (U : list Z) (X n : Z) (points points' : list Z) :
  1 <= b ->
  Sorted Z.lt points -> Forall (Z.le 0) points -> last points = Some n ->
  Sorted Z.lt points' -> Forall (Z.le 0) points' -> last points' = Some n ->
  exists r r' : mp_run,
    MultipointExp_execute N due
      (MultipointExp_init
         (mkMultipointExp b points W_ max_size on_point None U)
         (Some (mkState 0 X)))
    = Ok r
    /\ MultipointExp_execute N due
         (MultipointExp_init
            (mkMultipointExp b points' W_ max_size on_point None U)
            (Some (mkState 0 X)))
       = Ok r'
    /\ mp_X r = X ^ (b ^ n) mod N
    /\ mp_X r' = mp_X r
    /\ (on_point = true ->
        mp_called r
        = map (fun p => mkState p (X ^ (b ^ p) mod N))
            (points_after 0 points)).
Proof.
  intros Hb Hs Hnn Hl Hs' Hnn' Hl'.
  destruct (MultipointExp_run N due b W_ max_size on_point U X n points
              Hb Hs Hnn Hl) as (r & Hr & _ & HX & _ & Hcalled).
  destruct (MultipointExp_run N due b W_ max_size on_point U X n points'
              Hb Hs' Hnn' Hl') as (r' & Hr' & _ & HX' & _).
  exists r, r'. split; [exact Hr|]. split; [exact Hr'|].
  split; [exact HX|]. split; [now rewrite HX, HX'|].
  intros ->. exact Hcalled.
Qed.

Lemma MultipointExp_residue_witness :
  exists r r' : mp_run,
    MultipointExp_execute 1009 (fun _ => false)
      (MultipointExp_init (mkMultipointExp 3 [1; 2] (-1) (-1) true None [])
         (Some (mkState 0 2)))
    = Ok r
    /\ MultipointExp_execute 1009 (fun _ => false)
         (MultipointExp_init (mkMultipointExp 3 [2] (-1) (-1) true None [])
            (Some (mkState 0 2)))
       = Ok r'
    /\ mp_X r = 2 ^ (3 ^ 2) mod 1009
    /\ mp_X r' = mp_X r.
Proof.
  destruct (MultipointExp_residue 1009 (fun _ => false) 3 (-1) (-1) true []
              2 2 [1; 2] [2])
    as (r & r' & Hr & Hr' & HX & HX' & _).
  - lia.
  - repeat constructor.
  - repeat constructor; lia.
  - reflexivity.
  - repeat constructor.
  - repeat constructor; lia.
  - reflexivity.
  - exists r, r'. repeat split; assumption.
Defined.

(** ** Gerbicz parameters *)

Lemma int_wrap_small (z : Z) :
  -2147483648 <= z < 2147483648 -> int_wrap z = z.
Proof.
  intros Hz. unfold int_wrap. rewrite Z.mod_small by lia. lia.
Qed.

Lemma Gerbicz_params_max_sqrt (n i : Z) :
  1 <= n <= Gerbicz_params_max -> 1 <= i -> (i - 1) * (i - 1) < 2 * n ->
  i <= 46340.
Proof.
  unfold Gerbicz_params_max. intros Hn Hi Hsq.
  destruct (Z.le_gt_cases i 46340) as [|Hgt]; [assumption|exfalso].
  assert (46340 * 46340 <= (i - 1) * (i - 1))
    by (apply Z.mul_le_mono_nonneg; lia).
  lia.
Qed.

(** The scan for an [iters] up to [Gerbicz_params_max]: no product wraps,
    the result is the first maximiser of [n - n mod j], and the scan needs
    [sqrt(2n) + 2 - i] evaluations of its condition at most. *)
Lemma Gerbicz_params_loop_spec (n L0 : Z) (fuel : nat) :
  1 <= n <= Gerbicz_params_max -> 1 <= L0 ->
  forall i L L2 : Z,
    L0 <= L < i -> (i - 1) * (i - 1) < 2 * n ->
    L2 = n - n mod L ->
    (forall j, L0 <= j < i -> n - n mod j <= L2) ->
    (forall j, L0 <= j < L -> n - n mod j < L2) ->
    (L = L0 \/ L * L < 2 * n) ->
    match Gerbicz_params_loop fuel n i L L2 with
    | Some res =>
        L0 <= fst res
        /\ snd res = n - n mod fst res
        /\ (fst res = L0 \/ fst res * fst res < 2 * n)
        /\ (forall j, L0 <= j -> j = L0 \/ j * j < 2 * n ->
              n - n mod j <= snd res)
        /\ (forall j, L0 <= j < fst res -> n - n mod j < snd res)
    | None => i + Z.of_nat fuel <= Z.sqrt (2 * n) + 1
    end.
Proof.
  intros Hn HL0.
  induction fuel as [|fuel IH];
    intros i L L2 HL Hprev HL2 Hmax Hfirst Hcand.
  - cbn [Gerbicz_params_loop].
    assert (i - 1 <= Z.sqrt (2 * n)) by (apply Z.sqrt_le_square; lia).
    lia.
  - cbn [Gerbicz_params_loop].
    pose proof (Gerbicz_params_max_sqrt n i Hn ltac:(lia) Hprev) as Hi.
    assert (Hii : 0 <= i * i <= 46340 * 46340)
      by (split; [apply Z.square_nonneg|apply Z.mul_le_mono_nonneg; lia]).
    rewrite (int_wrap_small (i * i)) by lia.
    rewrite (int_wrap_small (2 * n))
      by (unfold Gerbicz_params_max in Hn; lia).
    rewrite (int_wrap_small (i + 1)) by lia.
    destruct (Z.ltb_spec (i * i) (2 * n)) as [Hlt|Hge].
    + destruct (Z.eqb_spec i 0) as [|_]; [lia|].
      rewrite Z.rem_mod_nonneg by lia.
      assert (Hnext : (i + 1 - 1) * (i + 1 - 1) < 2 * n)
        by (replace (i + 1 - 1) with i by lia; exact Hlt).
      assert (Hfuel : forall r : option (Z * Z),
                 match r with
                 | Some _ => True
                 | None => i + 1 + Z.of_nat fuel <= Z.sqrt (2 * n) + 1
                 end ->
                 match r with
                 | Some _ => True
                 | None => i + Z.of_nat (S fuel) <= Z.sqrt (2 * n) + 1
                 end)
        by (intros [res|]; [trivial|lia]).
      destruct (Z.ltb_spec L2 (n - n mod i)) as [Hup|Hkeep].
      * specialize (IH (i + 1) i (n - n mod i)).
        destruct (Gerbicz_params_loop fuel n (i + 1) i (n - n mod i))
          as [res|].
        -- apply IH; try lia.
           ++ intros j Hj. destruct (Z.eq_dec j i) as [->|Hne]; [lia|].
              specialize (Hmax j ltac:(lia)). lia.
           ++ intros j Hj. specialize (Hmax j ltac:(lia)). lia.
        -- enough (i + 1 + Z.of_nat fuel <= Z.sqrt (2 * n) + 1) by lia.
           apply IH; try lia.
           ++ intros j Hj. destruct (Z.eq_dec j i) as [->|Hne]; [lia|].
              specialize (Hmax j ltac:(lia)). lia.
           ++ intros j Hj. specialize (Hmax j ltac:(lia)). lia.
      * specialize (IH (i + 1) L L2).
        destruct (Gerbicz_params_loop fuel n (i + 1) L L2) as [res|].
        -- apply IH; try lia; try assumption.
           intros j Hj. destruct (Z.eq_dec j i) as [->|Hne]; [lia|].
           apply Hmax. lia.
        -- enough (i + 1 + Z.of_nat fuel <= Z.sqrt (2 * n) + 1) by lia.
           apply IH; try lia; try assumption.
           intros j Hj. destruct (Z.eq_dec j i) as [->|Hne]; [lia|].
           apply Hmax. lia.
    + cbn [fst snd].
      split; [lia|]. split; [exact HL2|]. split; [exact Hcand|].
      split; [|exact Hfirst].
      intros j Hj Hc. destruct (Z.lt_ge_cases j i) as [Hlt|Hge'];
        [apply Hmax; lia|]. nia.
Qed.

(** [Gerbicz_params] for [1 <= n <= Gerbicz_params_max]: what it returns,
    and that it returns once the fuel exceeds [sqrt(2n) - sqrt(n)]. *)
Lemma Gerbicz_params_spec (fuel : nat) (n : Z) :
  1 <= n <= Gerbicz_params_max ->
  match Gerbicz_params fuel n with
  | Some (L, L2) =>
      Z.sqrt n <= L
      /\ L2 = n - n mod L
      /\ (L = Z.sqrt n \/ L * L < 2 * n)
      /\ (forall j, Z.sqrt n <= j -> j = Z.sqrt n \/ j * j < 2 * n ->
            n - n mod j <= L2)
      /\ (forall j, Z.sqrt n <= j < L -> n - n mod j < L2)
  | None => Z.of_nat fuel <= Z.sqrt (2 * n) - Z.sqrt n
  end.
Proof.
  intros Hn. unfold Gerbicz_params.
  assert (HL0 : 1 <= Z.sqrt n).
  { assert (0 < Z.sqrt n) by (apply Z.sqrt_pos; lia). lia. }
  pose proof (Z.sqrt_spec n ltac:(lia)) as Hsqrt. cbv zeta in Hsqrt.
  destruct (Z.eqb_spec (Z.sqrt n) 0) as [|_]; [lia|].
  rewrite Z.rem_mod_nonneg by lia.
  assert (Hs : Z.sqrt n + 1 <= 46340).
  { apply (Gerbicz_params_max_sqrt n); [exact Hn|lia|].
    replace (Z.sqrt n + 1 - 1) with (Z.sqrt n) by lia. lia. }
  rewrite (int_wrap_small (Z.sqrt n + 1)) by lia.
  assert (Hprev : (Z.sqrt n + 1 - 1) * (Z.sqrt n + 1 - 1) < 2 * n)
    by (replace (Z.sqrt n + 1 - 1) with (Z.sqrt n) by lia; lia).
  assert (Hmax : forall j, Z.sqrt n <= j < Z.sqrt n + 1 ->
                   n - n mod j <= n - n mod Z.sqrt n)
    by (intros j Hj; replace j with (Z.sqrt n) by lia; lia).
  assert (Hfirst : forall j, Z.sqrt n <= j < Z.sqrt n ->
                     n - n mod j < n - n mod Z.sqrt n)
    by (intros j Hj; lia).
  pose proof (Gerbicz_params_loop_spec n (Z.sqrt n) fuel Hn HL0
                (Z.sqrt n + 1) (Z.sqrt n) (n - n mod Z.sqrt n)
                ltac:(lia) Hprev eq_refl Hmax Hfirst (or_introl eq_refl))
    as H.
  destruct (Gerbicz_params_loop fuel n (Z.sqrt n + 1) (Z.sqrt n)
              (n - n mod Z.sqrt n)) as [[L L2]|].
  - cbn [fst snd] in H. exact H.
  - lia.
Qed.

(** C4: for every [n] with [1 <= n <= 1073697800], given as many turns of
    its loop as [sqrt(2n) - sqrt(n) + 1], [Gerbicz_params] returns
    [L >= 1] and [L2] with [L2] a multiple of [L], [L2 <= n] and
    [L2 >= n - L].  It starts from [L = floor(sqrt n)] and
    [L2 = n - n mod L] and scans [i] upward while [i*i < 2n], replacing
    [(L, L2)] by [(i, n - n mod i)] whenever that increases [L2]: [L2] is
    the largest [n - n mod j] over [j = floor(sqrt n)] and the [j] above it
    with [j*j < 2n], and [L] is the first such [j] that reaches it. *)
Theorem Gerbicz_params_sizing (fuel : nat) (n : Z) :
  1 <= n <= Gerbicz_params_max ->
  Z.sqrt (2 * n) - Z.sqrt n < Z.of_nat fuel ->
  exists L L2 : Z,
    Gerbicz_params fuel n = Some (L, L2)
    /\ 1 <= L
    /\ (exists m, L2 = m * L)
    /\ L2 <= n
    /\ n - L <= L2
    /\ L2 = n - n mod L
    /\ (L = Z.sqrt n \/ (Z.sqrt n < L /\ L * L < 2 * n))
    /\ (forall j, Z.sqrt n <= j -> j = Z.sqrt n \/ j * j < 2 * n ->
          n - n mod j <= L2)
    /\ (forall j, Z.sqrt n <= j < L -> n - n mod j < L2).
Proof.
  intros Hn Hfuel.
  pose proof (Gerbicz_params_spec fuel n Hn) as H.
  destruct (Gerbicz_params fuel n) as [[L L2]|]; [|lia].
  destruct H as (HL & HL2 & Hcand & Hmax & Hfirst).
  assert (HL0 : 1 <= Z.sqrt n).
  { assert (0 < Z.sqrt n) by (apply Z.sqrt_pos; lia). lia. }
  pose proof (Z.mod_pos_bound n L ltac:(lia)) as Hmod.
  exists L, L2. split; [reflexivity|].
  split; [lia|]. split.
  { exists (n / L). pose proof (Z.div_mod n L ltac:(lia)). lia. }
  split; [lia|]. split; [lia|]. split; [exact HL2|].
  split; [lia|]. split; [exact Hmax|exact Hfirst].
Qed.

Lemma Gerbicz_params_sizing_witness :
  Gerbicz_params 3 28 = Some (7, 28)
  /\ exists L L2 : Z,
       Gerbicz_params 3 28 = Some (L, L2)
       /\ 1 <= L /\ (exists m, L2 = m * L) /\ L2 <= 28 /\ 28 - L <= L2.
Proof.
  split; [vm_compute; reflexivity|].
  destruct (Gerbicz_params_sizing 3 28) as (L & L2 & H0 & H1 & H2 & H3 & H4 & _).
  - unfold Gerbicz_params_max. lia.
  - vm_compute. reflexivity.
  - exists L, L2. repeat split; assumption.
Defined.

(** The scan on machine integers computes the scan on [int]. *)
Lemma int_wrap_ltb (a b : Z) :
  (int_wrap a <? int_wrap b)
  = ((a + 2147483648) mod 4294967296 <? (b + 2147483648) mod 4294967296).
Proof.
  unfold int_wrap.
  destruct (Z.ltb_spec ((a + 2147483648) mod 4294967296 - 2147483648)
              ((b + 2147483648) mod 4294967296 - 2147483648));
    destruct (Z.ltb_spec ((a + 2147483648) mod 4294967296)
                ((b + 2147483648) mod 4294967296)); lia.
Qed.

Lemma ltb_to_Z (x y : int) :
  (x <? y)%uint63 = (Uint63.to_Z x <? Uint63.to_Z y).
Proof.
  destruct (Uint63.ltbP x y); destruct (Z.ltb_spec (Uint63.to_Z x) (Uint63.to_Z y));
    try reflexivity; lia.
Qed.

Lemma Gerbicz_params_scan_spec (iters : int) :
  0 <= Uint63.to_Z iters < 2147483648 ->
  forall (fuel : nat) (i L L2 : int),
    0 < Uint63.to_Z i -> Uint63.to_Z i + Z.of_nat fuel < 2147483648 ->
    Gerbicz_params_loop fuel (Uint63.to_Z iters) (Uint63.to_Z i)
      (Uint63.to_Z L) (Uint63.to_Z L2)
    = match Gerbicz_params_scan fuel iters i L L2 with
      | Some (L', L2') => Some (Uint63.to_Z L', Uint63.to_Z L2')
      | None => None
      end.
Proof.
  intros Hn.
  assert (HwB : wB = 9223372036854775808) by reflexivity.
  induction fuel as [|fuel IH]; intros i L L2 Hi Hfuel; [reflexivity|].
  cbn [Gerbicz_params_loop Gerbicz_params_scan].
  assert (Hii : 0 < Uint63.to_Z i * Uint63.to_Z i < 4611686018427387904)
    by nia.
  assert (Hrem : 0 <= Uint63.to_Z iters mod Uint63.to_Z i
                 <= Uint63.to_Z iters).
  { pose proof (Z.mod_pos_bound (Uint63.to_Z iters) (Uint63.to_Z i) Hi).
    pose proof (Z.mod_le (Uint63.to_Z iters) (Uint63.to_Z i)
                  ltac:(lia) Hi).
    lia. }
  assert (Hsub : Uint63.to_Z (iters - iters mod i)%uint63
                 = Uint63.to_Z iters - Z.rem (Uint63.to_Z iters)
                                         (Uint63.to_Z i)).
  { rewrite Z.rem_mod_nonneg by lia.
    rewrite Uint63.sub_spec, Uint63.mod_spec, HwB, Z.mod_small; lia. }
  assert (Hnext : Uint63.to_Z (i + 1)%uint63 = Uint63.to_Z i + 1).
  { rewrite Uint63.add_spec. change (Uint63.to_Z 1) with 1.
    rewrite HwB, Z.mod_small; lia. }
  rewrite int_wrap_ltb, ltb_to_Z.
  rewrite !Uint63.mod_spec, !Uint63.add_spec, !Uint63.mul_spec.
  change (Uint63.to_Z 2147483648) with 2147483648.
  change (Uint63.to_Z 4294967296) with 4294967296.
  change (Uint63.to_Z 2) with 2.
  rewrite !HwB.
  rewrite (Z.mod_small (Uint63.to_Z i * Uint63.to_Z i) 9223372036854775808)
    by lia.
  rewrite (Z.mod_small (2 * Uint63.to_Z iters) 9223372036854775808) by lia.
  rewrite (Z.mod_small (Uint63.to_Z i * Uint63.to_Z i + 2147483648)
             9223372036854775808) by lia.
  rewrite (Z.mod_small (2 * Uint63.to_Z iters + 2147483648)
             9223372036854775808) by lia.
  destruct (_ <? _); [|reflexivity].
  destruct (Z.eqb_spec (Uint63.to_Z i) 0) as [|_]; [lia|].
  rewrite (int_wrap_small (Uint63.to_Z i + 1)) by lia.
  rewrite ltb_to_Z, Hsub, <- Hnext.
  destruct (_ <? _).
  - rewrite <- Hsub. apply IH; lia.
  - apply IH; lia.
Qed.

(** C4, beyond [Gerbicz_params_max]: at [n = 1073697801] the scan reaches
    [i = 46341], whose square is no [int]; the wrapped product is negative,
    the scan goes on past [i*i >= 2n] and replaces [L] by 65203, a divisor
    of [n] with [L*L >= 2n]. *)
Example Gerbicz_params_overflow :
  Gerbicz_params (Z.to_nat 256632) 1073697801 = Some (65203, 1073697801)
  /\ Z.sqrt 1073697801 = 32767
  /\ 2 * 1073697801 <= 65203 * 65203
  /\ 2 * 1073697801 <= 46341 * 46341
  /\ int_wrap (46341 * 46341) = -2147479015.
Proof.
  split.
  - unfold Gerbicz_params.
    change (Z.sqrt 1073697801) with 32767.
    change (32767 =? 0) with false. cbv iota zeta.
    change (int_wrap (32767 + 1)) with (Uint63.to_Z 32768%uint63).
    change (1073697801 - Z.rem 1073697801 32767)
      with (Uint63.to_Z 1073676289%uint63).
    change 32767 with (Uint63.to_Z 32767%uint63).
    change 1073697801 with (Uint63.to_Z 1073697801%uint63) at 1.
    rewrite Gerbicz_params_scan_spec.
    + vm_compute. reflexivity.
    + vm_compute. split; [discriminate|reflexivity].
    + reflexivity.
    + vm_compute. reflexivity.
  - split; [reflexivity|]. split; [lia|]. split; [lia|]. reflexivity.
Qed.

(** ** The Gerbicz check *)

Lemma careful_squarings_mod (N : Z) (n : nat) :
  forall X : Z, careful_squarings N n X mod N = X ^ (2 ^ Z.of_nat n) mod N.
Proof.
  induction n as [|n IH]; intros X.
  - cbn [careful_squarings]. change (Z.of_nat 0) with 0.
    now rewrite Z.pow_0_r, Z.pow_1_r.
  - cbn [careful_squarings]. rewrite IH. unfold gw_square.
    rewrite pow_mod_base.
    replace (Z.of_nat (S n)) with (1 + Z.of_nat n) by lia.
    rewrite Z.pow_add_r, Z.pow_1_r by lia.
    rewrite Z.pow_mul_r by (try apply Z.pow_nonneg; lia).
    now rewrite Z.pow_2_r.
Qed.

(** The check as a function of the residues at the end of the block: with
    [D_new = X * D] and [T = R * D^(b^L) - D_new], the block fails when
    [T != 0] or [D_new == 0]. *)
Lemma Gerbicz_check_unfold (N : Z) (t : GerbiczCheckMultipointExp) (L : Z)
    (r : grun) :
  1 <= G_b t -> 0 <= L -> g_D r mod N = g_D r ->
  (g_last_power r = -1 \/ g_exp r = G_b t ^ g_last_power r) ->
  exists (U : list Z) (last_power exp : Z),
    (last_power = -1 \/ exp = G_b t ^ last_power)
    /\ Gerbicz_check N t L r
       = if negb ((g_R r * g_D r ^ (G_b t ^ L) - g_X r * g_D r) mod N =? 0)
            || ((g_X r * g_D r) mod N =? 0)
         then
           TaskRestart
             (mkGrun (g_i r) (g_next_point r) last_power exp (g_X r)
                ((g_X r * g_D r) mod N) (g_R r) U
                (TaskState_at (iteration (g_state_recovery r)))
                (g_state_recovery r) (g_recovery_op r) (g_recovery_op r)
                (g_restart_count r) (g_called r))
         else
           Ok (mkGrun (g_i r)
                 (if g_i r =? point_at (G_points t) (g_next_point r)
                  then g_next_point r + 1 else g_next_point r)
                 last_power exp (g_X r) (g_X r) (g_X r) U
                 (TaskState_at (g_i r)) (mkState (g_i r) (g_X r))
                 (g_restart_op r) (g_restart_op r) 0
                 (if g_i r =? point_at (G_points t) (g_next_point r)
                  then call_on_point (G_on_point t) (g_called r) (g_i r)
                  else g_called r)).
Proof.
  intros Hb HL HD Hcache. unfold Gerbicz_check.
  destruct (Z.eqb_spec (G_b t) 2) as [Hb2|Hb2].
  - exists (g_U r), (g_last_power r), (g_exp r). split; [exact Hcache|].
    assert (HT : gw_sub N (gw_mul N (g_R r)
                             (careful_squarings N (Z.to_nat L) (g_D r)))
                   (gw_mul N (g_X r) (g_D r))
                 = (g_R r * g_D r ^ (G_b t ^ L) - g_X r * g_D r) mod N).
    { unfold gw_sub, gw_mul.
      rewrite (Zminus_mod (g_R r * g_D r ^ _)). f_equal. f_equal.
      rewrite Zmult_mod, careful_squarings_mod, <- Zmult_mod.
      rewrite Z2Nat.id, Hb2 by exact HL. reflexivity. }
    rewrite HT. reflexivity.
  - destruct (power_cache (G_b t) L (g_last_power r) (g_exp r))
      as [last_power exp] eqn:Hpc.
    assert (Hexp : last_power = L /\ exp = G_b t ^ L).
    { unfold power_cache, Giant.power in Hpc.
      destruct (Z.eqb_spec (g_last_power r) L) as [Heq|Hne]; cbn [negb] in Hpc;
        injection Hpc as <- <-; [|split; reflexivity].
      split; [exact Heq|]. destruct Hcache as [Hc|Hc]; [lia|].
      now rewrite Hc, Heq. }
    destruct Hexp as [-> ->].
    assert (He : 1 <= G_b t ^ L).
    { assert (0 < G_b t ^ L) by (apply Z.pow_pos_nonneg; lia). lia. }
    pose proof (sliding_window_spec N (G_W t) (G_max_size t) _ (g_U r) (g_D r)
                  He HD) as Hsw.
    destruct (sliding_window N (G_W t) (G_max_size t) (G_b t ^ L) (g_U r)
                (g_D r)) as [U X1].
    cbn [snd] in Hsw. exists U, L, (G_b t ^ L). split; [now right|].
    assert (HT : gw_sub N (gw_mul N (g_R r) X1) (gw_mul N (g_X r) (g_D r))
                 = (g_R r * g_D r ^ (G_b t ^ L) - g_X r * g_D r) mod N).
    { unfold gw_sub, gw_mul.
      rewrite (Zminus_mod (g_R r * g_D r ^ _)). f_equal. f_equal.
      rewrite Hsw. now rewrite Zmult_mod_idemp_r. }
    rewrite HT. reflexivity.
Qed.

(** C3, as amended: at the end of a block with residues [R], [D] (the check
    accumulator before the last fold) and [X] (the working residue), the
    check computes [D_new = X * D] and the difference
    [T = R * D^(b^L) - D_new] modulo [N]: the accumulator, not [R], is raised
    to [b^L].  The block is verified if and only if [T] is zero and [D_new]
    is nonzero; otherwise the restart exception is raised. *)
Theorem Gerbicz_check_verdict (N : Z) (t : GerbiczCheckMultipointExp)
    (L : Z) (r : grun) :
  1 <= G_b t -> 0 <= L -> g_D r mod N = g_D r ->
  (g_last_power r = -1 \/ g_exp r = G_b t ^ g_last_power r) ->
  let D_new := (g_X r * g_D r) mod N in
  let T := (g_R r * g_D r ^ (G_b t ^ L) - D_new) mod N in
  ((exists r', Gerbicz_check N t L r = Ok r') <-> T = 0 /\ D_new <> 0)
  /\ ((exists r', Gerbicz_check N t L r = TaskRestart r')
      <-> ~ (T = 0 /\ D_new <> 0))
  /\ Gerbicz_check N t L r <> AssertionFailed.
Proof.
  intros Hb HL HD Hcache D_new T.
  destruct (Gerbicz_check_unfold N t L r Hb HL HD Hcache)
    as (U & last_power & exp & _ & Heq).
  assert (HT : T = (g_R r * g_D r ^ (G_b t ^ L) - g_X r * g_D r) mod N).
  { subst T D_new. now rewrite Zminus_mod_idemp_r. }
  rewrite <- HT in Heq. fold D_new in Heq. rewrite Heq.
  destruct (Z.eqb_spec T 0) as [HT0|HT0];
    destruct (Z.eqb_spec D_new 0) as [HD0|HD0]; cbn [negb orb].
  all: split; [split|split; [split|discriminate]].
  all: try (intros [r' Hr']; discriminate).
  all: try (intros; eexists; reflexivity).
  all: try tauto.
Qed.

Lemma Gerbicz_check_verdict_witness :
  exists r' : grun,
    Gerbicz_check 1009
      (mkGerbicz 2 [4] (-1) (-1) true 2 4 (Some (TaskState_at 0))
         (Some (mkState 0 3)) (Some 3) [] 7 9 1 [])
      2
      (mkGrun 4 0 (-1) 0 763 243 3 [] (TaskState_at 0) (mkState 0 3) 7 9 1 [])
    = Ok r'.
Proof.
  apply (Gerbicz_check_verdict 1009
           (mkGerbicz 2 [4] (-1) (-1) true 2 4 (Some (TaskState_at 0))
              (Some (mkState 0 3)) (Some 3) [] 7 9 1 [])
           2
           (mkGrun 4 0 (-1) 0 763 243 3 [] (TaskState_at 0) (mkState 0 3)
              7 9 1 [])).
  - cbn. lia.
  - lia.
  - reflexivity.
  - left. reflexivity.
  - split; [reflexivity|]. cbn. discriminate.
Defined.

(** C3 as stated fails: after the block of [L2 = 4] squarings with [L = 2]
    from [R = 3] modulo 1009, the residues are [X = 763] and [D = 243]; the
    block is verified, [R * D^(2^2) - X * D] is zero, and the difference
    [R^(2^2) * D - X * D] of the claim is not. *)
Lemma Gerbicz_check_not_R_power :
  let t := mkGerbicz 2 [4] (-1) (-1) true 2 4 (Some (TaskState_at 0))
             (Some (mkState 0 3)) (Some 3) [] 7 9 1 [] in
  let r := block_squarings 1009 (fun _ => false) t 2 4 4 0
             (mkGrun 0 0 (-1) 0 3 3 3 [] (TaskState_at 0) (mkState 0 3)
                7 9 1 []) in
  (g_R r, g_D r, g_X r) = (3, 243, 763)
  /\ (exists r', Gerbicz_check 1009 t 2 r = Ok r')
  /\ (g_R r * g_D r ^ (2 ^ 2) - g_X r * g_D r) mod 1009 = 0
  /\ (g_R r ^ (2 ^ 2) * g_D r - g_X r * g_D r) mod 1009 <> 0.
Proof.
  cbv zeta. split; [reflexivity|]. split; [eexists; reflexivity|].
  split; [reflexivity|]. vm_compute. discriminate.
Qed.

(** ** Restart after a failed check *)

Lemma block_squarings_keeps (N : Z) (due : Z -> bool)
    (t : GerbiczCheckMultipointExp) (L L2 : Z) (n : nat) :
  forall (j : Z) (r : grun),
    g_state_recovery (block_squarings N due t L L2 n j r) = g_state_recovery r
    /\ g_recovery_op (block_squarings N due t L L2 n j r) = g_recovery_op r
    /\ g_R (block_squarings N due t L L2 n j r) = g_R r.
Proof.
  induction n as [|n IH]; intros j r; [now repeat split|].
  cbn [block_squarings].
  match goal with
  | |- context [block_squarings _ _ _ _ _ n (j + 1) ?r1] =>
      destruct (IH (j + 1) r1) as (H1 & H2 & H3)
  end.
  rewrite H1, H2, H3. now repeat split.
Qed.

Lemma block_windows_keeps (N : Z) (due : Z -> bool)
    (t : GerbiczCheckMultipointExp) (L L2 : Z) (fuel : nat) :
  forall (j : Z) (r : grun),
    g_state_recovery (block_windows N due t L L2 fuel j r) = g_state_recovery r
    /\ g_recovery_op (block_windows N due t L L2 fuel j r) = g_recovery_op r
    /\ g_R (block_windows N due t L L2 fuel j r) = g_R r.
Proof.
  induction fuel as [|fuel IH]; intros j r; [now repeat split|].
  cbn [block_windows].
  destruct (j <? L2); [|now repeat split].
  destruct (power_cache _ _ _ _) as [last_power exp].
  destruct (sliding_window _ _ _ _ _ _) as [U X].
  match goal with
  | |- context [block_windows _ _ _ _ _ fuel (j + L) ?r1] =>
      destruct (IH (j + L) r1) as (H1 & H2 & H3)
  end.
  rewrite H1, H2, H3. now repeat split.
Qed.

Lemma Gerbicz_check_restart (N : Z) (t : GerbiczCheckMultipointExp) (L : Z)
    (r r' : grun) :
  Gerbicz_check N t L r = TaskRestart r' ->
  g_state r' = TaskState_at (iteration (g_state_recovery r))
  /\ g_restart_op r' = g_recovery_op r
  /\ g_recovery_op r' = g_recovery_op r
  /\ g_state_recovery r' = g_state_recovery r
  /\ g_R r' = g_R r.
Proof.
  unfold Gerbicz_check.
  destruct (G_b t =? 2).
  - destruct (negb _ || _); intros [= <-]. now repeat split.
  - destruct (power_cache _ _ _ _) as [last_power exp].
    destruct (sliding_window _ _ _ _ _ _) as [U X].
    destruct (negb _ || _); intros [= <-]. now repeat split.
Qed.

Lemma Gerbicz_block_restart_state (N : Z) (due : Z -> bool)
    (t : GerbiczCheckMultipointExp) (r r' : grun) :
  Gerbicz_block N due t r = TaskRestart r' ->
  g_state r' = TaskState_at (iteration (g_state_recovery r))
  /\ g_restart_op r' = g_recovery_op r
  /\ g_recovery_op r' = g_recovery_op r
  /\ g_state_recovery r' = g_state_recovery r
  /\ g_R r' = g_R r.
Proof.
  unfold Gerbicz_block.
  destruct (block_size _ _ _ _ _) as [[L L2] last_power].
  destruct (negb _); [discriminate|].
  destruct (G_b t =? 2).
  - intros Hcheck.
    match type of Hcheck with
    | Gerbicz_check _ _ _ (block_squarings _ _ _ _ _ ?n ?j ?r0) = _ =>
        destruct (block_squarings_keeps N due t L L2 n j r0) as (H1 & H2 & H3)
    end.
    apply Gerbicz_check_restart in Hcheck.
    now rewrite H1, H2, H3 in Hcheck.
  - destruct (negb _); [discriminate|]. intros Hcheck.
    match type of Hcheck with
    | Gerbicz_check _ _ _ (block_windows _ _ _ _ _ ?n ?j ?r0) = _ =>
        destruct (block_windows_keeps N due t L L2 n j r0) as (H1 & H2 & H3)
    end.
    apply Gerbicz_check_restart in Hcheck.
    now rewrite H1, H2, H3 in Hcheck.
Qed.



(** ** The working state and the recovery state *)

Lemma block_squarings_working (N : Z) (due : Z -> bool)
    (t : GerbiczCheckMultipointExp) (L L2 : Z) (k : nat) :
  forall (j : Z) (r : grun),
    0 <= j -> j + Z.of_nat k <= L2 ->
    g_i r = iteration (g_state_recovery r) + j ->
    iteration (g_state_recovery r) <= TaskState_iteration (g_state r)
      <= iteration (g_state_recovery r) + L2 ->
    g_i (block_squarings N due t L L2 k j r)
    = iteration (g_state_recovery r) + j + Z.of_nat k
    /\ iteration (g_state_recovery r)
       <= TaskState_iteration (g_state (block_squarings N due t L L2 k j r))
       <= iteration (g_state_recovery r) + L2.
Proof.
  induction k as [|k IH]; intros j r Hj Hk Hi Hw.
  - cbn [block_squarings]. split; [lia|exact Hw].
  - cbn [block_squarings].
    match goal with
    | |- context [block_squarings _ _ _ _ _ k (j + 1) ?r1] =>
        destruct (IH (j + 1) r1) as (IHi & IHw)
    end.
    + lia.
    + lia.
    + cbn [g_i g_state_recovery]. lia.
    + cbn [g_state g_state_recovery]. unfold commit_execute_check.
      destruct (due (g_i r + 1)); [cbn [TaskState_iteration]; lia|].
      destruct (negb _ && _); [cbn [TaskState_iteration]; lia|exact Hw].
    + cbn [g_state_recovery] in IHi, IHw. split; [lia|exact IHw].
Qed.

Lemma block_windows_working (N : Z) (due : Z -> bool)
    (t : GerbiczCheckMultipointExp) (L L2 : Z) (fuel : nat) :
  1 <= L ->
  forall (j : Z) (r : grun),
    0 <= j <= L2 -> L2 - j <= Z.of_nat fuel -> (L | L2 - j) ->
    g_i r = iteration (g_state_recovery r) + j ->
    iteration (g_state_recovery r) <= TaskState_iteration (g_state r)
      <= iteration (g_state_recovery r) + L2 ->
    g_i (block_windows N due t L L2 fuel j r)
    = iteration (g_state_recovery r) + L2
    /\ iteration (g_state_recovery r)
       <= TaskState_iteration (g_state (block_windows N due t L L2 fuel j r))
       <= iteration (g_state_recovery r) + L2.
Proof.
  intros HL.
  induction fuel as [|fuel IH]; intros j r Hj Hfuel Hdiv Hi Hw.
  - cbn [block_windows]. split; [lia|exact Hw].
  - cbn [block_windows].
    destruct (Z.ltb_spec j L2) as [Hlt|Hge]; [|split; [lia|exact Hw]].
    assert (HjL : j + L <= L2).
    { destruct Hdiv as [k Hk]. assert (1 <= k) by nia. nia. }
    destruct (power_cache _ _ _ _) as [last_power exp].
    destruct (sliding_window _ _ _ _ _ _) as [U X].
    match goal with
    | |- context [block_windows _ _ _ _ _ fuel (j + L) ?r1] =>
        destruct (IH (j + L) r1) as (IHi & IHw)
    end.
    + lia.
    + lia.
    + destruct Hdiv as [k Hk]. exists (k - 1). lia.
    + cbn [g_i g_state_recovery]. lia.
    + cbn [g_state g_state_recovery]. unfold commit_execute_check.
      destruct (due (g_i r + L)); [cbn [TaskState_iteration]; lia|].
      destruct (negb _ && _); [cbn [TaskState_iteration]; lia|exact Hw].
    + cbn [g_state_recovery] in IHi, IHw. split; [exact IHi|exact IHw].
Qed.

(** After the check, verified or not, the working state is the cursor at
    the recovery iteration. *)
Lemma Gerbicz_check_cursor (N : Z) (t : GerbiczCheckMultipointExp) (L : Z)
    (r r' : grun) :
  Gerbicz_check N t L r = Ok r' \/ Gerbicz_check N t L r = TaskRestart r' ->
  g_state r' = TaskState_at (iteration (g_state_recovery r')).
Proof.
  unfold Gerbicz_check.
  destruct (G_b t =? 2).
  - destruct (negb _ || _); intros [[= <-]|[= <-]]; reflexivity.
  - destruct (power_cache _ _ _ _) as [last_power exp].
    destruct (sliding_window _ _ _ _ _ _) as [U X].
    destruct (negb _ || _); intros [[= <-]|[= <-]]; reflexivity.
Qed.

(** C5, as amended: on startup [init_state] keeps a loaded working state
    whose iteration lies in the half-open interval
    [[recovery.iter, recovery.iter + L2)], and discards any other one (also
    one at [recovery.iter + L2]), resuming from the recovery state; so the
    working iteration then lies in the closed interval
    [[recovery.iter, recovery.iter + L2]].  The steps of a block, squarings
    for [b = 2] and windows of [L] iterations otherwise, keep it in the
    closed interval of the block, and the check leaves it at the recovery
    iteration. *)
Theorem Gerbicz_working_interval (N : Z) (due : Z -> bool)
    (t : GerbiczCheckMultipointExp) (rec : State) :
  let t' := Gerbicz_init_state t rec in
  let lo := iteration rec in
  let hi := iteration rec + G_L2 t in
  G_state_recovery t' = Some rec
  /\ (forall w, G_state t = Some w ->
        lo <= TaskState_iteration w < hi -> G_state t' = Some w)
  /\ (forall w, G_state t = Some w ->
        ~ lo <= TaskState_iteration w < hi ->
        G_state t' = Some (TaskState_at lo))
  /\ (G_state t = None -> G_state t' = Some (TaskState_at lo))
  /\ (0 <= G_L2 t ->
      exists w', G_state t' = Some w' /\ lo <= TaskState_iteration w' <= hi)
  /\ (forall (L L2 j : Z) (k : nat) (r : grun),
        0 <= j -> j + Z.of_nat k <= L2 ->
        g_i r = iteration (g_state_recovery r) + j ->
        iteration (g_state_recovery r) <= TaskState_iteration (g_state r)
          <= iteration (g_state_recovery r) + L2 ->
        let r' := block_squarings N due t L L2 k j r in
        iteration (g_state_recovery r') <= TaskState_iteration (g_state r')
          <= iteration (g_state_recovery r') + L2)
  /\ (forall (L L2 j : Z) (r : grun),
        1 <= L -> 0 <= j <= L2 -> (L | L2 - j) ->
        g_i r = iteration (g_state_recovery r) + j ->
        iteration (g_state_recovery r) <= TaskState_iteration (g_state r)
          <= iteration (g_state_recovery r) + L2 ->
        let r' := block_windows N due t L L2 (Z.to_nat (L2 - j)) j r in
        iteration (g_state_recovery r') <= TaskState_iteration (g_state r')
          <= iteration (g_state_recovery r') + L2)
  /\ (forall (L : Z) (r r' : grun),
        Gerbicz_check N t L r = Ok r'
        \/ Gerbicz_check N t L r = TaskRestart r' ->
        TaskState_iteration (g_state r') = iteration (g_state_recovery r')).
Proof.
  intros t' lo hi. subst t' lo hi.
  unfold Gerbicz_init_state, G_with_state. cbn [G_state_recovery G_state G_L2].
  split; [reflexivity|]. split; [|split; [|split; [|split; [|split; [|split]]]]].
  - intros w -> Hw.
    destruct (Z.ltb_spec (TaskState_iteration w) (iteration rec)); [lia|].
    destruct (Z.leb_spec (iteration rec + G_L2 t) (TaskState_iteration w));
      [lia|reflexivity].
  - intros w -> Hw.
    destruct (Z.ltb_spec (TaskState_iteration w) (iteration rec));
      [reflexivity|].
    destruct (Z.leb_spec (iteration rec + G_L2 t) (TaskState_iteration w));
      [reflexivity|lia].
  - intros ->. reflexivity.
  - intros HL2. destruct (G_state t) as [w|].
    + destruct (Z.ltb_spec (TaskState_iteration w) (iteration rec));
        [eexists; split; [reflexivity|cbn; lia]|].
      destruct (Z.leb_spec (iteration rec + G_L2 t) (TaskState_iteration w));
        eexists; (split; [reflexivity|cbn; lia]).
    + eexists. split; [reflexivity|]. cbn. lia.
  - intros L L2 j k r Hj Hk Hi Hw.
    destruct (block_squarings_keeps N due t L L2 k j r) as (Hrec & _).
    rewrite Hrec.
    now destruct (block_squarings_working N due t L L2 k j r Hj Hk Hi Hw).
  - intros L L2 j r HL Hj Hdiv Hi Hw.
    destruct (block_windows_keeps N due t L L2 (Z.to_nat (L2 - j)) j r)
      as (Hrec & _).
    rewrite Hrec.
    now destruct (block_windows_working N due t L L2 (Z.to_nat (L2 - j)) HL
                    j r Hj ltac:(lia) Hdiv Hi Hw).
  - intros L r r' Hcheck.
    now rewrite (Gerbicz_check_cursor N t L r r' Hcheck).
Qed.

(** C5 as stated fails at the upper end of the interval: with the recovery
    state at iteration 0 and [L2 = 4], a loaded working state at iteration 4
    lies in [[0, 0 + 4]] and is discarded. *)
Lemma Gerbicz_init_state_discards_end :
  let t := Gerbicz_init
             (mkGerbicz 2 [4] (-1) (-1) true 2 4 None None None [] 0 0 0 [])
             (Some (GerbiczCheckState 4 763 243)) (Some (mkState 0 3)) in
  0 <= 4 <= 0 + G_L2 t
  /\ G_state_recovery t = Some (mkState 0 3)
  /\ G_state t = Some (TaskState_at 0)
  /\ G_state t <> Some (GerbiczCheckState 4 763 243).
Proof.
  cbv zeta. split; [cbn; lia|]. split; [reflexivity|].
  split; [reflexivity|discriminate].
Qed.

(** ** Tasks without a saved state *)

(** C10: [MultipointExp::execute] asserts [state() != nullptr]: after an
    [init] that found no saved state, and without [init_state], [execute]
    fails the assertion; so does [GerbiczCheckMultipointExp::setup] when
    neither [_R] nor a recovery state is there.  [FastExp] and [SlowExp]
    with no saved state start at iteration 0 from the base. *)
Theorem execute_requires_state (N : Z) (due : Z -> bool) :
  (forall t : MultipointExp,
     MultipointExp_execute N due (MultipointExp_init t None) = AssertionFailed)
  /\ (forall (g : GerbiczCheckMultipointExp) (file : option TaskState),
        G_R g = None -> G_state_recovery g = None ->
        Gerbicz_setup N (Gerbicz_init g file None) = AssertionFailed)
  /\ (forall (t : MultipointExp) (s : State),
        exists r, MultipointExp_execute N due (MultipointExp_init t (Some s))
                  = Ok r)
  /\ (forall exp x0 len : Z,
        FastExp_execute N due (mkFastExp exp x0 None len)
        = FastExp_loop N due exp x0 len (Z.to_nat (len - 0)) 0
            (mkRun (GWNum_of N x0) None []))
  /\ (forall exp X0 len : Z,
        SlowExp_execute N due (mkSlowExp exp X0 None len)
        = SlowExp_loop N due exp (GWNum_of N X0) len (Z.to_nat (len - 0)) 0
            (mkRun (GWNum_of N X0) None [])).
Proof.
  split; [reflexivity|]. split; [|split; [|split; reflexivity]].
  - intros g file HR Hrec. unfold Gerbicz_init, Gerbicz_setup, G_with_state.
    cbn [G_R G_state_recovery]. now rewrite HR, Hrec.
  - intros t s. eexists. reflexivity.
Qed.

(** ** Runs of the Gerbicz task *)

(** The restart leaves [execute] with the cursor at the recovery state it
    throws from, whatever number of blocks was verified before. *)
Lemma Gerbicz_blocks_restart (N : Z) (due : Z -> bool)
    (t : GerbiczCheckMultipointExp) (blocks : nat) :
  forall r r' : grun,
    Gerbicz_blocks N due blocks t r = Some (TaskRestart r') ->
    g_state r' = TaskState_at (iteration (g_state_recovery r'))
    /\ g_restart_op r' = g_recovery_op r'.
Proof.
  induction blocks as [|blocks IH]; intros r r'; cbn [Gerbicz_blocks];
    destruct (g_next_point r <? Z.of_nat (length (G_points t)));
    try discriminate.
  destruct (Gerbicz_block N due t r) as [r1| |r1] eqn:Hblock.
  - apply IH.
  - discriminate.
  - intros [= <-].
    destruct (Gerbicz_block_restart_state N due t r r1 Hblock)
      as (Hst & Hrop & Hcop & Hrec & _).
    now rewrite Hst, Hrop, Hcop, Hrec.
Qed.

Lemma Gerbicz_execute_restart (N : Z) (due : Z -> bool) (blocks : nat)
    (t t' : GerbiczCheckMultipointExp) :
  Gerbicz_execute N due blocks t = Some (TaskRestart t') ->
  exists rec : State,
    G_state_recovery t' = Some rec
    /\ G_state t' = Some (TaskState_at (iteration rec))
    /\ G_restart_op t' = G_recovery_op t'.
Proof.
  unfold Gerbicz_execute.
  destruct (Gerbicz_enter N t) as [r|]; [|discriminate].
  destruct (Gerbicz_blocks N due blocks t r) as [[r'| |r']|] eqn:Hblocks;
    try discriminate.
  intros [= <-].
  destruct (Gerbicz_blocks_restart N due t blocks r r' Hblocks) as [Hst Hop].
  exists (g_state_recovery r'). unfold Gerbicz_leave.
  cbn [G_state_recovery G_state G_restart_op G_recovery_op].
  now rewrite Hst, Hop.
Qed.

(** The halving of the block length ends by its own condition. *)
Lemma block_size_exit (dist : Z) (fuel : nat) :
  forall L L2 last_power : Z,
    L <= Z.of_nat fuel ->
    let '(L', L2', _) := block_size fuel dist L L2 last_power in
    ~ (dist < L2' /\ 1 < L') /\ (1 <= L -> 1 <= L').
Proof.
  induction fuel as [|fuel IH]; intros L L2 last_power Hfuel.
  - cbn [block_size]. split; lia.
  - cbn [block_size].
    destruct (Z.ltb_spec dist L2) as [Hd|Hd];
      destruct (Z.ltb_spec 1 L) as [HL|HL]; cbn [andb]; try (split; lia).
    assert (Hq : 1 <= Z.quot L 2 < L).
    { rewrite Z.quot_div_nonneg by lia.
      pose proof (Z.div_mod L 2 ltac:(lia)).
      pose proof (Z.mod_pos_bound L 2 ltac:(lia)). lia. }
    specialize (IH (Z.quot L 2) (Z.quot L 2 * Z.quot L 2) (-1) ltac:(lia)).
    destruct (block_size fuel dist _ _ _) as [[L' L2'] lp].
    split; [apply IH|intros _; apply IH; lia].
Qed.

Lemma block_squarings_residues (N : Z) (due : Z -> bool)
    (t : GerbiczCheckMultipointExp) (L L2 : Z) (n : nat) :
  forall (j : Z) (r : grun),
    grun_residues N t r ->
    grun_residues N t (block_squarings N due t L L2 n j r).
Proof.
  induction n as [|n IH]; intros j r Hr; [exact Hr|].
  cbn [block_squarings]. apply IH.
  destruct Hr as (HX & HD & HR & Hcache).
  unfold grun_residues. cbn [g_X g_D g_R g_last_power g_exp].
  split; [apply Zmod_mod|]. split; [|split; assumption].
  destruct (negb _ && _); [apply Zmod_mod|exact HD].
Qed.

Lemma power_cache_valid (b L last_power exp : Z) :
  (last_power = -1 \/ exp = b ^ last_power) -> 0 <= L ->
  power_cache b L last_power exp = (L, b ^ L).
Proof.
  intros Hcache HL. unfold power_cache, Giant.power.
  destruct (Z.eqb_spec last_power L) as [Heq|Hne]; [|reflexivity].
  cbn [negb]. destruct Hcache as [Hc|Hc]; [lia|]. now rewrite Hc, Heq.
Qed.

Lemma block_windows_residues (N : Z) (due : Z -> bool)
    (t : GerbiczCheckMultipointExp) (L L2 : Z) (fuel : nat) :
  1 <= G_b t -> 0 <= L ->
  forall (j : Z) (r : grun),
    grun_residues N t r ->
    grun_residues N t (block_windows N due t L L2 fuel j r).
Proof.
  intros Hb HL.
  induction fuel as [|fuel IH]; intros j r Hr; [exact Hr|].
  cbn [block_windows]. destruct (j <? L2); [|exact Hr].
  destruct Hr as (HX & HD & HR & Hcache).
  rewrite (power_cache_valid _ _ _ _ Hcache HL).
  assert (He : 1 <= G_b t ^ L).
  { assert (0 < G_b t ^ L) by (apply Z.pow_pos_nonneg; lia). lia. }
  pose proof (sliding_window_spec N (G_W t) (G_max_size t) _ (g_U r) (g_X r)
                He HX) as Hsw.
  destruct (sliding_window _ _ _ _ _ _) as [U X]. cbn [snd] in Hsw.
  apply IH. unfold grun_residues. cbn [g_X g_D g_R g_last_power g_exp].
  split; [rewrite Hsw; apply Zmod_mod|]. split; [|split; [exact HR|now right]].
  destruct (negb _); [apply Zmod_mod|exact HD].
Qed.

(** A run entered after [setup] holds reduced residues. *)
Lemma Gerbicz_enter_residues (N : Z) (t : GerbiczCheckMultipointExp)
    (r : grun) :
  (forall R, G_R t = Some R -> R mod N = R) ->
  Gerbicz_enter N t = Some r -> grun_residues N t r.
Proof.
  intros HR. unfold Gerbicz_enter.
  destruct (G_R t) as [R|]; [|discriminate].
  destruct (G_state_recovery t) as [rec|]; [|discriminate].
  destruct (G_state t) as [[i|i X D]|]; [| |discriminate]; intros [= <-];
    unfold grun_residues; cbn [g_X g_D g_R g_last_power g_exp];
    rewrite ?(HR R eq_refl); unfold GWNum_of; rewrite ?Zmod_mod; tauto.
Qed.

Lemma Gerbicz_setup_residue (N : Z) (t t' : GerbiczCheckMultipointExp) :
  G_R t = None -> Gerbicz_setup N t = Ok t' ->
  exists R, G_R t' = Some R /\ R mod N = R.
Proof.
  intros HR. unfold Gerbicz_setup. rewrite HR.
  destruct (G_state_recovery t) as [s|]; [|discriminate].
  intros [= <-]. eexists. split; [reflexivity|]. apply Zmod_mod.
Qed.

(** A verified block hands reduced residues and a valid cached power to
    the next block: the hypotheses of the check hold at every block of a
    run. *)
Lemma Gerbicz_block_residues (N : Z) (due : Z -> bool)
    (t : GerbiczCheckMultipointExp) (r r' : grun) :
  1 <= G_b t -> 1 <= G_L t ->
  grun_residues N t r -> Gerbicz_block N due t r = Ok r' ->
  grun_residues N t r'.
Proof.
  intros Hb HL0 Hr. unfold Gerbicz_block.
  pose proof (block_size_exit
                (point_at (G_points t) (g_next_point r)
                 - iteration (g_state_recovery r))
                (Z.to_nat (G_L t)) (G_L t) (G_L2 t) (g_last_power r)
                ltac:(lia)) as Hsize.
  assert (Hlp : forall fuel dist L L2,
             let '(_, _, lp) := block_size fuel dist L L2 (g_last_power r) in
             lp = -1 \/ lp = g_last_power r).
  { induction fuel as [|fuel IH]; intros dist L L2; cbn [block_size];
      [now right|].
    destruct (_ && _); [|now right].
    clear IH. generalize (Z.quot L 2), (Z.quot L 2 * Z.quot L 2).
    induction fuel as [|fuel IH]; intros L' L2'; cbn [block_size];
      [now left|].
    destruct (_ && _); [apply IH|now left]. }
  specialize (Hlp (Z.to_nat (G_L t))
                (point_at (G_points t) (g_next_point r)
                 - iteration (g_state_recovery r)) (G_L t) (G_L2 t)).
  destruct (block_size _ _ _ _ _) as [[L L2] last_power].
  destruct Hsize as [_ HL]. specialize (HL HL0).
  destruct (negb _); [discriminate|].
  set (r0 := mkGrun _ _ last_power _ _ _ _ _ _ _ _ _ _ _).
  assert (Hr0 : grun_residues N t r0).
  { destruct Hr as (HX & HD & HR & Hcache). subst r0.
    unfold grun_residues. cbn [g_X g_D g_R g_last_power g_exp].
    repeat (split; [assumption|]).
    destruct Hlp as [->| ->]; [now left|exact Hcache]. }
  assert (Hend : forall r1, grun_residues N t r1 ->
                   Gerbicz_check N t L r1 = Ok r' -> grun_residues N t r').
  { intros r1 (HX & HD & HR & Hcache) Hcheck.
    destruct (Gerbicz_check_unfold N t L r1 Hb ltac:(lia) HD Hcache)
      as (U & lp & exp & Hcache' & Heq).
    rewrite Heq in Hcheck. destruct (negb _ || _); [discriminate|].
    injection Hcheck as <-. unfold grun_residues.
    cbn [g_X g_D g_R g_last_power g_exp]. tauto. }
  destruct (G_b t =? 2).
  - apply Hend. apply block_squarings_residues. exact Hr0.
  - destruct (negb _); [discriminate|].
    apply Hend. apply block_windows_residues; [exact Hb|lia|exact Hr0].
Qed.

(** A run over the points 10, 25, 40 with [L = 6], [L2 = 36] and a
    checkpoint every seventh iteration: every block is verified and the
    recovery residue is [3^(2^40) mod 1009], the residue [MultipointExp]
    reaches. *)
Example Gerbicz_run_example :
  (exists t',
     Gerbicz_execute 1009 (fun i => i mod 7 =? 0) 30
       (mkGerbicz 2 [10; 25; 40] (-1) (-1) true 6 36 (Some (TaskState_at 0))
          (Some (mkState 0 3)) (Some 3) [] 0 0 0 [])
     = Some (Ok t')
     /\ G_R t' = Some 763
     /\ G_state_recovery t' = Some (mkState 40 763)
     /\ G_called t' = [10; 25; 40])
  /\ exists r,
       MultipointExp_execute 1009 (fun i => i mod 7 =? 0)
         (mkMultipointExp 2 [10; 25; 40] (-1) (-1) true
            (Some (mkState 0 3)) [])
       = Ok r
       /\ mp_X r = 763.
Proof.
  split; eexists; (split; [vm_compute; reflexivity|]); repeat split.
Qed.

(** [(int)sqrt(n)] in double precision is the integer square root, at the
    perfect squares [k*k] and their predecessors. *)
Example double_sqrt_floor :
  forallb (fun k =>
             double_floor_is (PrimFloat.sqrt (double_of_int (k * k) / 1))
               (Z.sqrt (k * k))
             && double_floor_is
                  (PrimFloat.sqrt (double_of_int (k * k - 1) / 1))
                  (Z.sqrt (k * k - 1)))
    (seqZ 1 400 ++ seqZ 46240 100) = true.
Proof. vm_compute. reflexivity. Qed.

(** ** Blocks without arithmetic errors *)

Lemma snapshots_nonneg (q : Z) (m : nat) : 0 <= q -> 0 <= snapshots q m.
Proof. intros Hq. induction m as [|m IH]; cbn [snapshots]; nia. Qed.

Lemma snapshots_last (q : Z) (m : nat) :
  snapshots q (S m) = snapshots q m + q ^ Z.of_nat m.
Proof.
  induction m as [|m IH].
  { cbn [snapshots]. change (Z.of_nat 0) with 0. rewrite Z.pow_0_r. ring. }
  change (snapshots q (S (S m))) with (1 + q * snapshots q (S m)).
  rewrite IH at 1. cbn [snapshots].
  replace (Z.of_nat (S m)) with (Z.of_nat m + 1) by lia.
  rewrite Z.pow_add_r, Z.pow_1_r by lia. ring.
Qed.

(** The identity behind the check: with [D = R^(1 + q + ... + q^(m-1))] and
    [X = R^(q^m)], [R * D^q] and [X * D] are the same power of [R]. *)
Lemma snapshots_check (N R q : Z) (m : nat) :
  0 <= q ->
  (R * (R ^ snapshots q m mod N) ^ q
   - (R ^ (q ^ Z.of_nat m) mod N) * (R ^ snapshots q m mod N)) mod N = 0.
Proof.
  intros Hq. pose proof (snapshots_nonneg q m Hq) as Hs.
  rewrite Zminus_mod, <- Zmult_mod, Zmult_mod, pow_mod_base, <- Zmult_mod.
  rewrite <- Zminus_mod.
  rewrite <- Z.pow_mul_r, <- Z.pow_add_r by (try apply Z.pow_nonneg; lia).
  rewrite <- (Z.pow_1_r R) at 1.
  rewrite <- Z.pow_add_r by nia.
  replace (1 + snapshots q m * q) with (snapshots q (S m))
    by (cbn [snapshots]; ring).
  rewrite snapshots_last, (Z.add_comm (snapshots q m)), Z.sub_diag.
  apply Zmod_0_l.
Qed.

Section ErrorFreeBlock.

Variable N : Z.
Variable due : Z -> bool.
Variable t : GerbiczCheckMultipointExp.
Variable R L : Z.
Variable m : nat.

Hypothesis L_pos : 1 <= L.

(** The squarings of a block for [b = 2], from step [j = k*L + rho] on:
    [X] holds [R^(2^j)] and [D] the product of the [k + 1] snapshots taken
    so far. *)
Lemma block_squarings_snapshots (n : nat) :
  forall (j : Z) (k : nat) (rho : Z) (r : grun),
    j = Z.of_nat k * L + rho -> 0 <= rho < L ->
    j + Z.of_nat (S n) = Z.of_nat m * L ->
    g_X r = R ^ (2 ^ j) mod N ->
    g_D r = R ^ snapshots (2 ^ L) (S k) mod N ->
    g_X (block_squarings N due t L (Z.of_nat m * L) (S n) j r)
    = R ^ (2 ^ (Z.of_nat m * L)) mod N
    /\ g_D (block_squarings N due t L (Z.of_nat m * L) (S n) j r)
       = R ^ snapshots (2 ^ L) m mod N.
Proof.
  induction n as [|n IH]; intros j k rho r Hj Hrho Hn HX HD.
  - (* the last squaring of the block: no snapshot is folded *)
    cbn [block_squarings g_X g_D].
    destruct (Z.eqb_spec (j + 1) (Z.of_nat m * L)) as [Hend|Hend]; [|counters].
    cbn [negb andb]. rewrite HX, HD.
    rewrite (gw_square_pow N R _ false) by (apply Z.pow_nonneg; counters).
    cbn [Z.b2z]. rewrite Z.add_0_r.
    replace (2 * 2 ^ j) with (2 ^ (Z.of_nat m * L))
      by (rewrite <- Hend, Z.pow_add_r, Z.pow_1_r by counters; ring).
    assert (Hm : m = S k) by (clear - Hj Hrho Hend L_pos; nia).
    now rewrite Hm.
  - remember (S n) as n1 eqn:Hn1.
    cbn [block_squarings].
    set (X1 := gw_square N None (g_X r)).
    assert (HX1 : X1 = R ^ (2 ^ (j + 1)) mod N).
    { subst X1. rewrite HX.
      rewrite (gw_square_pow N R _ false) by (apply Z.pow_nonneg; counters).
      cbn [Z.b2z]. rewrite Z.add_0_r, Z.pow_add_r, Z.pow_1_r by counters.
      f_equal. f_equal. ring. }
    destruct (Z.eqb_spec (j + 1) (Z.of_nat m * L)) as [Hend|Hend]; [counters|].
    cbn [negb andb]. subst n1.
    destruct (Z.eq_dec (rho + 1) L) as [Hfold|Hnofold].
    + (* a snapshot: j + 1 = (k + 1) * L *)
      assert (Hj1 : j + 1 = Z.of_nat (S k) * L) by counters.
      assert (Hrem : Z.rem (j + 1) L = 0).
      { rewrite Hj1. apply Z.rem_mul. counters. }
      rewrite Hrem. cbn [Z.eqb].
      apply (IH (j + 1) (S k) 0); cbn [g_X g_D]; [counters|counters|counters|exact HX1|].
      rewrite HX1, HD, gw_mul_mod.
      pose proof (snapshots_nonneg (2 ^ L) (S k)
                    ltac:(apply Z.pow_nonneg; counters)).
      rewrite <- Z.pow_add_r by (try apply Z.pow_nonneg; counters).
      rewrite (snapshots_last (2 ^ L) (S k)).
      rewrite <- Z.pow_mul_r by counters.
      f_equal. f_equal. rewrite Hj1. rewrite (Z.mul_comm L). ring.
    + (* no snapshot at j + 1 *)
      assert (Hrem : Z.rem (j + 1) L = rho + 1).
      { rewrite Z.rem_mod_nonneg by counters.
        replace (j + 1) with (rho + 1 + Z.of_nat k * L) by counters.
        rewrite Z_mod_plus_full. apply Z.mod_small. counters. }
      rewrite Hrem.
      destruct (Z.eqb_spec (rho + 1) 0) as [H0|_]; [counters|].
      apply (IH (j + 1) k (rho + 1)); cbn [g_X g_D];
        [counters|counters|counters|exact HX1|exact HD].
Qed.

Lemma block_windows_done (L2 : Z) (fuel : nat) (j : Z) (r : grun) :
  L2 <= j -> block_windows N due t L L2 fuel j r = r.
Proof.
  intros Hj. destruct fuel as [|fuel]; [reflexivity|].
  cbn [block_windows]. destruct (Z.ltb_spec j L2); [lia|reflexivity].
Qed.

(** The windows of a block for [b != 2], from the step [k] on: [X] holds
    [R^(q^k)] with [q = b^L], and [D] the product of the [k + 1] snapshots
    taken so far. *)
Lemma block_windows_snapshots (d : nat) :
  forall (fuel k : nat) (r : grun),
    1 <= G_b t -> (k + S d = m)%nat ->
    Z.of_nat m * L - Z.of_nat k * L <= Z.of_nat fuel ->
    g_X r = R ^ ((G_b t ^ L) ^ Z.of_nat k) mod N ->
    g_D r = R ^ snapshots (G_b t ^ L) (S k) mod N ->
    (g_last_power r = -1 \/ g_exp r = G_b t ^ g_last_power r) ->
    g_X (block_windows N due t L (Z.of_nat m * L) fuel (Z.of_nat k * L) r)
    = R ^ ((G_b t ^ L) ^ Z.of_nat m) mod N
    /\ g_D (block_windows N due t L (Z.of_nat m * L) fuel (Z.of_nat k * L) r)
       = R ^ snapshots (G_b t ^ L) m mod N
    /\ g_exp
         (block_windows N due t L (Z.of_nat m * L) fuel (Z.of_nat k * L) r)
       = G_b t
         ^ g_last_power
             (block_windows N due t L (Z.of_nat m * L) fuel (Z.of_nat k * L) r)
    /\ g_i (block_windows N due t L (Z.of_nat m * L) fuel (Z.of_nat k * L) r)
       = g_i r + (Z.of_nat m * L - Z.of_nat k * L).
Proof.
  induction d as [|d IH]; intros fuel k r Hb Hk Hfuel HX HD Hcache.
  1: assert (HmL : Z.of_nat m * L = Z.of_nat k * L + L)
    by (rewrite <- Hk, !Nat2Z.inj_add, !Nat2Z.inj_succ; ring).
  2: assert (HmL : Z.of_nat m * L
                   = Z.of_nat k * L + L + Z.of_nat (S d) * L)
    by (rewrite <- Hk, !Nat2Z.inj_add, !Nat2Z.inj_succ; ring).
  2: assert (HdL : 0 < Z.of_nat (S d) * L)
    by (apply Z.mul_pos_pos; counters).
  all: destruct fuel as [|fuel]; [counters|].
  all: cbn [block_windows].
  all: destruct (Z.ltb_spec (Z.of_nat k * L) (Z.of_nat m * L)) as [_|Hge];
    [|counters].
  all: assert (HL0 : 0 <= L) by counters.
  all: rewrite (power_cache_valid (G_b t) L _ _ Hcache HL0).
  all: assert (Hq : 0 < G_b t ^ L) by (apply Z.pow_pos_nonneg; counters).
  all: assert (He : 1 <= G_b t ^ L) by counters.
  all: assert (Hcan : g_X r mod N = g_X r) by (rewrite HX; apply Zmod_mod).
  all: pose proof (sliding_window_spec N (G_W t) (G_max_size t) (G_b t ^ L)
                     (g_U r) (g_X r) He Hcan) as Hsw.
  all: destruct (sliding_window N (G_W t) (G_max_size t) (G_b t ^ L)
                   (g_U r) (g_X r)) as [U X1]; cbn [snd] in Hsw.
  all: assert (HX1 : X1 = R ^ ((G_b t ^ L) ^ Z.of_nat (S k)) mod N)
    by (rewrite Hsw, HX, pow_mod_base;
        rewrite <- Z.pow_mul_r by (try apply Z.pow_nonneg; counters);
        rewrite Nat2Z.inj_succ, Z.pow_succ_r by counters;
        f_equal; f_equal; ring).
  - (* the last window of the block: no snapshot is folded *)
    assert (Hm : m = S k) by counters.
    destruct (Z.eqb_spec (Z.of_nat k * L + L) (Z.of_nat m * L)) as [_|Hne];
      [|counters].
    cbn [negb andb]. rewrite block_windows_done by counters.
    cbn [g_X g_D g_last_power g_exp g_i]. rewrite HX1, HD, Hm.
    repeat split. rewrite Nat2Z.inj_succ. unfold Z.succ. ring.
  - destruct (Z.eqb_spec (Z.of_nat k * L + L) (Z.of_nat m * L)) as [He'|_];
      [counters|].
    cbn [negb].
    replace (Z.of_nat k * L + L) with (Z.of_nat (S k) * L)
      by (rewrite Nat2Z.inj_succ; ring).
    match goal with
    | |- context [block_windows _ _ _ _ _ fuel _ ?r1] =>
        destruct (IH fuel (S k) r1) as (IH1 & IH2 & IH3 & IH4);
          cbn [g_X g_D g_last_power g_exp g_i];
          [| | | | | |repeat (split; [assumption|]);
                     rewrite IH4, Nat2Z.inj_succ; cbn [g_i];
                     unfold Z.succ; ring]
    end.
    + exact Hb.
    + counters.
    + rewrite Nat2Z.inj_succ. counters.
    + exact HX1.
    + rewrite HX1, HD, gw_mul_mod.
      pose proof (snapshots_nonneg (G_b t ^ L) (S k) ltac:(counters)).
      rewrite <- Z.pow_add_r by (try apply Z.pow_nonneg; counters).
      now rewrite (snapshots_last (G_b t ^ L) (S k)), Z.add_comm.
    + now right.
Qed.

End ErrorFreeBlock.

Lemma block_squarings_locals (N : Z) (due : Z -> bool)
    (t : GerbiczCheckMultipointExp) (L L2 : Z) (n : nat) :
  forall (j : Z) (r : grun),
    g_i (block_squarings N due t L L2 n j r) = g_i r + Z.of_nat n
    /\ g_last_power (block_squarings N due t L L2 n j r) = g_last_power r
    /\ g_exp (block_squarings N due t L L2 n j r) = g_exp r.
Proof.
  induction n as [|n IH]; intros j r.
  - cbn [block_squarings]. repeat split. lia.
  - cbn [block_squarings].
    match goal with
    | |- context [block_squarings _ _ _ _ _ n (j + 1) ?r1] =>
        destruct (IH (j + 1) r1) as (H1 & H2 & H3)
    end.
    rewrite H1, H2, H3. cbn [g_i g_last_power g_exp]. repeat split. lia.
Qed.

(** The block length is a multiple of [L], halved or not. *)
Lemma block_size_multiple (dist : Z) (fuel : nat) :
  forall L L2 last_power : Z,
    1 <= L -> (exists m : nat, (0 < m)%nat /\ L2 = Z.of_nat m * L) ->
    let '(L', L2', last_power') := block_size fuel dist L L2 last_power in
    1 <= L'
    /\ (exists m : nat, (0 < m)%nat /\ L2' = Z.of_nat m * L')
    /\ (last_power' = -1 \/ last_power' = last_power).
Proof.
  induction fuel as [|fuel IH]; intros L L2 last_power HL Hm.
  - cbn [block_size]. repeat split; [exact HL|exact Hm|now right].
  - cbn [block_size].
    destruct (Z.ltb_spec dist L2) as [Hd|Hd];
      destruct (Z.ltb_spec 1 L) as [HL1|HL1]; cbn [andb];
      try (repeat split; [exact HL|exact Hm|now right]).
    assert (Hq : 1 <= Z.quot L 2).
    { rewrite Z.quot_div_nonneg by lia.
      pose proof (Z.div_mod L 2 ltac:(lia)).
      pose proof (Z.mod_pos_bound L 2 ltac:(lia)). lia. }
    specialize (IH (Z.quot L 2) (Z.quot L 2 * Z.quot L 2) (-1) Hq).
    destruct (block_size fuel dist _ _ _) as [[L' L2'] lp].
    destruct IH as (H1 & H2 & H3).
    + exists (Z.to_nat (Z.quot L 2)). split; [lia|]. now rewrite Z2Nat.id by lia.
    + repeat split; [exact H1|exact H2|]. destruct H3; now left.
Qed.

(** A block that starts at the recovery state ([X = D = R]) and runs
    without arithmetic error: the check finds [T = 0], so the block is
    verified and the new recovery residue is [R^(b^L2)], unless the product
    [D_new] of the snapshots is zero modulo [N]. *)
Lemma Gerbicz_block_verified (N : Z) (due : Z -> bool)
    (t : GerbiczCheckMultipointExp) (r : grun) (m0 : nat) :
  1 <= G_b t -> 1 <= G_L t -> (0 < m0)%nat ->
  G_L2 t = Z.of_nat m0 * G_L t ->
  g_i r = iteration (g_state_recovery r) ->
  g_X r = g_R r -> g_D r = g_R r -> g_R r mod N = g_R r ->
  (g_last_power r = -1 \/ g_exp r = G_b t ^ g_last_power r) ->
  exists L2 : Z,
    1 <= L2
    /\ ((exists r' : grun,
           Gerbicz_block N due t r = Ok r'
           /\ g_i r' = g_i r + L2
           /\ g_R r' = g_R r ^ (G_b t ^ L2) mod N
           /\ g_state_recovery r'
              = mkState (g_i r + L2) (g_R r ^ (G_b t ^ L2) mod N))
        \/ (exists r' : grun,
              Gerbicz_block N due t r = TaskRestart r' /\ g_D r' = 0)).
Proof.
  intros Hb HL0 Hm0 HL2 Hi HX HD HR Hcache. unfold Gerbicz_block.
  pose proof (block_size_multiple
                (point_at (G_points t) (g_next_point r)
                 - iteration (g_state_recovery r))
                (Z.to_nat (G_L t)) (G_L t) (G_L2 t) (g_last_power r) HL0
                ltac:(exists m0; split; assumption)) as Hsize.
  destruct (block_size _ _ _ _ _) as [[L L2] last_power].
  destruct Hsize as (HL & (m & Hm & ->) & Hlp).
  assert (HmL : 1 <= Z.of_nat m * L).
  { clear - HL Hm. assert (0 < Z.of_nat m * L) by (apply Z.mul_pos_pos; lia).
    lia. }
  exists (Z.of_nat m * L). split; [exact HmL|].
  replace (g_i r - iteration (g_state_recovery r)) with 0
    by (clear - Hi; lia).
  destruct (Z.leb_spec 0 (Z.of_nat m * L)) as [_|Hneg];
    [|clear - HmL Hneg; lia].
  cbn [negb]. rewrite Z.sub_0_r.
  set (r0 := mkGrun _ _ last_power _ _ _ _ _ _ _ _ _ _ _).
  assert (Hcache0 : g_last_power r0 = -1 \/ g_exp r0 = G_b t ^ g_last_power r0).
  { subst r0. cbn [g_last_power g_exp].
    destruct Hlp as [->| ->]; [now left|exact Hcache]. }
  assert (HX0 : g_X r0 = g_R r ^ 1 mod N)
    by (subst r0; cbn [g_X]; now rewrite Z.pow_1_r, HX, HR).
  assert (HD0 : g_D r0 = g_R r ^ 1 mod N)
    by (subst r0; cbn [g_D]; now rewrite Z.pow_1_r, HD, HR).
  assert (Hpow : (G_b t ^ L) ^ Z.of_nat m = G_b t ^ (Z.of_nat m * L)).
  { clear - HL. rewrite <- Z.pow_mul_r by lia. f_equal. ring. }
  assert (Hq : 0 <= G_b t ^ L) by (apply Z.pow_nonneg; lia).
  (* what the check does with the residues at the end of the block *)
  assert (Hend : forall r1 : grun,
             g_X r1 = g_R r ^ ((G_b t ^ L) ^ Z.of_nat m) mod N ->
             g_D r1 = g_R r ^ snapshots (G_b t ^ L) m mod N ->
             g_R r1 = g_R r ->
             g_i r1 = g_i r + Z.of_nat m * L ->
             (g_last_power r1 = -1 \/ g_exp r1 = G_b t ^ g_last_power r1) ->
             (exists r' : grun,
                Gerbicz_check N t L r1 = Ok r'
                /\ g_i r' = g_i r + Z.of_nat m * L
                /\ g_R r' = g_R r ^ (G_b t ^ (Z.of_nat m * L)) mod N
                /\ g_state_recovery r'
                   = mkState (g_i r + Z.of_nat m * L)
                       (g_R r ^ (G_b t ^ (Z.of_nat m * L)) mod N))
             \/ (exists r' : grun,
                   Gerbicz_check N t L r1 = TaskRestart r' /\ g_D r' = 0)).
  { intros r1 HX1 HD1 HR1 Hi1 Hcache1.
    destruct (Gerbicz_check_unfold N t L r1 Hb ltac:(clear - HL; lia)
                ltac:(rewrite HD1; apply Zmod_mod) Hcache1)
      as (U & lp & exp & _ & Heq).
    rewrite Heq, HR1, HX1, HD1, (snapshots_check N (g_R r) _ m Hq).
    cbn [Z.eqb negb orb]. rewrite Hpow.
    destruct (Z.eqb_spec
                ((g_R r ^ (G_b t ^ (Z.of_nat m * L)) mod N)
                 * (g_R r ^ snapshots (G_b t ^ L) m mod N) mod N) 0)
      as [Hzero|Hnz].
    - right. eexists. split; [reflexivity|]. cbn [g_D]. exact Hzero.
    - left. eexists. split; [reflexivity|]. cbn [g_i g_R g_state_recovery].
      rewrite Hi1. now repeat split. }
  destruct (Z.eqb_spec (G_b t) 2) as [Hb2|Hb2].
  - destruct (Z.to_nat (Z.of_nat m * L)) as [|n] eqn:Hn;
      [clear - HmL Hn; lia|].
    destruct (block_squarings_snapshots N due t (g_R r) L m HL n 0 0%nat 0 r0)
      as (HX1 & HD1).
    + clear - HL. lia.
    + clear - HL. lia.
    + clear - HmL Hn. lia.
    + rewrite HX0. now rewrite Z.pow_0_r.
    + rewrite HD0. cbn [snapshots]. now rewrite Z.mul_0_r, Z.add_0_r.
    + destruct (block_squarings_keeps N due t L (Z.of_nat m * L) (S n) 0 r0)
        as (_ & _ & HR1).
      destruct (block_squarings_locals N due t L (Z.of_nat m * L) (S n) 0 r0)
        as (Hi1 & Hlp1 & Hexp1).
      apply Hend.
      * rewrite HX1, <- Hb2, <- Hpow. reflexivity.
      * rewrite HD1, <- Hb2. reflexivity.
      * exact HR1.
      * rewrite Hi1. subst r0. cbn [g_i]. clear - Hn HmL. lia.
      * rewrite Hlp1, Hexp1. exact Hcache0.
  - rewrite Z.rem_0_l by (clear - HL; lia). cbn [Z.eqb negb].
    destruct m as [|m']; [clear - Hm; lia|].
    destruct (block_windows_snapshots N due t (g_R r) L (S m') HL m'
                (Z.to_nat (Z.of_nat (S m') * L)) 0%nat r0 Hb)
      as (HX1 & HD1 & Hexp1 & Hi1).
    + reflexivity.
    + clear - HmL. lia.
    + rewrite HX0. change (Z.of_nat 0) with 0. now rewrite Z.pow_0_r.
    + rewrite HD0. cbn [snapshots]. now rewrite Z.mul_0_r, Z.add_0_r.
    + exact Hcache0.
    + change (Z.of_nat 0 * L) with 0 in *.
      destruct (block_windows_keeps N due t L (Z.of_nat (S m') * L)
                  (Z.to_nat (Z.of_nat (S m') * L)) 0 r0) as (_ & _ & HR1).
      apply Hend.
      * exact HX1.
      * exact HD1.
      * exact HR1.
      * rewrite Hi1. subst r0. cbn [g_i]. ring.
      * right. exact Hexp1.
Qed.

(** * Further properties of the tasks *)

(** ** Checkpoints of FastExp and SlowExp *)

Section BinaryCheckpoints.

Variable N : Z.
Variable due : Z -> bool.

(** The residue a state committed at iteration [i] holds: the power of the
    base by the top [i + 1] bits of the exponent. *)
Lemma FastExp_loop_state (e x0 len : Z) (n : nat) :
  forall (i : Z) (r : run),
    0 <= e -> 0 <= i -> i + Z.of_nat n <= len ->
    run_X r = x0 ^ Z.shiftr e (len - i) mod N ->
    (forall s, run_state r = Some s ->
       0 < iteration s <= i /\ due (iteration s) = true
       /\ State_X s = x0 ^ Z.shiftr e (len - iteration s) mod N) ->
    let r' := FastExp_loop N due e x0 len n i r in
    run_X r' = x0 ^ Z.shiftr e (len - (i + Z.of_nat n)) mod N
    /\ (forall s, run_state r' = Some s ->
          0 < iteration s <= i + Z.of_nat n /\ due (iteration s) = true
          /\ State_X s = x0 ^ Z.shiftr e (len - iteration s) mod N).
Proof.
  induction n as [|n IH]; intros i r He Hi Hlen HX Hst.
  - cbn [FastExp_loop]. replace (i + Z.of_nat 0) with i by lia.
    split; [exact HX|exact Hst].
  - cbn [FastExp_loop].
    assert (HX1 : gw_square N
                    (if Giant.bit e (len - i - 1) then Some x0 else None)
                    (run_X r)
                  = x0 ^ Z.shiftr e (len - (i + 1)) mod N).
    { rewrite HX, gw_square_pow by (apply shiftr_nonneg; exact He).
      unfold Giant.bit.
      replace (len - (i + 1)) with (len - i - 1) by lia.
      rewrite (shiftr_bit e (len - i - 1)) by lia.
      replace (len - i - 1 + 1) with (len - i) by lia. reflexivity. }
    match goal with
    | |- context [FastExp_loop _ _ _ _ _ n (i + 1) ?r1] =>
        specialize (IH (i + 1) r1 He ltac:(lia) ltac:(lia))
    end.
    cbn [run_X run_state] in IH.
    replace (i + Z.of_nat (S n)) with (i + 1 + Z.of_nat n) by lia.
    apply IH; [exact HX1|].
    intros s. unfold commit_execute. destruct (due (i + 1)) eqn:Hdue.
    + intros [= <-]. cbn [iteration State_X].
      split; [lia|]. split; [exact Hdue|exact HX1].
    + intros Hs. destruct (Hst s Hs) as (Hit & Hd & HsX).
      split; [lia|]. split; [exact Hd|exact HsX].
Qed.

Lemma SlowExp_loop_state (e X0 len : Z) (n : nat) :
  forall (i : Z) (r : run),
    0 <= e -> 0 <= i -> i + Z.of_nat n <= len ->
    run_X r = X0 ^ Z.shiftr e (len - i) mod N ->
    (forall s, run_state r = Some s ->
       0 < iteration s <= i /\ due (iteration s) = true
       /\ State_X s = X0 ^ Z.shiftr e (len - iteration s) mod N) ->
    let r' := SlowExp_loop N due e (X0 mod N) len n i r in
    run_X r' = X0 ^ Z.shiftr e (len - (i + Z.of_nat n)) mod N
    /\ (forall s, run_state r' = Some s ->
          0 < iteration s <= i + Z.of_nat n /\ due (iteration s) = true
          /\ State_X s = X0 ^ Z.shiftr e (len - iteration s) mod N).
Proof.
  induction n as [|n IH]; intros i r He Hi Hlen HX Hst.
  - cbn [SlowExp_loop]. replace (i + Z.of_nat 0) with i by lia.
    split; [exact HX|exact Hst].
  - cbn [SlowExp_loop].
    assert (Hp : 0 <= Z.shiftr e (len - i)) by (apply shiftr_nonneg; exact He).
    assert (Hstep : Z.shiftr e (len - (i + 1))
                    = 2 * Z.shiftr e (len - i)
                      + Z.b2z (Z.testbit e (len - i - 1))).
    { rewrite (shiftr_bit e (len - (i + 1))) by lia.
      do 3 f_equal; lia. }
    assert (HX1 : (if Giant.bit e (len - i - 1)
                   then gw_mul N (gw_square N None (run_X r)) (X0 mod N)
                   else gw_square N None (run_X r))
                  = X0 ^ Z.shiftr e (len - (i + 1)) mod N).
    { rewrite HX, Hstep. unfold Giant.bit.
      rewrite (gw_square_pow N X0 _ false) by exact Hp. cbn [Z.b2z].
      rewrite Z.add_0_r.
      destruct (Z.testbit e (len - i - 1)); cbn [Z.b2z].
      - rewrite gw_mul_mod. rewrite Z.pow_add_r, Z.pow_1_r by lia.
        reflexivity.
      - now rewrite Z.add_0_r. }
    replace (i + Z.of_nat (S n)) with (i + 1 + Z.of_nat n) by lia.
    destruct (Giant.bit e (len - i - 1)).
    + match goal with
      | |- context [SlowExp_loop _ _ _ _ _ n (i + 1) ?r1] =>
          specialize (IH (i + 1) r1 He ltac:(lia) ltac:(lia))
      end.
      cbn [run_X run_state] in IH. apply IH; [exact HX1|].
      intros s. unfold commit_execute. destruct (due (i + 1)) eqn:Hdue.
      * intros [= <-]. cbn [iteration State_X].
        split; [lia|]. split; [exact Hdue|exact HX1].
      * intros Hs. destruct (Hst s Hs) as (Hit & Hd & HsX).
        split; [lia|]. split; [exact Hd|exact HsX].
    + match goal with
      | |- context [SlowExp_loop _ _ _ _ _ n (i + 1) ?r1] =>
          specialize (IH (i + 1) r1 He ltac:(lia) ltac:(lia))
      end.
      cbn [run_X run_state] in IH. apply IH; [exact HX1|].
      intros s. unfold commit_execute. destruct (due (i + 1)) eqn:Hdue.
      * intros [= <-]. cbn [iteration State_X].
        split; [lia|]. split; [exact Hdue|exact HX1].
      * intros Hs. destruct (Hst s Hs) as (Hit & Hd & HsX).
        split; [lia|]. split; [exact Hd|exact HsX].
Qed.

End BinaryCheckpoints.

(** X1: a [FastExp] interrupted after any number [k] of its iterations
    leaves, if a checkpoint was committed, a state at an iteration
    [1 .. k]; a task initialised with that state runs the iterations that
    remain and ends with the same residue [x0^e mod N] as the uninterrupted
    run. *)
Theorem FastExp_resume (N : Z) (due : Z -> bool) (maxmulbyconst x0 e : Z)
    (k : nat) (s : State) :
  x0 <= maxmulbyconst -> 1 <= e -> Z.of_nat k <= Giant.bitlen e - 1 ->
  run_state
    (FastExp_loop N due e x0 (Giant.bitlen e - 1) k 0
       (mkRun (GWNum_of N x0) None []))
  = Some s ->
  exists t : FastExp,
    FastExp_init maxmulbyconst (Some s) e x0 = Ok t
    /\ 1 <= iteration s <= Z.of_nat k
    /\ due (iteration s) = true
    /\ Z.of_nat (length (run_ops (FastExp_execute N due t)))
       = Giant.bitlen e - 1 - iteration s
    /\ run_X (FastExp_execute N due t) = x0 ^ e mod N.
Proof.
  intros Hx0 He Hk Hs. unfold FastExp_init.
  destruct (Z.leb_spec x0 maxmulbyconst) as [_|]; [|lia].
  eexists; split; [reflexivity|].
  rewrite bitlen_pos in * by exact He.
  pose proof (Z.log2_nonneg e) as Hlog.
  destruct (FastExp_loop_state N due e x0 (Z.log2 e) k 0
              (mkRun (GWNum_of N x0) None [])) as [_ Hst].
  - lia.
  - lia.
  - lia.
  - cbn [run_X]. rewrite Z.sub_0_r, shiftr_log2 by exact He.
    now rewrite Z.pow_1_r.
  - discriminate.
  - destruct (Hst s Hs) as (Hit & Hdue & HsX).
    split; [lia|]. split; [exact Hdue|].
    unfold FastExp_execute.
    cbn [FastExp_state FastExp_iterations FastExp_exp FastExp_x0].
    destruct (FastExp_loop_spec N due e x0 (Z.log2 e)
                (Z.to_nat (Z.log2 e - iteration s)) (iteration s)
                (mkRun (GWNum_of N (State_X s)) (Some s) []))
      as [HX Hops].
    + lia.
    + lia.
    + lia.
    + cbn [run_X]. unfold GWNum_of. rewrite HsX. apply Zmod_mod.
    + split; [|exact HX].
      rewrite Hops. cbn [run_ops app]. rewrite length_map, length_seqZ. lia.
Qed.

Lemma FastExp_resume_witness :
  exists t : FastExp,
    FastExp_init 255 (Some (mkState 2 (3 ^ 4 mod 1009))) 17 3 = Ok t
    /\ run_X (FastExp_execute 1009 (fun i => i =? 2) t) = 3 ^ 17 mod 1009.
Proof.
  destruct (FastExp_resume 1009 (fun i => i =? 2) 255 3 17 3
              (mkState 2 (3 ^ 4 mod 1009)))
    as (t & Hinit & _ & _ & _ & HX);
    [lia|lia|vm_compute; discriminate|reflexivity|].
  exists t. split; [exact Hinit|exact HX].
Defined.

(** X2: a [SlowExp] interrupted after any number [k] of its iterations
    leaves, if a checkpoint was committed, a state from which a new task
    ends with the same residue [X0^e mod N] as the uninterrupted run. *)
Theorem SlowExp_resume (N : Z) (due : Z -> bool) (X0 e : Z) (k : nat)
    (s : State) :
  1 <= e -> Z.of_nat k <= Giant.bitlen e - 1 ->
  run_state
    (SlowExp_loop N due e (GWNum_of N X0) (Giant.bitlen e - 1) k 0
       (mkRun (GWNum_of N X0) None []))
  = Some s ->
  1 <= iteration s <= Z.of_nat k
  /\ due (iteration s) = true
  /\ run_X (SlowExp_execute N due (SlowExp_init (Some s) e X0))
     = X0 ^ e mod N.
Proof.
  intros He Hk Hs. unfold SlowExp_init, SlowExp_execute.
  cbn [SlowExp_state SlowExp_iterations SlowExp_exp SlowExp_X0].
  rewrite bitlen_pos in * by exact He.
  pose proof (Z.log2_nonneg e) as Hlog.
  unfold GWNum_of in *.
  destruct (SlowExp_loop_state N due e X0 (Z.log2 e) k 0
              (mkRun (X0 mod N) None [])) as [_ Hst].
  - lia.
  - lia.
  - lia.
  - cbn [run_X]. rewrite Z.sub_0_r, shiftr_log2 by exact He.
    now rewrite Z.pow_1_r.
  - discriminate.
  - destruct (Hst s Hs) as (Hit & Hdue & HsX).
    split; [lia|]. split; [exact Hdue|].
    destruct (SlowExp_loop_spec N due e X0 (Z.log2 e)
                (Z.to_nat (Z.log2 e - iteration s)) (iteration s)
                (mkRun (State_X s mod N) (Some s) []))
      as [HX _].
    + lia.
    + lia.
    + lia.
    + cbn [run_X]. rewrite HsX. apply Zmod_mod.
    + exact HX.
Qed.

Lemma SlowExp_resume_witness :
  run_X (SlowExp_execute 1009 (fun i => i =? 2)
           (SlowExp_init (Some (mkState 2 (17 ^ 5 mod 1009))) 23 17))
  = 17 ^ 23 mod 1009.
Proof.
  destruct (SlowExp_resume 1009 (fun i => i =? 2) 17 23 3
              (mkState 2 (17 ^ 5 mod 1009))) as (_ & _ & HX);
    [lia|vm_compute; discriminate|reflexivity|exact HX].
Defined.

(** ** Saved states of MultipointExp *)

Lemma Sorted_last_lt (i n : Z) (rest : list Z) :
  Sorted Z.lt (i :: rest) -> last rest = Some n -> i < n.
Proof.
  intros Hs Hl. apply Sorted_StronglySorted in Hs; [|intros x y z; lia].
  apply StronglySorted_inv in Hs as [_ Hall].
  rewrite Forall_forall in Hall. apply Hall.
  now apply last_Some_elem_of.
Qed.

Lemma points_after_nil (i n : Z) (points : list Z) :
  Sorted Z.lt points -> last points = Some n -> n <= i ->
  points_after i points = [].
Proof.
  intros Hs Hl Hn.
  destruct (points_after_last i n points Hl) as [[Hnil _]|Hlast];
    [exact Hnil|].
  pose proof (Sorted_last_lt i n _ (points_after_sorted i points Hs) Hlast).
  lia.
Qed.

(** A run of [MultipointExp] from any saved state. *)
Lemma MultipointExp_run_from (N : Z) (due : Z -> bool) (b W_ max_size : Z)
    (on_point : bool) (U : list Z) (s : State) (n : Z) (points : list Z) :
  1 <= b -> Sorted Z.lt points -> last points = Some n ->
  exists r : mp_run,
    MultipointExp_execute N due
      (MultipointExp_init
         (mkMultipointExp b points W_ max_size on_point None U) (Some s))
    = Ok r
    /\ (iteration s < n ->
        mp_i r = n
        /\ mp_X r = State_X s ^ (b ^ (n - iteration s)) mod N
        /\ mp_state r = Some (mkState n (mp_X r))
        /\ mp_called r
           = if on_point
             then map (fun p =>
                         mkState p
                           (State_X s ^ (b ^ (p - iteration s)) mod N))
                    (points_after (iteration s) points)
             else [])
    /\ (n <= iteration s ->
        r = mkMpRun (iteration s) (GWNum_of N (State_X s)) U (Some s) (-1)
              0 []).
Proof.
  intros Hb Hsorted Hlast.
  unfold MultipointExp_init, MultipointExp_init_state, MultipointExp_execute.
  cbn [_state _b _points _W _max_size _on_point _U].
  eexists. split; [reflexivity|].
  set (t := mkMultipointExp b points W_ max_size on_point (Some s) U).
  set (r0 := mkMpRun (iteration s) (GWNum_of N (State_X s)) U (Some s) (-1)
               0 []).
  split.
  - intros Hlt.
    destruct (MultipointExp_points_spec N due t (State_X s) (iteration s) Hb
                (points_after (iteration s) points) r0)
      as (Hi & HX & Hst & Hcalled).
    + apply points_after_sorted. exact Hsorted.
    + cbn. lia.
    + cbn. rewrite Z.sub_diag, Z.pow_0_r, Z.pow_1_r. reflexivity.
    + left. reflexivity.
    + intros s' [= <-]. cbn. lia.
    + cbn [mp_i mp_called _b _on_point t r0 app] in *.
      destruct (points_after_last (iteration s) n points Hlast)
        as [[_ Hle]|Hl]; [lia|].
      rewrite Hl in Hi. cbn [default] in Hi.
      rewrite Hi in HX. split; [exact Hi|]. split; [exact HX|].
      split; [|exact Hcalled].
      rewrite Hst, Hi; [reflexivity|].
      intros Hnil. rewrite Hnil in Hl. discriminate.
  - intros Hge. rewrite (points_after_nil _ n) by assumption. reflexivity.
Qed.

Section SquaringCheckpoints.

Variable N : Z.
Variable due : Z -> bool.

(** The states the squarings commit hold the residue of their
    iteration. *)
Lemma squarings_state (a i0 : Z) (n : nat) :
  forall (i X : Z) (st : option State),
    i0 <= i -> X = a ^ (2 ^ (i - i0)) mod N ->
    (forall s, st = Some s ->
       i0 <= iteration s <= i
       /\ State_X s mod N = a ^ (2 ^ (iteration s - i0)) mod N) ->
    forall s, snd (squarings N due n i X st) = Some s ->
      i0 <= iteration s <= i + Z.of_nat n
      /\ State_X s mod N = a ^ (2 ^ (iteration s - i0)) mod N.
Proof.
  induction n as [|n IH]; intros i X st Hi HX Hst s.
  - cbn [squarings snd]. intros Hs. destruct (Hst s Hs). split; [lia|easy].
  - cbn [squarings]. intros Hs.
    assert (HX1 : gw_square N None X = a ^ (2 ^ (i + 1 - i0)) mod N).
    { rewrite HX, (gw_square_pow N a _ false)
        by (apply Z.pow_nonneg; lia).
      cbn [Z.b2z]. rewrite Z.add_0_r.
      replace (i + 1 - i0) with (1 + (i - i0)) by lia.
      now rewrite Z.pow_add_r, Z.pow_1_r by lia. }
    replace (i + Z.of_nat (S n)) with (i + 1 + Z.of_nat n) by lia.
    apply (IH (i + 1) (gw_square N None X)
             (commit_execute due (i + 1) (gw_square N None X) st)
             ltac:(lia) HX1); [|exact Hs].
    intros s'. unfold commit_execute. destruct (due (i + 1)).
    + intros [= <-]. cbn [iteration State_X]. split; [lia|].
      change ((X * X) mod N) with (gw_square N None X). rewrite HX1. apply Zmod_mod.
    + intros Hs'. destruct (Hst s' Hs'). split; [lia|easy].
Qed.

End SquaringCheckpoints.

(** X3: [MultipointExp] started from a saved state [State{i, Y}] before
    the last point [n] ends at [n] with the residue [Y^(b^(n - i)) mod N],
    holds the state [State{n, X}] and has called [_on_point] at the points
    above [i] only; from the state an uninterrupted run holds at [i], that
    is [X^(b^n) mod N].  From a state at or past the last point it performs
    no operation and no call, and keeps the state. *)
Theorem MultipointExp_resume (N : Z) (due : Z -> bool) (b W_ max_size : Z)
    (on_point : bool) (U : list Z) (s : State) (n : Z) (points : list Z) :
  1 <= b -> Sorted Z.lt points -> last points = Some n ->
  exists r : mp_run,
    MultipointExp_execute N due
      (MultipointExp_init
         (mkMultipointExp b points W_ max_size on_point None U) (Some s))
    = Ok r
    /\ (iteration s < n ->
        mp_i r = n
        /\ mp_X r = State_X s ^ (b ^ (n - iteration s)) mod N
        /\ (forall X, 0 <= iteration s ->
              State_X s = X ^ (b ^ iteration s) mod N ->
              mp_X r = X ^ (b ^ n) mod N)
        /\ mp_state r = Some (mkState n (mp_X r))
        /\ (on_point = true ->
            map iteration (mp_called r) = points_after (iteration s) points))
    /\ (n <= iteration s ->
        mp_i r = iteration s /\ mp_X r = State_X s mod N
        /\ mp_state r = Some s /\ mp_called r = []).
Proof.
  intros Hb Hsorted Hlast.
  destruct (MultipointExp_run_from N due b W_ max_size on_point U s n points
              Hb Hsorted Hlast) as (r & Hr & Hlt & Hge).
  exists r. split; [exact Hr|]. split.
  - intros Hn. destruct (Hlt Hn) as (Hi & HX & Hst & Hcalled).
    split; [exact Hi|]. split; [exact HX|]. split; [|split; [exact Hst|]].
    + intros X Hi0 HsX. rewrite HX, HsX, pow_mod_base.
      rewrite <- Z.pow_mul_r by (apply Z.pow_nonneg; lia).
      rewrite <- Z.pow_add_r by lia. do 3 f_equal. lia.
    + intros ->. rewrite Hcalled, map_map. cbn [iteration]. apply map_id.
  - intros Hn. rewrite (Hge Hn). repeat split.
Qed.

Lemma MultipointExp_resume_witness :
  exists r : mp_run,
    MultipointExp_execute 1009 (fun _ => false)
      (MultipointExp_init (mkMultipointExp 3 [1; 2; 4] (-1) (-1) true None [])
         (Some (mkState 2 (2 ^ (3 ^ 2) mod 1009))))
    = Ok r
    /\ mp_X r = 2 ^ (3 ^ 4) mod 1009
    /\ map iteration (mp_called r) = [4].
Proof.
  destruct (MultipointExp_resume 1009 (fun _ => false) 3 (-1) (-1) true []
              (mkState 2 (2 ^ (3 ^ 2) mod 1009)) 4 [1; 2; 4])
    as (r & Hr & Hlt & _).
  - lia.
  - repeat constructor.
  - reflexivity.
  - exists r. split; [exact Hr|].
    destruct Hlt as (_ & _ & HX & _ & Hcalled); [cbn; lia|].
    split; [apply HX; [cbn; lia|reflexivity]|apply Hcalled; reflexivity].
Defined.

(** X4: for [b = 2], the state that [MultipointExp] holds after any number
    [k] of the squarings towards its next point [p], whether the state it
    started from or one committed on the way, lets a new task end with the
    same residue. *)
Theorem MultipointExp_checkpoint (N : Z) (due : Z -> bool) (W_ max_size : Z)
    (on_point : bool) (U : list Z) (s0 s : State) (k : nat) (n p : Z)
    (points rest : list Z) :
  Sorted Z.lt points -> last points = Some n ->
  points_after (iteration s0) points = p :: rest ->
  iteration s0 + Z.of_nat k <= p ->
  snd (squarings N due k (iteration s0) (GWNum_of N (State_X s0)) (Some s0))
  = Some s ->
  exists r0 r : mp_run,
    MultipointExp_execute N due
      (MultipointExp_init
         (mkMultipointExp 2 points W_ max_size on_point None U) (Some s0))
    = Ok r0
    /\ MultipointExp_execute N due
         (MultipointExp_init
            (mkMultipointExp 2 points W_ max_size on_point None U) (Some s))
       = Ok r
    /\ iteration s0 <= iteration s <= iteration s0 + Z.of_nat k
    /\ mp_X r = mp_X r0.
Proof.
  intros Hsorted Hlast Hnext Hkp Hs.
  assert (Hk : iteration s0 + Z.of_nat k <= n).
  { destruct (points_after_last (iteration s0) n points Hlast)
      as [[Hnil _]|Hl]; [congruence|].
    pose proof (points_after_sorted (iteration s0) points Hsorted) as Hs'.
    rewrite Hnext in Hl, Hs'. apply Sorted_inv in Hs' as [Hs' _].
    destruct rest as [|q rest'].
    - cbn in Hl. injection Hl as <-. exact Hkp.
    - rewrite last_cons_cons in Hl.
      pose proof (Sorted_last_lt p n _ Hs' Hl). lia. }
  destruct (squarings_state N due (State_X s0) (iteration s0) k (iteration s0)
              (GWNum_of N (State_X s0)) (Some s0)) with (s := s)
    as [Hit HsX].
  - lia.
  - rewrite Z.sub_diag, Z.pow_0_r, Z.pow_1_r. reflexivity.
  - intros s' [= <-]. split; [lia|].
    now rewrite Z.sub_diag, Z.pow_0_r, Z.pow_1_r.
  - exact Hs.
  - destruct (MultipointExp_run_from N due 2 W_ max_size on_point U s0 n
                points ltac:(lia) Hsorted Hlast) as (r0 & Hr0 & Hlt0 & Hge0).
    destruct (MultipointExp_run_from N due 2 W_ max_size on_point U s n
                points ltac:(lia) Hsorted Hlast) as (r & Hr & Hlt & Hge).
    exists r0, r. split; [exact Hr0|]. split; [exact Hr|].
    split; [exact Hit|].
    assert (HX0 : mp_X r0 = State_X s0 ^ (2 ^ (n - iteration s0)) mod N).
    { destruct (Z.lt_ge_cases (iteration s0) n) as [Hn|Hn].
      - now destruct (Hlt0 Hn) as (_ & HX & _).
      - rewrite (Hge0 Hn). cbn [mp_X]. unfold GWNum_of.
        replace (n - iteration s0) with 0 by lia.
        now rewrite Z.pow_0_r, Z.pow_1_r. }
    assert (HX : mp_X r = State_X s ^ (2 ^ (n - iteration s)) mod N).
    { destruct (Z.lt_ge_cases (iteration s) n) as [Hn|Hn].
      - now destruct (Hlt Hn) as (_ & HX & _).
      - rewrite (Hge Hn). cbn [mp_X]. unfold GWNum_of.
        replace (n - iteration s) with 0 by lia.
        now rewrite Z.pow_0_r, Z.pow_1_r. }
    rewrite HX, HX0, <- pow_mod_base, HsX, pow_mod_base.
    rewrite <- Z.pow_mul_r by (apply Z.pow_nonneg; lia).
    rewrite <- Z.pow_add_r by lia. do 3 f_equal. lia.
Qed.

Lemma MultipointExp_checkpoint_witness :
  exists r0 r : mp_run,
    MultipointExp_execute 1009 (fun i => i =? 3)
      (MultipointExp_init (mkMultipointExp 2 [5; 9] (-1) (-1) false None [])
         (Some (mkState 0 3)))
    = Ok r0
    /\ MultipointExp_execute 1009 (fun i => i =? 3)
         (MultipointExp_init (mkMultipointExp 2 [5; 9] (-1) (-1) false None [])
            (Some (mkState 3 (3 ^ 8 mod 1009))))
       = Ok r
    /\ mp_X r = mp_X r0.
Proof.
  destruct (MultipointExp_checkpoint 1009 (fun i => i =? 3) (-1) (-1) false
              [] (mkState 0 3) (mkState 3 (3 ^ 8 mod 1009)) 4 9 5 [5; 9] [9])
    as (r0 & r & Hr0 & Hr & _ & HX).
  - repeat constructor.
  - reflexivity.
  - reflexivity.
  - cbn. lia.
  - reflexivity.
  - exists r0, r. repeat split; assumption.
Defined.

(** ** The sliding window on its own *)

Lemma length_U_emplace_max (U : list Z) (i : nat) :
  (i <= length U)%nat -> length (U_emplace U i) = Nat.max (length U) (S i).
Proof.
  intros Hi. unfold U_emplace.
  destruct (Nat.leb_spec (length U) i); [rewrite length_app; cbn|]; lia.
Qed.

Lemma length_table_loop (N : Z) (n : nat) :
  forall (i : nat) (X2 : Z) (U : list Z),
    (i <= length U)%nat ->
    length (table_loop N n i X2 U) = Nat.max (length U) (i + n).
Proof.
  induction n as [|n IH]; intros i X2 U Hi; cbn [table_loop]; [lia|].
  rewrite IH; rewrite length_insert, length_U_emplace_max by exact Hi; lia.
Qed.

Lemma length_window_table (N W : Z) (U : list Z) (X : Z) :
  1 <= W ->
  Z.of_nat (length (fst (window_table N W U X)))
  = Z.max (Z.of_nat (length U)) (2 ^ (W - 1)).
Proof.
  intros HW. unfold window_table. cbn [fst].
  rewrite length_table_loop;
    rewrite length_insert, length_U_emplace_max by lia; [|lia].
  rewrite Z.shiftl_1_l.
  assert (0 < 2 ^ (W - 1)) by (apply Z.pow_pos_nonneg; lia). lia.
Qed.

(** X5: for every exponent [e >= 1], [sliding_window] leaves [X^e mod N]
    in [X], whatever the bounds [_W] and [_max_size] and whatever the table
    [_U] held before; with the width [W] it chose, the table holds the odd
    powers [_U[k] = X^(2k+1) mod N] for [k < 2^(W-1)], and it has grown to
    [2^(W-1)] entries only if it was shorter. *)
Theorem sliding_window_power (N W_ max_size e : Z) (U : list Z) (X : Z) :
  1 <= e -> X mod N = X ->
  let W := window_width W_ max_size (Giant.bitlen e - 1) in
  let U' := fst (sliding_window N W_ max_size e U X) in
  snd (sliding_window N W_ max_size e U X) = X ^ e mod N
  /\ (forall (W_' max_size' : Z) (V : list Z),
        snd (sliding_window N W_' max_size' e V X)
        = snd (sliding_window N W_ max_size e U X))
  /\ (forall k, 0 <= k < 2 ^ (W - 1) ->
        U_at U' (Z.to_nat k) = X ^ (2 * k + 1) mod N)
  /\ Z.of_nat (length U') = Z.max (Z.of_nat (length U)) (2 ^ (W - 1)).
Proof.
  intros He HX W U'.
  split; [now apply sliding_window_spec|].
  split; [intros; now rewrite !sliding_window_spec|].
  subst U' W. unfold sliding_window.
  pose proof (window_width_range W_ max_size (Giant.bitlen e - 1)) as HW.
  set (W := window_width W_ max_size (Giant.bitlen e - 1)) in *.
  destruct (window_table_spec N W U X ltac:(lia) HX) as [_ HU].
  pose proof (length_window_table N W U X ltac:(lia)) as Hlen.
  destruct (window_table N W U X) as [U' X2]. cbn [fst snd] in *.
  split; [exact HU|exact Hlen].
Qed.

Lemma sliding_window_power_witness :
  snd (sliding_window 1009 (-1) (-1) 1000 [] 5) = 5 ^ 1000 mod 1009
  /\ snd (sliding_window 1009 3 64 1000 [7; 7; 7; 7; 7; 7] 5)
     = snd (sliding_window 1009 (-1) (-1) 1000 [] 5).
Proof.
  destruct (sliding_window_power 1009 (-1) (-1) 1000 [] 5)
    as (HX & Hany & _); [lia|reflexivity|].
  split; [exact HX|apply Hany].
Defined.

(** X6: for the exponent 0, which has no bit, [sliding_window] does not
    return [X^0 = 1]: it builds the table, walks no bit and leaves the
    square of [X] that the table was built from. *)
Theorem sliding_window_exponent_zero (N W_ max_size : Z) (U : list Z)
    (X : Z) :
  snd (sliding_window N W_ max_size 0 U X) = (X * X) mod N
  /\ U_at (fst (sliding_window N W_ max_size 0 U X)) 0 = X
  /\ U_at (fst (sliding_window N W_ max_size 0 U X)) 1
     = ((X * X) mod N * X) mod N.
Proof.
  unfold sliding_window. change (Giant.bitlen 0 - 1) with (-1).
  assert (HW : window_width W_ max_size (-1) = 2).
  { unfold window_width. cbn [window_loop]. unfold window_continue.
    replace (window_cost_drops 2 (-1)) with false by (vm_compute; reflexivity).
    now rewrite andb_false_r. }
  rewrite HW. unfold window_table. cbn [fst snd].
  change (Z.to_nat (Z.shiftl 1 (2 - 1) - 1)) with 1%nat.
  change (Z.to_nat (-1 + 1)) with 0%nat. cbn [window_walk table_loop].
  pose proof (length_U_emplace U 0 ltac:(lia)) as Hlen.
  rewrite U_at_insert_eq by exact Hlen.
  split; [reflexivity|].
  assert (Hlen1 : (1 < length (U_emplace (<[0%nat := X]> (U_emplace U 0)) 1))%nat).
  { apply length_U_emplace. rewrite length_insert. lia. }
  split.
  - rewrite U_at_insert_ne by lia. rewrite U_at_emplace
      by (rewrite length_insert; lia).
    now rewrite U_at_insert_eq.
  - rewrite U_at_insert_eq by exact Hlen1.
    change (1 - 1)%nat with 0%nat.
    rewrite U_at_emplace by (rewrite length_insert; lia).
    rewrite U_at_insert_eq by exact Hlen. reflexivity.
Qed.

(** ** What the check detects *)

(** X7: if a block passes the check with the working residue [X], then
    with [X] replaced by [X + delta] it does not, whenever
    [delta * D != 0 (mod N)] for the accumulator [D] before the last fold:
    the restart exception is raised and the recovery state is kept.  For a
    prime [N] that is every [delta != 0 (mod N)]. *)
Theorem Gerbicz_check_detects (N : Z) (t : GerbiczCheckMultipointExp)
    (L delta : Z) (r r' : grun) :
  1 <= G_b t -> 0 <= L -> g_D r mod N = g_D r ->
  (g_last_power r = -1 \/ g_exp r = G_b t ^ g_last_power r) ->
  Gerbicz_check N t L r = Ok r' ->
  let bad :=
    mkGrun (g_i r) (g_next_point r) (g_last_power r) (g_exp r)
      ((g_X r + delta) mod N) (g_D r) (g_R r) (g_U r) (g_state r)
      (g_state_recovery r) (g_recovery_op r) (g_restart_op r)
      (g_restart_count r) (g_called r) in
  ((delta * g_D r) mod N <> 0 ->
   exists r'', Gerbicz_check N t L bad = TaskRestart r''
               /\ g_state_recovery r'' = g_state_recovery r
               /\ g_R r'' = g_R r)
  /\ (Z.prime N -> delta mod N <> 0 ->
      exists r'', Gerbicz_check N t L bad = TaskRestart r'').
Proof.
  intros Hb HL HD Hcache Hok bad.
  destruct (Gerbicz_check_unfold N t L r Hb HL HD Hcache)
    as (U & lp & exp & _ & Heq).
  rewrite Heq in Hok.
  destruct (Z.eqb_spec
              ((g_R r * g_D r ^ (G_b t ^ L) - g_X r * g_D r) mod N) 0)
    as [HT|HT]; [|discriminate].
  destruct (Z.eqb_spec ((g_X r * g_D r) mod N) 0) as [HD0|HD0];
    [discriminate|]. clear Heq Hok.
  destruct (Gerbicz_check_unfold N t L bad Hb HL HD Hcache)
    as (U2 & lp2 & exp2 & _ & Heq2).
  cbn [g_R g_D g_X g_i g_next_point g_state_recovery g_recovery_op
       g_restart_op g_restart_count g_called bad] in Heq2.
  assert (Hdet : (delta * g_D r) mod N <> 0 ->
                 (g_R r * g_D r ^ (G_b t ^ L)
                  - (g_X r + delta) mod N * g_D r) mod N <> 0).
  { intros Hdelta Hzero. apply Hdelta.
    rewrite Zminus_mod, Zmult_mod_idemp_l, <- Zminus_mod in Hzero.
    replace (g_R r * g_D r ^ (G_b t ^ L) - (g_X r + delta) * g_D r)
      with ((g_R r * g_D r ^ (G_b t ^ L) - g_X r * g_D r)
            - delta * g_D r) in Hzero by ring.
    rewrite Zminus_mod, HT, Z.sub_0_l in Hzero.
    destruct (Z.eq_dec N 0) as [->|HN].
    - rewrite !Z.mod_0_r in *. lia.
    - apply Z.mod_divide in Hzero; [|exact HN].
      apply Z.divide_opp_r in Hzero. rewrite Z.opp_involutive in Hzero.
      apply Z.mod_divide in Hzero; [|exact HN].
      now rewrite Zmod_mod in Hzero. }
  split.
  - intros Hdelta. specialize (Hdet Hdelta).
    destruct (Z.eqb_spec
                ((g_R r * g_D r ^ (G_b t ^ L)
                  - (g_X r + delta) mod N * g_D r) mod N) 0)
      as [HT2|_]; [contradiction|].
    cbn [negb orb] in Heq2. eexists. split; [exact Heq2|].
    split; reflexivity.
  - intros Hprime Hdelta.
    assert (Hnz : (delta * g_D r) mod N <> 0).
    { intros Hz. pose proof (Z.prime_ge_2 N Hprime) as HN.
      apply Z.mod_divide in Hz; [|lia].
      apply (Z.divide_prime_mul _ _ _ Hprime) in Hz.
      destruct Hz as [Hz|Hz]; apply Z.mod_divide in Hz; try lia.
      apply HD0. now rewrite <- Zmult_mod_idemp_r, Hz, Z.mul_0_r. }
    specialize (Hdet Hnz).
    destruct (Z.eqb_spec
                ((g_R r * g_D r ^ (G_b t ^ L)
                  - (g_X r + delta) mod N * g_D r) mod N) 0)
      as [HT2|_]; [contradiction|].
    cbn [negb orb] in Heq2. eexists. exact Heq2.
Qed.

Lemma Gerbicz_check_detects_witness :
  exists r'' : grun,
    Gerbicz_check 1009
      (mkGerbicz 2 [4] (-1) (-1) true 2 4 (Some (TaskState_at 0))
         (Some (mkState 0 3)) (Some 3) [] 7 9 1 [])
      2
      (mkGrun 4 0 (-1) 0 764 243 3 [] (TaskState_at 0) (mkState 0 3) 7 9 1 [])
    = TaskRestart r''
    /\ g_state_recovery r'' = mkState 0 3.
Proof.
  destruct (Gerbicz_check_detects 1009
              (mkGerbicz 2 [4] (-1) (-1) true 2 4 (Some (TaskState_at 0))
                 (Some (mkState 0 3)) (Some 3) [] 7 9 1 [])
              2 1
              (mkGrun 4 0 (-1) 0 763 243 3 [] (TaskState_at 0) (mkState 0 3)
                 7 9 1 [])
              (mkGrun 4 1 (-1) 0 763 763 763 [] (TaskState_at 4)
                 (mkState 4 763) 9 9 0 [4]))
    as [Hdet _].
  - cbn. lia.
  - lia.
  - reflexivity.
  - left. reflexivity.
  - reflexivity.
  - destruct Hdet as (r'' & Hr & Hrec & _); [vm_compute; discriminate|].
    exists r''. split; [exact Hr|exact Hrec].
Defined.

(** ** The cursor over the points *)

Lemma points_passed_range (i : Z) (points : list Z) :
  0 <= points_passed i points <= Z.of_nat (length points).
Proof.
  induction points as [|p rest IH]; cbn [points_passed length]; [lia|].
  destruct (p <=? i); lia.
Qed.

Lemma point_at_cons (p : Z) (rest : list Z) (k : Z) :
  0 <= k -> point_at (p :: rest) (1 + k) = point_at rest k.
Proof.
  intros Hk. unfold point_at.
  replace (Z.to_nat (1 + k)) with (S (Z.to_nat k)) by lia. reflexivity.
Qed.

Lemma point_at_lookup (points : list Z) (k : Z) :
  0 <= k < Z.of_nat (length points) ->
  points !! Z.to_nat k = Some (point_at points k).
Proof.
  intros Hk. unfold point_at.
  destruct (lookup_lt_is_Some_2 points (Z.to_nat k) ltac:(lia)) as [x ->].
  reflexivity.
Qed.

(** The first point that is not passed lies above [i]. *)
Lemma points_passed_next (i : Z) (points : list Z) :
  points_passed i points < Z.of_nat (length points) ->
  i < point_at points (points_passed i points).
Proof.
  induction points as [|p rest IH]; cbn [points_passed length]; [lia|].
  pose proof (points_passed_range i rest) as Hr.
  destruct (Z.leb_spec p i) as [Hle|Hlt].
  - intros Hlen. rewrite point_at_cons by lia. apply IH. lia.
  - intros _. exact Hlt.
Qed.

(** In a strictly increasing schedule the cursor moves by one when the
    iteration reaches the next point, and stays below it. *)
Lemma points_passed_reach (i i' : Z) (points : list Z) :
  Sorted Z.lt points ->
  points_passed i points < Z.of_nat (length points) ->
  point_at points (points_passed i points) = i' ->
  points_passed i' points = points_passed i points + 1.
Proof.
  induction points as [|p rest IH]; cbn [points_passed length]; [lia|].
  intros Hs. apply Sorted_inv in Hs as [Hs Hhd].
  pose proof (points_passed_range i rest) as Hr.
  destruct (Z.leb_spec p i) as [Hle|Hlt].
  - intros Hlen. rewrite point_at_cons by lia. intros Hp.
    pose proof (points_passed_next i rest ltac:(lia)) as Hnext.
    destruct (Z.leb_spec p i'); [|lia].
    rewrite (IH Hs ltac:(lia) Hp). lia.
  - intros _. change (point_at (p :: rest) 0) with p. intros <-.
    destruct (Z.leb_spec p p); [|lia].
    destruct rest as [|q rest']; [reflexivity|].
    apply HdRel_inv in Hhd. cbn [points_passed].
    destruct (Z.leb_spec q p); [lia|reflexivity].
Qed.

Lemma points_passed_below (i i' : Z) (points : list Z) :
  i <= i' ->
  points_passed i points = Z.of_nat (length points)
  \/ i' < point_at points (points_passed i points) ->
  points_passed i' points = points_passed i points.
Proof.
  intros Hi.
  induction points as [|p rest IH]; cbn [points_passed length]; [reflexivity|].
  pose proof (points_passed_range i rest) as Hr.
  destruct (Z.leb_spec p i) as [Hle|Hlt].
  - destruct (Z.leb_spec p i') as [_|Hp]; [|lia].
    rewrite point_at_cons by lia. intros Hc. rewrite IH; [reflexivity|].
    destruct Hc as [Hc|Hc]; [left; lia|right; exact Hc].
  - change (point_at (p :: rest) 0) with p. intros [Hc|Hc]; [lia|].
    destruct (Z.leb_spec p i') as [Hp|_]; [lia|reflexivity].
Qed.

(** The cursor is at the end exactly when the last point is passed. *)
Lemma points_passed_end (i n : Z) (points : list Z) :
  Sorted Z.lt points -> last points = Some n -> n <= i ->
  points_passed i points = Z.of_nat (length points).
Proof.
  intros Hs Hl Hn.
  induction points as [|p rest IH]; [reflexivity|].
  cbn [points_passed length].
  destruct rest as [|q rest'].
  - cbn in Hl. injection Hl as <-.
    destruct (Z.leb_spec p i); [reflexivity|lia].
  - pose proof (Sorted_inv Hs) as [Hs' _].
    rewrite last_cons_cons in Hl.
    assert (p < n).
    { apply Sorted_StronglySorted in Hs; [|intros x y z; lia].
      apply StronglySorted_inv in Hs as [_ Hall].
      rewrite Forall_forall in Hall. apply Hall.
      now apply last_Some_elem_of. }
    destruct (Z.leb_spec p i); [|lia].
    rewrite (IH Hs' Hl). cbn [length]. lia.
Qed.

Lemma points_passed_more (i n : Z) (points : list Z) :
  last points = Some n -> i < n ->
  points_passed i points < Z.of_nat (length points).
Proof.
  intros Hl Hn.
  induction points as [|p rest IH]; [discriminate|].
  cbn [points_passed length].
  destruct (Z.leb_spec p i); [|lia].
  destruct rest as [|q rest'].
  - cbn in Hl. injection Hl as <-. lia.
  - rewrite last_cons_cons in Hl. specialize (IH Hl). cbn [length] in *. lia.
Qed.

Lemma points_after_drop (i : Z) (points : list Z) :
  points_after i points = drop (Z.to_nat (points_passed i points)) points.
Proof.
  induction points as [|p rest IH]; cbn [points_after points_passed];
    [reflexivity|].
  pose proof (points_passed_range i rest) as Hr.
  destruct (p <=? i); [|reflexivity].
  replace (Z.to_nat (1 + points_passed i rest))
    with (S (Z.to_nat (points_passed i rest))) by lia.
  exact IH.
Qed.

(** ** The points met inside a block *)

Section BlockPoints.

Variable N : Z.
Variable due : Z -> bool.
Variable t : GerbiczCheckMultipointExp.
Variable last_point : Z.

Hypothesis points_sorted : Sorted Z.lt (G_points t).
Hypothesis points_last : last (G_points t) = Some last_point.

(** The cursor and the calls after the point test at iteration [i']. *)
Lemma cursor_step (i i' : Z) (called : list Z) :
  i < i' <= last_point ->
  (forall p, elem_of p (G_points t) -> ~ i < p < i') ->
  let np := points_passed i (G_points t) in
  points_passed i' (G_points t)
  = (if i' =? point_at (G_points t) np then np + 1 else np)
  /\ (if i' =? point_at (G_points t) np
      then call_on_point (G_on_point t) called i'
      else called)
     ++ points_pending t (points_passed i' (G_points t))
     = called ++ points_pending t np.
Proof.
  intros Hi Hgap np.
  pose proof (points_passed_range i (G_points t)) as Hrange.
  pose proof (points_passed_more i last_point _ points_last ltac:(lia))
    as Hmore.
  pose proof (points_passed_next i _ Hmore) as Hnext.
  pose proof (point_at_lookup (G_points t) np ltac:(subst np; lia)) as Hlook.
  fold np in Hrange, Hmore, Hnext.
  destruct (Z.eqb_spec i' (point_at (G_points t) np)) as [Heq|Hne].
  - rewrite (points_passed_reach i i' _ points_sorted Hmore (eq_sym Heq)).
    fold np. split; [reflexivity|].
    unfold points_pending, call_on_point.
    destruct (G_on_point t); [|reflexivity].
    replace (Z.to_nat (np + 1)) with (S (Z.to_nat np)) by lia.
    rewrite <- app_assoc. cbn [app]. f_equal.
    rewrite Heq. symmetry. apply drop_S. exact Hlook.
  - assert (Habove : i' < point_at (G_points t) np).
    { destruct (Z.lt_ge_cases i' (point_at (G_points t) np)) as [|Hle];
        [assumption|].
      exfalso. apply (Hgap (point_at (G_points t) np)); [|lia].
      eapply list_elem_of_lookup_2. exact Hlook. }
    rewrite (points_passed_below i i' (G_points t) ltac:(lia));
      [fold np; split; reflexivity|right; exact Habove].
Qed.

(** No point lies strictly between [i] and [i + 1]. *)
Lemma block_squarings_points (L L2 : Z) (n : nat) :
  forall (j : Z) (r : grun),
    j + Z.of_nat (S n) = L2 ->
    g_i r + Z.of_nat (S n) <= last_point ->
    g_next_point r = points_passed (g_i r) (G_points t) ->
    let r' := block_squarings N due t L L2 (S n) j r in
    g_next_point r' = points_passed (g_i r + Z.of_nat n) (G_points t)
    /\ g_called r' ++ points_pending t (g_next_point r')
       = g_called r ++ points_pending t (g_next_point r).
Proof.
  induction n as [|n IH]; intros j r Hj Hi Hnp.
  - cbn [block_squarings].
    destruct (Z.eqb_spec (j + 1) L2) as [_|Hne]; [|lia].
    cbn [negb andb g_next_point g_called]. rewrite Z.add_0_r.
    split; [exact Hnp|reflexivity].
  - remember (S n) as n1 eqn:Hn1. cbn [block_squarings].
    destruct (Z.eqb_spec (j + 1) L2) as [Heq|_]; [lia|].
    cbn [negb andb].
    destruct (cursor_step (g_i r) (g_i r + 1) (g_called r) ltac:(lia)
                ltac:(intros; lia)) as [Hcur Hcalled].
    rewrite <- Hnp in Hcur, Hcalled.
    match goal with
    | |- context [block_squarings _ _ _ _ _ n1 (j + 1) ?r1] =>
        specialize (IH (j + 1) r1)
    end.
    cbn [g_i g_next_point g_called] in IH. subst n1.
    destruct IH as [IHnp IHcalled]; [lia|lia| |].
    + rewrite Hcur. reflexivity.
    + split.
      * rewrite IHnp. f_equal. lia.
      * rewrite IHcalled. rewrite <- Hcalled, Hcur. reflexivity.
Qed.

Lemma block_windows_points (L L2 : Z) (d : nat) :
  forall (fuel : nat) (j : Z) (r : grun),
    1 <= L -> j + Z.of_nat (S d) * L = L2 -> L2 - j <= Z.of_nat fuel ->
    (forall p, elem_of p (G_points t) ->
       g_i r < p < g_i r + Z.of_nat (S d) * L -> (L | p - g_i r)) ->
    g_i r + Z.of_nat (S d) * L <= last_point ->
    g_next_point r = points_passed (g_i r) (G_points t) ->
    let r' := block_windows N due t L L2 fuel j r in
    g_next_point r'
    = points_passed (g_i r + Z.of_nat (S d) * L - 1) (G_points t)
    /\ g_called r' ++ points_pending t (g_next_point r')
       = g_called r ++ points_pending t (g_next_point r).
Proof.
  induction d as [|d IH]; intros fuel j r HL Hj Hfuel Hgap Hi Hnp.
  - destruct fuel as [|fuel]; [lia|]. cbn [block_windows].
    destruct (Z.ltb_spec j L2) as [_|]; [|lia].
    destruct (power_cache _ _ _ _) as [last_power exp].
    destruct (sliding_window _ _ _ _ _ _) as [U X].
    destruct (Z.eqb_spec (j + L) L2) as [_|Hne]; [|lia].
    cbn [negb andb]. rewrite block_windows_done by lia.
    cbn [g_next_point g_called]. split; [|reflexivity].
    rewrite Hnp. symmetry. apply points_passed_below; [lia|].
    pose proof (points_passed_more (g_i r) last_point _ points_last
                  ltac:(lia)) as Hmore.
    pose proof (points_passed_next (g_i r) _ Hmore) as Hnext.
    pose proof (points_passed_range (g_i r) (G_points t)) as Hrange.
    pose proof (point_at_lookup (G_points t)
                  (points_passed (g_i r) (G_points t)) ltac:(lia)) as Hlook.
    right.
    destruct (Z.lt_ge_cases (g_i r + Z.of_nat 1 * L - 1)
                (point_at (G_points t) (points_passed (g_i r) (G_points t))))
      as [|Hle]; [assumption|].
    exfalso.
    destruct (Hgap (point_at (G_points t)
                      (points_passed (g_i r) (G_points t)))) as [c Hc].
    + eapply list_elem_of_lookup_2. exact Hlook.
    + lia.
    + change (Z.of_nat 1) with 1 in Hle.
      assert (Hc' : 0 < c * L < L) by lia.
      clear - Hc' HL. destruct (Z.le_gt_cases c 0); nia.
  - destruct fuel as [|fuel]; [nia|]. cbn [block_windows].
    destruct (Z.ltb_spec j L2) as [_|]; [|nia].
    destruct (power_cache _ _ _ _) as [last_power exp].
    destruct (sliding_window _ _ _ _ _ _) as [U X].
    destruct (Z.eqb_spec (j + L) L2) as [Heq|_]; [nia|].
    cbn [negb andb].
    destruct (cursor_step (g_i r) (g_i r + L) (g_called r) ltac:(nia))
      as [Hcur Hcalled].
    { intros p Hp Hin. destruct (Hgap p Hp ltac:(nia)) as [c Hc].
      assert (Hc' : 0 < c * L < L) by lia. clear - Hc' HL. destruct (Z.le_gt_cases c 0); nia. }
    rewrite <- Hnp in Hcur, Hcalled.
    match goal with
    | |- context [block_windows _ _ _ _ _ fuel (j + L) ?r1] =>
        specialize (IH fuel (j + L) r1 HL)
    end.
    cbn [g_i g_next_point g_called] in IH.
    destruct IH as [IHnp IHcalled].
    + lia.
    + lia.
    + intros p Hp Hin. destruct (Hgap p Hp ltac:(lia)) as [c Hc].
      exists (c - 1). lia.
    + lia.
    + rewrite Hcur. reflexivity.
    + split.
      * rewrite IHnp. f_equal. lia.
      * rewrite IHcalled. rewrite <- Hcalled, Hcur. reflexivity.
Qed.

End BlockPoints.

(** ** Blocks up to the last point *)

Lemma Sorted_le_last (n x : Z) (points : list Z) :
  Sorted Z.lt points -> last points = Some n -> elem_of x points -> x <= n.
Proof.
  induction points as [|p rest IH]; intros Hs Hl Hx; [discriminate|].
  destruct rest as [|q rest'].
  - cbn in Hl. injection Hl as <-.
    apply list_elem_of_singleton in Hx. lia.
  - rewrite last_cons_cons in Hl.
    apply elem_of_cons in Hx as [->|Hx].
    + pose proof (Sorted_last_lt p n _ Hs Hl). lia.
    + apply Sorted_inv in Hs as [Hs _]. now apply IH.
Qed.

(** The point under the cursor is the least point above [i]. *)
Lemma points_passed_least (i q : Z) (points : list Z) :
  Sorted Z.lt points -> elem_of q points -> i < q ->
  point_at points (points_passed i points) <= q.
Proof.
  induction points as [|p rest IH]; intros Hs Hq Hi.
  - apply elem_of_nil in Hq. contradiction.
  - cbn [points_passed].
    pose proof (points_passed_range i rest) as Hr.
    pose proof Hs as Hs0. apply Sorted_inv in Hs as [Hs Hhd].
    destruct (Z.leb_spec p i) as [Hle|Hlt].
    + rewrite point_at_cons by lia.
      apply elem_of_cons in Hq as [->|Hq]; [lia|]. now apply IH.
    + change (point_at (p :: rest) 0) with p.
      apply elem_of_cons in Hq as [->|Hq]; [lia|].
      apply Sorted_StronglySorted in Hs0; [|intros x y z; lia].
      apply StronglySorted_inv in Hs0 as [_ Hall].
      rewrite Forall_forall in Hall. specialize (Hall q Hq). lia.
Qed.

(** After a halving the block length is the square of [L], and the
    halving goes on until the block fits before the next point. *)
Lemma block_size_square (dist : Z) (fuel : nat) :
  forall L last_power : Z,
    1 <= dist -> 1 <= L <= Z.of_nat fuel ->
    let '(_, L2', _) := block_size fuel dist L (L * L) last_power in
    L2' <= dist.
Proof.
  induction fuel as [|fuel IH]; intros L last_power Hd HL; [lia|].
  cbn [block_size].
  destruct (Z.ltb_spec dist (L * L)) as [Hlt|Hge];
    destruct (Z.ltb_spec 1 L) as [HL1|HL1]; cbn [andb]; try lia.
  - apply IH; [exact Hd|].
    rewrite Z.quot_div_nonneg by lia.
    pose proof (Z.div_mod L 2 ltac:(lia)).
    pose proof (Z.mod_pos_bound L 2 ltac:(lia)). lia.
  - nia.
Qed.

Lemma block_size_fits (dist : Z) (fuel : nat) (L L2 last_power : Z) :
  1 <= dist -> 1 <= L <= Z.of_nat fuel ->
  let '(L', L2', _) := block_size fuel dist L L2 last_power in
  L2' <= dist \/ (L = 1 /\ L' = 1 /\ L2' = L2).
Proof.
  intros Hd HL. destruct fuel as [|fuel]; [lia|].
  cbn [block_size].
  destruct (Z.ltb_spec dist L2) as [Hlt|Hge];
    destruct (Z.ltb_spec 1 L) as [HL1|HL1]; cbn [andb];
    try (left; lia); try (right; lia).
  pose proof (block_size_square dist fuel (Z.quot L 2) (-1) Hd) as Hsq.
  destruct (block_size fuel dist _ _ _) as [[L' L2'] lp].
  left. apply Hsq.
  rewrite Z.quot_div_nonneg by lia.
  pose proof (Z.div_mod L 2 ltac:(lia)).
  pose proof (Z.mod_pos_bound L 2 ltac:(lia)). lia.
Qed.

Lemma block_size_one (dist : Z) (fuel : nat) (L2 last_power : Z) :
  block_size fuel dist 1 L2 last_power = (1, L2, last_power).
Proof.
  destruct fuel as [|fuel]; [reflexivity|]. cbn [block_size].
  now rewrite andb_false_r.
Qed.


Section VerifiedRun.

Variable N : Z.
Variable due : Z -> bool.
Variable t : GerbiczCheckMultipointExp.
Variable R0 i0 n : Z.
Variable calls : list Z.
Variable m0 : nat.

Hypothesis b_pos : 1 <= G_b t.
Hypothesis L_pos : 1 <= G_L t.
Hypothesis m0_pos : (0 < m0)%nat.
Hypothesis L2_multiple : G_L2 t = Z.of_nat m0 * G_L t.
Hypothesis points_sorted : Sorted Z.lt (G_points t).
Hypothesis points_last : last (G_points t) = Some n.

(** A block entered at the recovery state or, from a saved working
    state, inside the block: the residue [X] is [R^(b^j)] after the [j]
    iterations made, and [D] the product of the snapshots taken so far.
    It ends at a verified recovery state further on, unless a power of
    [R0] vanishes modulo [N]. *)
Lemma Gerbicz_block_run_from (r : grun) :
  let rec := iteration (g_state_recovery r) in
  i0 <= rec < n ->
  g_R r = R0 ^ (G_b t ^ (rec - i0)) mod N ->
  (g_last_power r = -1 \/ g_exp r = G_b t ^ g_last_power r) ->
  g_next_point r = points_passed (g_i r) (G_points t) ->
  points_passed (g_i r) (G_points t) = points_passed rec (G_points t) ->
  g_called r ++ points_pending t (g_next_point r) = calls ->
  (G_L t = 1 -> (G_L2 t | n - rec)) ->
  (let '(L, L2, _) :=
     block_size (Z.to_nat (G_L t))
       (point_at (G_points t) (g_next_point r) - rec) (G_L t) (G_L2 t)
       (g_last_power r) in
   (rec = g_i r \/ rec < g_i r < rec + L2)
   /\ g_X r = g_R r ^ (G_b t ^ (g_i r - rec)) mod N
   /\ g_D r = g_R r ^ snapshots (G_b t ^ L) (S (Z.to_nat ((g_i r - rec) / L)))
             mod N
   /\ (G_b t <> 2 -> (L | g_i r - rec))) ->
  (exists r' : grun,
     Gerbicz_block N due t r = Ok r'
     /\ grun_verified N t R0 i0 calls r'
     /\ g_i r < g_i r' <= n /\ rec < g_i r'
     /\ (G_L t = 1 -> (G_L2 t | n - g_i r'))
     /\ g_state_recovery r' = mkState (g_i r') (g_R r'))
  \/ (exists (r' : grun) (k : Z),
        Gerbicz_block N due t r = TaskRestart r'
        /\ 0 <= k /\ R0 ^ k mod N = 0
        /\ g_state_recovery r' = g_state_recovery r).
Proof.
  intros rec Hi0 HR Hcache Hnp Hnprec Hcalls Hdiv. unfold Gerbicz_block.
  fold rec.
  pose proof (points_passed_range rec (G_points t)) as Hrange.
  pose proof (points_passed_more rec n _ points_last ltac:(lia)) as Hmore.
  pose proof (points_passed_next rec _ Hmore) as Hnext.
  pose proof (point_at_lookup (G_points t) _ (conj (proj1 Hrange) Hmore))
    as Hlook.
  apply list_elem_of_lookup_2 in Hlook.
  pose proof (Sorted_le_last n _ _ points_sorted points_last Hlook) as Hpn.
  rewrite <- Hnprec, <- Hnp in Hnext, Hlook, Hpn.
  set (p := point_at (G_points t) (g_next_point r)) in *.
  pose proof (block_size_multiple (p - rec) (Z.to_nat (G_L t)) (G_L t)
                (G_L2 t) (g_last_power r) L_pos
                ltac:(exists m0; split; assumption)) as Hsize.
  pose proof (block_size_fits (p - rec) (Z.to_nat (G_L t)) (G_L t)
                (G_L2 t) (g_last_power r) ltac:(clear - Hnext; lia)
                ltac:(clear - L_pos; lia)) as Hfits.
  assert (Hone : G_L t = 1 ->
            snd (fst (block_size (Z.to_nat (G_L t)) (p - rec) (G_L t)
                        (G_L2 t) (g_last_power r))) = G_L2 t).
  { intros HL1. rewrite HL1 at 2. now rewrite block_size_one. }
  destruct (block_size _ _ _ _ _) as [[L L2] last_power].
  cbn [fst snd] in Hone.
  intros (Hj & HX & HD & Hmult).
  destruct Hsize as (HL & (m & Hm & ->) & Hlp).
  assert (HmL : 1 <= Z.of_nat m * L).
  { clear - HL Hm. assert (0 < Z.of_nat m * L) by (apply Z.mul_pos_pos; lia).
    lia. }
  set (j := g_i r - rec) in *.
  assert (Hj' : 0 <= j < Z.of_nat m * L)
    by (clear - Hj HmL; subst j; lia).
  (* the block ends at or before the last point *)
  assert (Hend_n : rec + Z.of_nat m * L <= n).
  { destruct Hfits as [Hfit|(HL1 & _ & HL2)]; [clear - Hfit Hpn; lia|].
    rewrite HL2. specialize (Hdiv HL1).
    apply Z.divide_pos_le in Hdiv; [clear - Hdiv; lia|clear - Hi0; lia]. }
  (* a point inside the block lies on a multiple of L *)
  assert (Hgap : forall q, elem_of q (G_points t) ->
             rec < q < rec + Z.of_nat m * L -> (L | q - rec)).
  { intros q Hq Hin.
    destruct Hfits as [Hfit|(_ & -> & _)]; [|apply Z.divide_1_l].
    pose proof (points_passed_least rec q _ points_sorted Hq
                  ltac:(clear - Hin; lia)) as Hleast.
    rewrite <- Hnprec, <- Hnp in Hleast. fold p in Hleast.
    clear - Hleast Hfit Hin. lia. }
  assert (Hdiv' : G_L t = 1 -> (G_L2 t | n - (rec + Z.of_nat m * L))).
  { intros HL1. rewrite (Hone HL1). replace (n - (rec + G_L2 t))
      with (n - rec - G_L2 t) by ring.
    apply Z.divide_sub_r; [apply Hdiv; exact HL1|apply Z.divide_refl]. }
  clear Hfits Hone Hdiv.
  destruct (Z.leb_spec j (Z.of_nat m * L)) as [_|Hneg];
    [|clear - Hj' Hneg; lia].
  cbn [negb].
  set (r0 := mkGrun _ _ last_power _ _ _ _ _ _ _ _ _ _ _).
  set (R := g_R r) in *.
  assert (Hcache0 : g_last_power r0 = -1 \/ g_exp r0 = G_b t ^ g_last_power r0).
  { subst r0. cbn [g_last_power g_exp].
    destruct Hlp as [->| ->]; [now left|exact Hcache]. }
  assert (Hpow : (G_b t ^ L) ^ Z.of_nat m = G_b t ^ (Z.of_nat m * L)).
  { clear - HL. rewrite <- Z.pow_mul_r by lia. f_equal. ring. }
  assert (Hq : 0 <= G_b t ^ L) by (apply Z.pow_nonneg; clear - b_pos; lia).
  assert (Hsn : 0 <= snapshots (G_b t ^ L) m) by now apply snapshots_nonneg.
  assert (Hbi : 0 <= G_b t ^ (rec - i0))
    by (apply Z.pow_nonneg; clear - b_pos; lia).
  assert (HRpow : forall e, 0 <= e ->
            R ^ e mod N = R0 ^ (G_b t ^ (rec - i0) * e) mod N).
  { intros e He. rewrite HR, pow_mod_base, <- Z.pow_mul_r by assumption.
    reflexivity. }
  (* the check, from the residues at the end of the block *)
  assert (Hend : forall r1 : grun,
             g_X r1 = R ^ ((G_b t ^ L) ^ Z.of_nat m) mod N ->
             g_D r1 = R ^ snapshots (G_b t ^ L) m mod N ->
             g_R r1 = R ->
             g_state_recovery r1 = g_state_recovery r ->
             g_i r1 = rec + Z.of_nat m * L ->
             (g_last_power r1 = -1 \/ g_exp r1 = G_b t ^ g_last_power r1) ->
             g_next_point r1
             = points_passed (rec + Z.of_nat m * L - 1) (G_points t) ->
             g_called r1 ++ points_pending t (g_next_point r1) = calls ->
             (exists r' : grun,
                Gerbicz_check N t L r1 = Ok r'
                /\ grun_verified N t R0 i0 calls r'
                /\ g_i r < g_i r' <= n /\ rec < g_i r'
                /\ (G_L t = 1 -> (G_L2 t | n - g_i r'))
                /\ g_state_recovery r' = mkState (g_i r') (g_R r'))
             \/ (exists (r' : grun) (k : Z),
                   Gerbicz_check N t L r1 = TaskRestart r'
                   /\ 0 <= k /\ R0 ^ k mod N = 0
                   /\ g_state_recovery r' = g_state_recovery r)).
  { intros r1 HX1 HD1 HR1 Hrec1 Hi1 Hcache1 Hnp1 Hcalls1.
    destruct (Gerbicz_check_unfold N t L r1 b_pos ltac:(clear - HL; lia)
                ltac:(rewrite HD1; apply Zmod_mod) Hcache1)
      as (U & lp & exp & Hcache' & Heq).
    rewrite Heq, HR1, HX1, HD1, (snapshots_check N R _ m Hq).
    cbn [Z.eqb negb orb]. rewrite Hpow.
    destruct (Z.eqb_spec
                ((R ^ (G_b t ^ (Z.of_nat m * L)) mod N)
                 * (R ^ snapshots (G_b t ^ L) m mod N) mod N) 0)
      as [Hzero|Hnz].
    - right. eexists.
      exists (G_b t ^ (rec - i0)
              * (G_b t ^ (Z.of_nat m * L) + snapshots (G_b t ^ L) m)).
      split; [reflexivity|]. cbn [g_state_recovery].
      assert (Hbm : 0 <= G_b t ^ (Z.of_nat m * L))
        by (apply Z.pow_nonneg; clear - b_pos; lia).
      split; [apply Z.mul_nonneg_nonneg; [exact Hbi|clear - Hbm Hsn; lia]|].
      split; [|exact Hrec1].
      rewrite <- HRpow by (clear - Hbm Hsn; lia).
      rewrite Z.pow_add_r by assumption.
      rewrite Zmult_mod. exact Hzero.
    - left. eexists. split; [reflexivity|].
      cbn [g_i g_state_recovery g_R]. rewrite Hi1.
      split; [|split; [clear - Hj' Hend_n; subst j; lia
                      |split; [clear - HmL; lia
                              |split; [exact Hdiv'|reflexivity]]]].
      unfold grun_verified.
      cbn [g_i g_state_recovery iteration State_X g_R g_X g_D g_last_power
           g_exp g_next_point g_called].
      split; [reflexivity|]. split; [clear - Hi0 HmL; lia|].
      split.
      { rewrite HRpow by (apply Z.pow_nonneg; clear - b_pos; lia).
        rewrite <- Z.pow_add_r by (clear - Hi0 HmL; lia).
        do 3 f_equal. clear. lia. }
      split; [reflexivity|]. split; [reflexivity|].
      split; [apply Zmod_mod|]. split; [exact Hcache'|].
      destruct (cursor_step t n points_sorted points_last
                  (rec + Z.of_nat m * L - 1) (rec + Z.of_nat m * L)
                  (g_called r1) ltac:(clear - Hend_n Hi0 HmL; lia)
                  ltac:(intros; lia)) as [Hcur Hcalled].
      rewrite <- Hnp1 in Hcur, Hcalled.
      split; [symmetry; exact Hcur|].
      rewrite <- Hcur, Hcalled. exact Hcalls1. }
  assert (Hnp0 : g_next_point r0 = points_passed (g_i r0) (G_points t))
    by exact Hnp.
  assert (Hcalls0 : g_called r0 ++ points_pending t (g_next_point r0) = calls)
    by exact Hcalls.
  assert (Hgi : g_i r0 = rec + j) by (subst r0 j; cbn [g_i]; clear; lia).
  pose proof (Z.div_mod j L ltac:(clear - HL; lia)) as Hdm.
  pose proof (Z.mod_pos_bound j L ltac:(clear - HL; lia)) as Hmb.
  assert (Hk0 : 0 <= j / L) by (apply Z.div_pos; clear - Hj' HL; lia).
  destruct (Z.eqb_spec (G_b t) 2) as [Hb2|Hb2].
  - destruct (Z.to_nat (Z.of_nat m * L - j)) as [|k] eqn:Hk;
      [clear - Hj' Hk; lia|].
    destruct (block_squarings_snapshots N due t R L m HL k j
                (Z.to_nat (j / L)) (j mod L) r0)
      as (HX1 & HD1).
    + rewrite Z2Nat.id by exact Hk0. clear - Hdm. lia.
    + exact Hmb.
    + clear - Hj' Hk. lia.
    + subst r0. cbn [g_X]. rewrite HX, Hb2. reflexivity.
    + subst r0. cbn [g_D]. rewrite HD, Hb2. reflexivity.
    + destruct (block_squarings_keeps N due t L (Z.of_nat m * L) (S k) j r0)
        as (Hrec1 & _ & HR1).
      destruct (block_squarings_locals N due t L (Z.of_nat m * L) (S k) j r0)
        as (Hi1 & Hlp1 & Hexp1).
      destruct (block_squarings_points N due t n points_sorted points_last
                  L (Z.of_nat m * L) k j r0) as (Hnp1 & Hcalls1).
      * clear - Hj' Hk. lia.
      * rewrite Hgi. clear - Hend_n Hj' Hk. lia.
      * exact Hnp0.
      * apply Hend.
        -- rewrite HX1, <- Hb2, <- Hpow. reflexivity.
        -- rewrite HD1, <- Hb2. reflexivity.
        -- exact HR1.
        -- exact Hrec1.
        -- rewrite Hi1, Hgi. clear - Hk Hj'. lia.
        -- rewrite Hlp1, Hexp1. exact Hcache0.
        -- rewrite Hnp1, Hgi. f_equal. clear - Hk Hj'. lia.
        -- rewrite Hcalls1. exact Hcalls0.
  - specialize (Hmult Hb2).
    assert (Hrem : Z.rem j L = 0)
      by (apply Z.rem_divide; [clear - HL; lia|exact Hmult]).
    rewrite Hrem. cbn [Z.eqb negb].
    assert (Hmod0 : j mod L = 0)
      by (apply Z.mod_divide; [clear - HL; lia|exact Hmult]).
    assert (HjL : j = Z.of_nat (Z.to_nat (j / L)) * L).
    { rewrite Z2Nat.id by exact Hk0. clear - Hdm Hmod0. lia. }
    set (kk := Z.to_nat (j / L)) in *.
    assert (Hkm : (kk < m)%nat).
    { clear - HjL Hj' HL. nia. }
    assert (HdL : Z.of_nat (S (m - kk - 1)) * L = Z.of_nat m * L - j).
    { replace (S (m - kk - 1)) with (m - kk)%nat by (clear - Hkm; lia).
      rewrite Nat2Z.inj_sub by (clear - Hkm; lia).
      rewrite HjL. ring. }
    destruct (block_windows_snapshots N due t R L m HL (m - kk - 1)
                (Z.to_nat (Z.of_nat m * L - j)) kk r0 b_pos)
      as (HX1 & HD1 & Hexp1 & Hi1).
    + clear - Hkm. lia.
    + rewrite <- HjL. clear - Hj'. lia.
    + subst r0. cbn [g_X]. rewrite HX. do 2 f_equal.
      rewrite <- Z.pow_mul_r by (clear - HL; lia).
      f_equal. rewrite HjL. ring.
    + subst r0. cbn [g_D]. exact HD.
    + exact Hcache0.
    + rewrite <- HjL in HX1, HD1, Hexp1, Hi1.
      destruct (block_windows_keeps N due t L (Z.of_nat m * L)
                  (Z.to_nat (Z.of_nat m * L - j)) j r0)
        as (Hrec1 & _ & HR1).
      destruct (block_windows_points N due t n points_sorted points_last
                  L (Z.of_nat m * L) (m - kk - 1)
                  (Z.to_nat (Z.of_nat m * L - j)) j r0 HL)
        as (Hnp1 & Hcalls1).
      * rewrite HdL. clear. lia.
      * clear - Hj'. lia.
      * intros q Hqin Hin. rewrite Hgi, HdL in Hin. rewrite Hgi.
        replace (q - (rec + j)) with (q - rec - j) by ring.
        apply Z.divide_sub_r; [|exact Hmult].
        apply Hgap; [exact Hqin|]. clear - Hin Hj'. lia.
      * rewrite Hgi, HdL. clear - Hend_n. lia.
      * exact Hnp0.
      * apply Hend.
        -- exact HX1.
        -- exact HD1.
        -- exact HR1.
        -- exact Hrec1.
        -- rewrite Hi1, Hgi. ring.
        -- right. exact Hexp1.
        -- rewrite Hnp1, Hgi, HdL. f_equal. clear. lia.
        -- rewrite Hcalls1. exact Hcalls0.
Qed.

(** A block that starts at a verified recovery state below the last
    point. *)
Lemma Gerbicz_block_run (r : grun) :
  grun_verified N t R0 i0 calls r -> g_i r < n ->
  (G_L t = 1 -> (G_L2 t | n - g_i r)) ->
  (exists r' : grun,
     Gerbicz_block N due t r = Ok r'
     /\ grun_verified N t R0 i0 calls r'
     /\ g_i r < g_i r' <= n
     /\ (G_L t = 1 -> (G_L2 t | n - g_i r'))
     /\ g_state_recovery r' = mkState (g_i r') (g_R r'))
  \/ (exists (r' : grun) (k : Z),
        Gerbicz_block N due t r = TaskRestart r'
        /\ 0 <= k /\ R0 ^ k mod N = 0
        /\ g_state_recovery r' = g_state_recovery r).
Proof.
  intros (Hi & Hi0 & HR & HX & HD & Hrec & Hcache & Hnp & Hcalls) Hn Hdiv.
  pose proof (Gerbicz_block_run_from r) as Hfrom. cbv zeta in Hfrom.
  rewrite <- Hi in Hfrom.
  destruct Hfrom as [(r' & H1 & H2 & H3 & _ & H4 & H5)|Hrestart];
    try assumption.
  - split; assumption.
  - reflexivity.
  - destruct (block_size _ _ _ _ _) as [[L L2] lp].
    rewrite Z.sub_diag, Z.pow_0_r, Z.pow_1_r, Zdiv_0_l.
    change (Z.to_nat 0) with 0%nat. cbn [snapshots].
    rewrite Z.mul_0_r, Z.add_0_r, Z.pow_1_r.
    assert (HRmod : g_R r mod N = g_R r) by (rewrite HR; apply Zmod_mod).
    split; [now left|]. split; [now rewrite HX, HRmod|].
    split; [now rewrite HD, HRmod|]. intros _. apply Z.divide_0_r.
  - left. exists r'. split; [exact H1|]. split; [exact H2|].
    split; [exact H3|]. split; [exact H4|exact H5].
  - right. exact Hrestart.
Qed.

(** The loop over the points, from a verified recovery state. *)
Lemma Gerbicz_blocks_run (blocks : nat) :
  forall r : grun,
    grun_verified N t R0 i0 calls r -> g_i r <= n ->
    n - g_i r <= Z.of_nat blocks ->
    (G_L t = 1 -> (G_L2 t | n - g_i r)) ->
    (exists r' : grun,
       Gerbicz_blocks N due blocks t r = Some (Ok r')
       /\ grun_verified N t R0 i0 calls r' /\ g_i r' = n
       /\ (g_i r < n \/ g_state_recovery r = mkState (g_i r) (g_R r) ->
           g_state_recovery r' = mkState n (g_R r')))
    \/ (exists (r' : grun) (k : Z),
          Gerbicz_blocks N due blocks t r = Some (TaskRestart r')
          /\ 0 <= k /\ R0 ^ k mod N = 0).
Proof.
  induction blocks as [|blocks IH]; intros r Hr Hn Hfuel Hdiv.
  - left. exists r. cbn [Gerbicz_blocks].
    destruct Hr as (Hi & Hi0 & HR & HX & HD & Hrec & Hcache & Hnp & Hcalls).
    rewrite Hnp, (points_passed_end (g_i r) n) by (assumption || lia).
    rewrite Z.ltb_irrefl. split; [reflexivity|].
    split; [repeat split; assumption|]. split; [lia|].
    intros [Hlt|Hst]; [lia|]. rewrite Hst. f_equal. lia.
  - cbn [Gerbicz_blocks].
    pose proof Hr as (Hi & Hi0 & HR & HX & HD & Hrec & Hcache & Hnp & Hcalls).
    destruct (Z.eq_dec (g_i r) n) as [Heq|Hne].
    + left. exists r.
      rewrite Hnp, (points_passed_end (g_i r) n) by (assumption || lia).
      rewrite Z.ltb_irrefl. split; [reflexivity|].
      split; [assumption|]. split; [assumption|].
      intros [Hlt|Hst]; [lia|]. rewrite Hst. f_equal. exact Heq.
    + pose proof (points_passed_more (g_i r) n _ points_last ltac:(lia))
        as Hmore.
      rewrite <- Hnp in Hmore.
      destruct (Z.ltb_spec (g_next_point r) (Z.of_nat (length (G_points t))))
        as [_|Hge]; [|lia].
      destruct (Gerbicz_block_run r Hr ltac:(lia) Hdiv)
        as [(r' & Hblock & Hr' & Hi' & Hdiv' & Hst')
           |(r' & k & Hblock & Hk)].
      * rewrite Hblock.
        destruct (IH r' Hr' ltac:(lia) ltac:(lia) Hdiv')
          as [(r'' & Hrun & Hr'' & Hi'' & Hst'')|Hrestart];
          [|right; exact Hrestart].
        left. exists r''. split; [exact Hrun|]. split; [exact Hr''|].
        split; [exact Hi''|]. intros _. apply Hst''. right. exact Hst'.
      * right. exists r', k. rewrite Hblock. split; [reflexivity|].
        split; apply Hk.
Qed.

End VerifiedRun.

(** [execute] in arithmetic without errors, from a recovery state at or
    before the last point: the residue, the recovery state and the calls
    it ends with. *)
Lemma Gerbicz_execute_run (N : Z) (due : Z -> bool)
    (t : GerbiczCheckMultipointExp) (rec : State) (R st_i n : Z)
    (blocks m0 : nat) :
  1 <= G_b t -> 1 <= G_L t -> (0 < m0)%nat ->
  G_L2 t = Z.of_nat m0 * G_L t ->
  (G_L t = 1 -> (G_L2 t | n - iteration rec)) ->
  Sorted Z.lt (G_points t) -> last (G_points t) = Some n ->
  G_state_recovery t = Some rec -> G_state t = Some (TaskState_at st_i) ->
  G_R t = Some R -> R = State_X rec mod N ->
  iteration rec <= n -> n - iteration rec <= Z.of_nat blocks ->
  (exists (t' : GerbiczCheckMultipointExp) (s : State),
     Gerbicz_execute N due blocks t = Some (Ok t')
     /\ G_R t' = Some (R ^ (G_b t ^ (n - iteration rec)) mod N)
     /\ G_state_recovery t' = Some s /\ iteration s = n
     /\ State_X s mod N = R ^ (G_b t ^ (n - iteration rec)) mod N
     /\ (iteration rec < n -> State_X s = State_X s mod N)
     /\ G_called t'
        = G_called t
          ++ (if G_on_point t
              then points_after (iteration rec) (G_points t)
              else []))
  \/ (exists (t' : GerbiczCheckMultipointExp) (k : Z),
        Gerbicz_execute N due blocks t = Some (TaskRestart t')
        /\ 0 <= k /\ R ^ k mod N = 0).
Proof.
  intros Hb HL Hm0 HL2 Hdiv Hsorted Hlast Hrec Hst HR HRrec Hn Hblocks.
  unfold Gerbicz_execute, Gerbicz_enter. rewrite HR, Hrec, Hst.
  set (r0 := mkGrun _ _ _ _ _ _ _ _ _ _ _ _ _ _).
  set (calls := G_called t
                ++ points_pending t
                     (points_passed (iteration rec) (G_points t))).
  assert (Hr0 : grun_verified N t R (iteration rec) calls r0).
  { subst r0. unfold grun_verified.
    cbn [g_i g_state_recovery g_R g_X g_D g_last_power g_exp g_next_point
         g_called].
    rewrite Z.sub_diag, Z.pow_0_r, Z.pow_1_r.
    assert (HRmod : R mod N = R) by (rewrite HRrec; apply Zmod_mod).
    repeat split; try reflexivity; try lia; try congruence;
      try (now left). }
  destruct (Gerbicz_blocks_run N due t R (iteration rec) n calls m0 Hb HL
              Hm0 HL2 Hsorted Hlast blocks r0 Hr0 Hn Hblocks Hdiv)
    as [(r' & Hrun & Hr' & Hi' & Hst')|(r' & k & Hrun & Hk0 & Hk)].
  - left. rewrite Hrun. eexists. exists (g_state_recovery r').
    split; [reflexivity|].
    destruct Hr' as (Hi & Hi0 & HR' & HX & HD & Hrec' & Hcache & Hnp & Hcalls).
    rewrite Hi' in HR'.
    unfold Gerbicz_leave. cbn [G_R G_state_recovery G_called].
    split; [now rewrite HR'|]. split; [reflexivity|].
    split; [congruence|]. split; [now rewrite Hrec', HR'|].
    split.
    + intros Hlt. rewrite Hrec', Hst' by (left; exact Hlt). reflexivity.
    + rewrite Hnp, Hi', (points_passed_end n n) in Hcalls
        by (assumption || lia).
      unfold points_pending in Hcalls at 1.
      rewrite Nat2Z.id, drop_all in Hcalls.
      assert (Hcalled : g_called r' = calls)
        by (destruct (G_on_point t); now rewrite app_nil_r in Hcalls).
      rewrite Hcalled. subst calls. unfold points_pending.
      now rewrite points_after_drop.
  - right. rewrite Hrun. eexists. exists k. split; [reflexivity|].
    split; assumption.
Qed.



(** ** The parameters of the check *)

Lemma Gerbicz_params_bounds (fuel : nat) (n L L2 : Z) :
  1 <= n <= Gerbicz_params_max ->
  Gerbicz_params fuel n = Some (L, L2) ->
  Z.sqrt n <= L <= n
  /\ L2 = n - n mod L
  /\ (L = Z.sqrt n \/ L * L < 2 * n).
Proof.
  intros Hn Hparams.
  pose proof (Gerbicz_params_spec fuel n Hn) as H.
  rewrite Hparams in H. destruct H as (HL & HL2 & Hcand & _).
  split; [|split; assumption]. split; [exact HL|].
  destruct (Z.le_gt_cases L n) as [|Hgt]; [assumption|exfalso].
  destruct Hcand as [->|Hsq].
  - pose proof (Z.sqrt_le_lin n ltac:(lia)). lia.
  - assert ((n + 1) * (n + 1) <= L * L)
      by (apply Z.mul_le_mono_nonneg; lia).
    nia.
Qed.

(** X9: a fresh task with the block sizes that [Gerbicz_params] returns
    for its last point [n], [1 <= n <= 1073697800], started by [init_state]
    from [State{0, X}] and set up: [execute] ends with
    [_R = X^(b^n) mod N] after calling [_on_point] at every point, or
    raises the restart exception because a power of [X] is zero modulo
    [N]; no assertion fails. *)
Theorem Gerbicz_task_residue (N : Z) (due : Z -> bool) (b W_ max_size : Z)
    (on_point : bool) (U : list Z) (X n : Z) (points : list Z)
    (blocks fuel : nat) :
  1 <= b -> 1 <= n <= Gerbicz_params_max ->
  Sorted Z.lt points -> last points = Some n ->
  n <= Z.of_nat blocks ->
  Z.sqrt (2 * n) - Z.sqrt n < Z.of_nat fuel ->
  exists L L2 : Z,
    Gerbicz_params fuel n = Some (L, L2)
    /\ exists (t1 : GerbiczCheckMultipointExp)
              (o : outcome GerbiczCheckMultipointExp),
         Gerbicz_setup N
           (Gerbicz_init_state
              (mkGerbicz b points W_ max_size on_point L L2 None None None
                 U 0 0 0 [])
              (mkState 0 X))
         = Ok t1
         /\ Gerbicz_execute N due blocks t1 = Some o
         /\ match o with
            | Ok t' =>
                G_R t' = Some (X ^ (b ^ n) mod N)
                /\ G_state_recovery t'
                   = Some (mkState n (X ^ (b ^ n) mod N))
                /\ G_called t'
                   = (if on_point then points_after 0 points else [])
            | TaskRestart _ => exists k : Z, 0 <= k /\ X ^ k mod N = 0
            | AssertionFailed => False
            end.
Proof.
  intros Hb Hn Hsorted Hlast Hblocks Hfuel.
  pose proof (Gerbicz_params_spec fuel n Hn) as Hret.
  destruct (Gerbicz_params fuel n) as [[L L2]|] eqn:Hparams; [clear Hret|lia].
  destruct (Gerbicz_params_bounds fuel n L L2 Hn Hparams) as (HL & HL2 & _).
  assert (HL1 : 1 <= L).
  { assert (0 < Z.sqrt n) by (apply Z.sqrt_pos; lia). lia. }
  exists L, L2. split; [reflexivity|].
  unfold Gerbicz_init_state, Gerbicz_setup, G_with_state.
  cbn [G_state G_R G_state_recovery G_b G_points G_W G_max_size G_on_point
       G_L G_L2 G_U G_recovery_op G_restart_op G_restart_count G_called
       iteration State_X].
  eexists.
  match goal with
  | |- exists o, Ok ?t1 = Ok _ /\ _ =>
      destruct (Gerbicz_execute_run N due t1 (mkState 0 X) (GWNum_of N X) 0 n
                  blocks (Z.to_nat (n / L)))
        as [(t' & s & Hexec & HR & Hs & Hit & HsX & Hexact & Hcalled)
           |(t' & k & Hexec & Hk & Hz)]
  end.
  all: cbn [G_state G_R G_state_recovery G_b G_points G_W G_max_size
            G_on_point G_L G_L2 G_U G_called iteration State_X] in *;
    try reflexivity; try assumption; try lia.
  - assert (0 < n / L) by (apply Z.div_str_pos; lia). lia.
  - rewrite Z2Nat.id by (apply Z.div_pos; lia).
    pose proof (Z.div_mod n L ltac:(lia)). lia.
  - intros ->. rewrite HL2, Z.mod_1_r, !Z.sub_0_r. apply Z.divide_refl.
  - exists (Ok t'). split; [reflexivity|]. split; [exact Hexec|].
    rewrite Z.sub_0_r in HR, HsX. unfold GWNum_of in HR, HsX.
    rewrite pow_mod_base in HR, HsX.
    split; [exact HR|]. split; [|exact Hcalled].
    rewrite Hs. f_equal. destruct s as [si sX].
    cbn [iteration State_X] in *. rewrite Hit, (Hexact ltac:(lia)), HsX.
    reflexivity.
  - exists (TaskRestart t'). split; [reflexivity|]. split; [exact Hexec|].
    exists k. split; [exact Hk|].
    unfold GWNum_of in Hz. now rewrite pow_mod_base in Hz.
Qed.

Lemma Gerbicz_task_residue_witness :
  Gerbicz_params 3 40 = Some (8, 40)
  /\ exists L L2 : Z,
       Gerbicz_params 3 40 = Some (L, L2)
       /\ exists (t1 : GerbiczCheckMultipointExp)
                 (o : outcome GerbiczCheckMultipointExp),
            Gerbicz_setup 1009
              (Gerbicz_init_state
                 (mkGerbicz 2 [10; 25; 40] (-1) (-1) true L L2 None None
                    None [] 0 0 0 [])
                 (mkState 0 3))
            = Ok t1
            /\ Gerbicz_execute 1009 (fun i => i mod 7 =? 0) 40 t1 = Some o
            /\ match o with
               | Ok t' =>
                   G_R t' = Some (3 ^ (2 ^ 40) mod 1009)
                   /\ G_state_recovery t'
                      = Some (mkState 40 (3 ^ (2 ^ 40) mod 1009))
                   /\ G_called t'
                      = (if true then points_after 0 [10; 25; 40] else [])
               | TaskRestart _ => exists k : Z, 0 <= k /\ 3 ^ k mod 1009 = 0
               | AssertionFailed => False
               end.
Proof.
  split; [vm_compute; reflexivity|].
  exact (Gerbicz_task_residue 1009 (fun i => i mod 7 =? 0) 2 (-1) (-1)
           true [] 3 40 [10; 25; 40] 40 3 ltac:(lia)
           ltac:(unfold Gerbicz_params_max; lia)
           ltac:(repeat constructor) eq_refl ltac:(lia)
           ltac:(vm_compute; reflexivity)).
Defined.

(** ** Release and set-up *)

(** A verified block leaves in the recovery state the residue it leaves
    in [R]. *)
Lemma Gerbicz_check_recovery (N : Z) (t : GerbiczCheckMultipointExp) (L : Z)
    (r r' : grun) :
  Gerbicz_check N t L r = Ok r' ->
  g_R r' = g_X r /\ g_state_recovery r' = mkState (g_i r) (g_X r).
Proof.
  unfold Gerbicz_check.
  destruct (G_b t =? 2).
  - destruct (negb _ || _); intros [= <-]. now split.
  - destruct (power_cache _ _ _ _) as [last_power exp].
    destruct (sliding_window _ _ _ _ _ _) as [U X].
    destruct (negb _ || _); intros [= <-]. now split.
Qed.

Lemma Gerbicz_block_recovery (N : Z) (due : Z -> bool)
    (t : GerbiczCheckMultipointExp) (r r' : grun) :
  Gerbicz_block N due t r = Ok r' ->
  State_X (g_state_recovery r') = g_R r'.
Proof.
  unfold Gerbicz_block.
  destruct (block_size _ _ _ _ _) as [[L L2] last_power].
  destruct (negb _); [discriminate|].
  destruct (G_b t =? 2).
  - intros Hcheck. apply Gerbicz_check_recovery in Hcheck as [-> ->].
    reflexivity.
  - destruct (negb _); [discriminate|].
    intros Hcheck. apply Gerbicz_check_recovery in Hcheck as [-> ->].
    reflexivity.
Qed.

(** Whatever the blocks of a run do, [R] stays the residue of the recovery
    state. *)
Lemma Gerbicz_blocks_recovery (N : Z) (due : Z -> bool)
    (t : GerbiczCheckMultipointExp) (blocks : nat) :
  1 <= G_b t -> 1 <= G_L t ->
  forall r r' : grun,
    grun_residues N t r ->
    State_X (g_state_recovery r) mod N = g_R r ->
    Gerbicz_blocks N due blocks t r = Some (Ok r')
    \/ Gerbicz_blocks N due blocks t r = Some (TaskRestart r') ->
    State_X (g_state_recovery r') mod N = g_R r'.
Proof.
  intros Hb HL.
  induction blocks as [|blocks IH]; intros r r' Hres Hrec; cbn [Gerbicz_blocks];
    destruct (g_next_point r <? Z.of_nat (length (G_points t)));
    try (intros [[=]|[=]]; congruence).
  destruct (Gerbicz_block N due t r) as [r1| |r1] eqn:Hblock.
  - apply IH.
    + now apply (Gerbicz_block_residues N due t r r1).
    + rewrite (Gerbicz_block_recovery N due t r r1 Hblock).
      now apply (Gerbicz_block_residues N due t r r1).
  - intros [[=]|[=]].
  - intros [[=]|[= <-]].
    destruct (Gerbicz_block_restart_state N due t r r1 Hblock)
      as (_ & _ & _ & -> & ->).
    exact Hrec.
Qed.

(** X10: after [execute], whether it returned or raised the restart
    exception, [release] followed by [setup] rebuilds [_R] from the
    recovery state to the value it had; the recovery and working states
    are untouched, the table [_U] is empty and [_recovery_op] is 0. *)
Theorem Gerbicz_release_setup (N : Z) (due : Z -> bool) (blocks : nat)
    (t t' : GerbiczCheckMultipointExp) (rec : State) :
  1 <= G_b t -> 1 <= G_L t ->
  G_state_recovery t = Some rec ->
  G_R t = Some (State_X rec mod N) ->
  Gerbicz_execute N due blocks t = Some (Ok t')
  \/ Gerbicz_execute N due blocks t = Some (TaskRestart t') ->
  exists t'' : GerbiczCheckMultipointExp,
    Gerbicz_setup N (Gerbicz_release t') = Ok t''
    /\ G_R t'' = G_R t'
    /\ G_state_recovery t'' = G_state_recovery t'
    /\ G_state t'' = G_state t'
    /\ G_called t'' = G_called t'
    /\ G_U t'' = []
    /\ G_recovery_op t'' = 0.
Proof.
  intros Hb HL Hrec HR. unfold Gerbicz_execute.
  destruct (Gerbicz_enter N t) as [r|] eqn:Henter;
    [|intros [[=]|[=]]].
  pose proof (Gerbicz_enter_residues N t r) as Hres.
  specialize (Hres ltac:(intros R' HR'; rewrite HR in HR';
                         injection HR' as <-; apply Zmod_mod) Henter).
  assert (Hr : State_X (g_state_recovery r) mod N = g_R r).
  { unfold Gerbicz_enter in Henter. rewrite HR, Hrec in Henter.
    destruct (G_state t) as [[i|i X D]|]; [| |discriminate];
      injection Henter as <-; reflexivity. }
  destruct (Gerbicz_blocks N due blocks t r) as [[r'| |r']|] eqn:Hblocks;
    try (intros [[=]|[=]]; fail).
  - intros [[= <-]|[=]].
    pose proof (Gerbicz_blocks_recovery N due t blocks Hb HL r r' Hres Hr
                  (or_introl Hblocks)) as Hr'.
    unfold Gerbicz_leave, Gerbicz_release, Gerbicz_setup.
    cbn [G_R G_state_recovery G_state G_called G_U G_recovery_op].
    eexists. split; [reflexivity|].
    cbn [G_R G_state_recovery G_state G_called G_U G_recovery_op].
    unfold GWNum_of. rewrite Hr'. now repeat split.
  - intros [[=]|[= <-]].
    pose proof (Gerbicz_blocks_recovery N due t blocks Hb HL r r' Hres Hr
                  (or_intror Hblocks)) as Hr'.
    unfold Gerbicz_leave, Gerbicz_release, Gerbicz_setup.
    cbn [G_R G_state_recovery G_state G_called G_U G_recovery_op].
    eexists. split; [reflexivity|].
    cbn [G_R G_state_recovery G_state G_called G_U G_recovery_op].
    unfold GWNum_of. rewrite Hr'. now repeat split.
Qed.

Lemma Gerbicz_release_setup_witness :
  exists t' t'' : GerbiczCheckMultipointExp,
    Gerbicz_execute 1009 (fun i => i mod 7 =? 0) 40
      (mkGerbicz 2 [10; 25; 40] (-1) (-1) true 6 36 (Some (TaskState_at 0))
         (Some (mkState 0 3)) (Some 3) [] 0 0 0 [])
    = Some (Ok t')
    /\ Gerbicz_setup 1009 (Gerbicz_release t') = Ok t''
    /\ G_R t'' = G_R t'.
Proof.
  assert (Hexec : exists t' : GerbiczCheckMultipointExp,
            Gerbicz_execute 1009 (fun i => i mod 7 =? 0) 40
              (mkGerbicz 2 [10; 25; 40] (-1) (-1) true 6 36
                 (Some (TaskState_at 0)) (Some (mkState 0 3)) (Some 3) []
                 0 0 0 [])
            = Some (Ok t'))
    by (eexists; vm_compute; reflexivity).
  destruct Hexec as [t' Hexec].
  destruct (Gerbicz_release_setup 1009 (fun i => i mod 7 =? 0) 40
              (mkGerbicz 2 [10; 25; 40] (-1) (-1) true 6 36
                 (Some (TaskState_at 0)) (Some (mkState 0 3)) (Some 3) []
                 0 0 0 [])
              t' (mkState 0 3))
    as (t'' & Hsetup & HR & _).
  - cbn. lia.
  - cbn. lia.
  - reflexivity.
  - reflexivity.
  - left. exact Hexec.
  - exists t', t''. split; [exact Hexec|].
    split; [exact Hsetup|exact HR].
Defined.

(** ** The cost of the check *)

(** X11: for [b = 2] and the block sizes that [Gerbicz_params] returns
    for the last point [n], [1 <= n <= 1073697800], [cost()] returns
    [n + n/L + L] without leaving the range of [int]: [L2] is more than
    half of [n], so [n/L2 = 1], and the check adds at most
    [sqrt(n) + sqrt(2n) + 2] multiplications to the [n] squarings. *)
Theorem Gerbicz_cost_squarings (log2b : float)
    (t : GerbiczCheckMultipointExp) (n : Z) (fuel : nat) :
  G_b t = 2 -> last (G_points t) = Some n ->
  1 <= n <= Gerbicz_params_max ->
  Gerbicz_params fuel n = Some (G_L t, G_L2 t) ->
  Z.quot n (G_L2 t) = 1
  /\ Gerbicz_cost log2b t = Some (double_of_int (n + n / G_L t + G_L t))
  /\ n / G_L t + G_L t <= Z.sqrt n + Z.sqrt (2 * n) + 2.
Proof.
  intros Hb Hlast Hn Hparams.
  destruct (Gerbicz_params_bounds fuel n (G_L t) (G_L2 t) Hn Hparams)
    as ((Hlo & Hhi) & HL2 & Hcand).
  set (L := G_L t) in *. set (L2 := G_L2 t) in *.
  assert (Hs : 1 <= Z.sqrt n).
  { assert (0 < Z.sqrt n) by (apply Z.sqrt_pos; lia). lia. }
  pose proof (Z.sqrt_spec n ltac:(lia)) as Hsqrt. cbv zeta in Hsqrt.
  pose proof (Z.mod_pos_bound n L ltac:(lia)) as Hmod.
  assert (Hhalf : n < 2 * L2).
  { destruct Hcand as [HLs|Hsq]; [rewrite HLs in *; nia|].
    destruct (Z.le_gt_cases 4 L) as [H4|H4]; [nia|].
    assert (HL : L = 1 \/ L = 2 \/ L = 3) by lia.
    destruct HL as [HL|[HL|HL]]; rewrite HL in *; lia. }
  assert (Hq : Z.quot n L2 = 1).
  { rewrite Z.quot_div_nonneg by lia.
    symmetry. apply (Z.div_unique n L2 1 (n - L2)); lia. }
  assert (HnL : n / L <= Z.sqrt n + 2).
  { apply Z.lt_succ_r. apply Z.div_lt_upper_bound; nia. }
  assert (HL : L <= Z.sqrt (2 * n)).
  { destruct Hcand as [->|Hsq]; [apply Z.sqrt_le_mono; lia|].
    apply Z.sqrt_le_square; lia. }
  assert (Hsn : Z.sqrt n <= 32767).
  { change 32767 with (Z.sqrt Gerbicz_params_max).
    apply Z.sqrt_le_mono. lia. }
  assert (Hs2n : Z.sqrt (2 * n) <= 46340).
  { change 46340 with (Z.sqrt (2 * Gerbicz_params_max)).
    apply Z.sqrt_le_mono. lia. }
  assert (Hdiv : 0 <= n / L) by (apply Z.div_pos; lia).
  split; [exact Hq|]. split; [|lia].
  unfold Gerbicz_cost. rewrite Hlast. fold L L2.
  destruct (Z.eqb_spec L 0) as [|_]; [lia|].
  destruct (Z.eqb_spec L2 0) as [|_]; [lia|]. cbn [orb].
  destruct (Z.eqb_spec n (-2147483648)) as [|_]; [lia|]. cbn [andb].
  rewrite Hb, Hq, Z.quot_div_nonneg by lia. cbn [Z.eqb Pos.eqb].
  rewrite Z.mul_1_l.
  unfold Gerbicz_params_max in Hn.
  rewrite (int_wrap_small (n + n / L)) by lia.
  rewrite (int_wrap_small L) by lia.
  rewrite (int_wrap_small (n + n / L + L)) by lia.
  reflexivity.
Qed.

Lemma Gerbicz_cost_squarings_witness :
  Gerbicz_params 3 28 = Some (7, 28)
  /\ Gerbicz_cost 1
       (mkGerbicz 2 [10; 25; 28] (-1) (-1) true 7 28 None None None []
          0 0 0 [])
     = Some (double_of_int (28 + 28 / 7 + 7)).
Proof.
  split; [vm_compute; reflexivity|].
  apply (Gerbicz_cost_squarings 1
           (mkGerbicz 2 [10; 25; 28] (-1) (-1) true 7 28 None None None []
              0 0 0 [])
           28 3);
    [reflexivity|reflexivity|unfold Gerbicz_params_max; lia
    |vm_compute; reflexivity].
Defined.

(** ** The length of a block *)




(** ** Calls of [_on_point] and the check *)

Section BlockCalls.

Variable N : Z.
Variable due : Z -> bool.
Variable t : GerbiczCheckMultipointExp.



End BlockCalls.




(** ** Working states saved inside a block *)


Section BlockCommits.

Variable N : Z.
Variable due : Z -> bool.
Variable t : GerbiczCheckMultipointExp.
Variable R L L2 start : Z.

Hypothesis L_pos : 1 <= L.



End BlockCommits.


